(** * Keyframe editor: spectrogram builder, bi-log slider, tile manager, renderer

    A shallow embedding of the audio-analysis and view-synchronisation core
    of the keyframe editor (modules [utils.js], [spectrogram.js],
    [ui-controls.js] and the application script), of its keyframe list with
    undo and redo ([keyframe-manager.js], [history-manager.js]), and the
    proofs of its specified properties and of further properties of the
    same code.

    Number model.  JavaScript numbers are IEEE-754 doubles.  Here
    - sample indices, sizes, counters and tokens are [Z];
    - times in seconds and pixel densities are exact rationals [Q];
    - signal values (samples, magnitudes, decibels, zoom factors) are real
      numbers [R], with [cos], [sin], [sqrt], [ln] and [Rpower] standing for
      [Math.cos], [Math.sin], [Math.sqrt]/[Math.hypot], [Math.log] and
      [Math.pow].
    Rounding, overflow and NaN are therefore outside the model: every
    statement below is about finite inputs and exact arithmetic.  Where
    the source works on 32-bit integers ([<<]) or counts in doubles
    ([kfSeq]), the statements carry the bounds within which no wrap-around
    and no rounding occurs.  A string is the list of its UTF-16 code
    units.

    Control model.  An [async] function is split at its [await] into the
    part that runs at the call and the part that runs at resumption; the
    runs waiting in between are kept in the state, and an execution is a
    sequence of handler calls and resumptions in any order. *)

From Stdlib Require Import ZArith QArith Qround Qabs Qminmax Reals Lra Lia List Bool Sorted.
From Stdlib Require Lqa.
Import ListNotations.

Local Open Scope Z_scope.

(** ** Typed arrays and counted loops *)

(** [for (let i = 0; i < n; i++)]: the indices visited, in order. *)
Definition zrange (n : Z) : list Z := map Z.of_nat (seq 0 (Z.to_nat n)).

(** [a[i]] on a [Float32Array].  An index outside the array reads
    [undefined] in JavaScript; the builders only read inside, and the model
    returns [0] there. *)
Definition getR (a : list R) (i : Z) : R :=
  if i <? 0 then 0%R else nth (Z.to_nat i) a 0%R.

Fixpoint setNth {A} (a : list A) (n : nat) (v : A) : list A :=
  match a, n with
  | [], _ => []
  | _ :: t, O => v :: t
  | h :: t, S k => h :: setNth t k v
  end.

(** [a[i] = v] on a typed array: a store outside the array is ignored. *)
Definition setR (a : list R) (i : Z) (v : R) : list R :=
  if i <? 0 then a else setNth a (Z.to_nat i) v.

(** The same store on the bytes of an [ImageData]. *)
Definition setZ (a : list Z) (i : Z) (v : Z) : list Z :=
  if i <? 0 then a else setNth a (Z.to_nat i) v.

(** [a < b] on rationals, as a boolean. *)
Definition Qltb (a b : Q) : bool := negb (Qle_bool b a).

(** [Math.round] on a rational and on a real: halves round up. *)
Definition roundQ (q : Q) : Z := Qfloor (q + (1 # 2)).
Definition roundR (x : R) : Z := Zfloor (x + / 2).

(** ** utils.js *)
Module Utils.

(** [clamp(v, lo, hi) = Math.min(hi, Math.max(lo, v))]. *)
Definition clamp (v lo hi : R) : R := Rmin hi (Rmax lo v).
Definition clampQ (v lo hi : Q) : Q := Qmin hi (Qmax lo v).
Definition clampZ (v lo hi : Z) : Z := Z.min hi (Z.max lo v).

(** [floorPow2(n)]: [p = 1; while ((p << 1) <= n) p <<= 1].  The shift is
    a 32-bit one in the source: for [n < 2^30] it stays below its
    wrap-around and the loop ends within 30 rounds; nothing is stated
    about larger [n]. *)
Fixpoint floorPow2_loop (fuel : nat) (p : Z) (n : Q) : Z :=
  match fuel with
  | O => p
  | S k => if Qle_bool (inject_Z (Z.shiftl p 1)) n
           then floorPow2_loop k (Z.shiftl p 1) n else p
  end.
Definition floorPow2 (n : Q) : Z := floorPow2_loop 31 1 n.

(** The bi-log slider mapping [{ min, max, steps, mid }]. *)
Record BiLogMap := { min : R; max : R; steps : Z; mid : R }.

Definition createBiLogMapping (mn mx : R) (st : Z) : BiLogMap :=
  {| min := mn; max := mx; steps := st; mid := (IZR st / 2)%R |}.

Definition factorFromSlider (value : R) (map : BiLogMap) : R :=
  let v := clamp value 0%R (IZR (steps map)) in
  let mid := mid map in
  if Req_dec_T v mid then 1%R
  else if Rlt_dec v mid then
    let p := (v / mid)%R in
    (min map * Rpower (1 / min map) p)%R
  else
    let p := ((v - mid) / mid)%R in
    Rpower (max map) p.

Definition sliderFromFactor (factor : R) (map : BiLogMap) : Z :=
  let f := clamp factor (min map) (max map) in
  let mid := mid map in
  if Rlt_dec (Rabs (f - 1)) 1e-12%R then roundR mid
  else if Rlt_dec f 1 then
    let p := (ln (f / min map) / ln (1 / min map))%R in
    roundR (p * mid)
  else
    let p := (ln f / ln (max map))%R in
    roundR (mid + p * mid).

End Utils.

(** ** spectrogram.js *)
Module SpectrogramModule.

(** The Web Audio [AudioBuffer]: [numberOfChannels] is the number of
    channel arrays, each holding [ab_length] samples, and [duration] is
    [length / sampleRate]. *)
Record AudioBuffer := {
  ab_sampleRate : Z;
  ab_length : Z;
  ab_channels : list (list R)
}.

Definition numberOfChannels (ab : AudioBuffer) : Z :=
  Z.of_nat (length (ab_channels ab)).
Definition ab_duration (ab : AudioBuffer) : Q :=
  (inject_Z (ab_length ab) / inject_Z (ab_sampleRate ab))%Q.

(** The object both builders return.  The CPU builder leaves [viewStart]
    and [viewDuration] out ([None] is JavaScript's [undefined]). *)
Record Spectrogram := {
  data : list R;
  frames : Z;
  bins : Z;
  hopSize : Z;
  sampleRate : Z;
  duration : Q;
  totalDuration : Q;
  sliceStart : Q;
  sliceDuration : Q;
  viewStart : option Q;
  viewDuration : option Q
}.

(** The three [throw new Error(...)] sites of the CPU path. *)
Inductive Error :=
| AudioSegmentTooShort      (* 'Audio segment too short for FFT size' *)
| InsufficientAudioLength   (* 'Insufficient audio length for spectrogram' *)
| FftSizeNotPowerOf2.       (* 'FFT size must be power of 2' *)

Inductive result (A : Type) :=
| Ok (a : A)
| Throw (e : Error).
Arguments Ok {A} a.
Arguments Throw {A} e.

(** Both length errors are the specification's InsufficientLength. *)
Definition isInsufficientLength (e : Error) : bool :=
  match e with
  | AudioSegmentTooShort | InsufficientAudioLength => true
  | FftSizeNotPowerOf2 => false
  end.

(** *** Region clamping and frame count (shared by both paths) *)

Definition startSampleOf (ab : AudioBuffer) (start : Q) : Z :=
  Z.max 0 (Qfloor (start * inject_Z (ab_sampleRate ab))).
Definition endSampleOf (ab : AudioBuffer) (start duration : Q) : Z :=
  Z.min (ab_length ab)
        (Qceiling ((start + duration) * inject_Z (ab_sampleRate ab))).
Definition segmentLenOf (ab : AudioBuffer) (start duration : Q) : Z :=
  Z.max 0 (endSampleOf ab start duration - startSampleOf ab start).

(** [Math.floor((segmentLen - fftSize) / hopSize) + 1], for [hopSize <> 0]
    ([Z.div] rounds towards minus infinity, as [Math.floor] does). *)
Definition frameCount (segmentLen fftSize hopSize : Z) : Z :=
  (segmentLen - fftSize) / hopSize + 1.

(** *** buildHann *)
Definition buildHann (fftSize : Z) : list R :=
  map (fun i => (0.5 * (1 - cos (2 * PI * IZR i / IZR (fftSize - 1))))%R)
      (zrange fftSize).

(** *** createFFT *)

(** [y = (y << 1) | (x & 1); x >>= 1], [levels] times. *)
Fixpoint reverseBits (levels : nat) (x y : Z) : Z :=
  match levels with
  | O => y
  | S k => reverseBits k (Z.shiftr x 1) (Z.lor (Z.shiftl y 1) (Z.land x 1))
  end.

Record FFT := {
  fft_size : Z;
  rev : list Z;
  sinTable : list R;
  cosTable : list R
}.

Definition createFFT (size : Z) : result FFT :=
  if negb (Z.land size (size - 1) =? 0) then Throw FftSizeNotPowerOf2
  else
    let levels := Z.to_nat (Z.log2 size) in
    Ok {| fft_size := size;
          rev := map (fun i => reverseBits levels i 0) (zrange size);
          sinTable := map (fun i => sin (-2 * PI * IZR i / IZR size)%R)
                          (zrange (size / 2));
          cosTable := map (fun i => cos (-2 * PI * IZR i / IZR size)%R)
                          (zrange (size / 2)) |}.

Definition swapR (a : list R) (i j : Z) : list R :=
  setR (setR a i (getR a j)) j (getR a i).

(** The bit-reversal pass: [if (j > i)] swap [re] and [im] at [i], [j]. *)
Definition permuteStep (f : FFT) (st : list R * list R) (i : Z)
  : list R * list R :=
  let j := nth (Z.to_nat i) (rev f) 0 in
  if j >? i then (swapR (fst st) i j, swapR (snd st) i j) else st.

(** One butterfly of the innermost loop. *)
Definition butterfly (f : FFT) (len i : Z) (st : list R * list R) (j : Z)
  : list R * list R :=
  let re := fst st in
  let im := snd st in
  let half := Z.shiftr len 1 in
  let step := fft_size f / len in
  let k := j * step in
  let c := getR (cosTable f) k in
  let s := getR (sinTable f) k in
  let tre := (getR re (i + j + half) * c - getR im (i + j + half) * s)%R in
  let tim := (getR re (i + j + half) * s + getR im (i + j + half) * c)%R in
  let re1 := setR re (i + j + half) (getR re (i + j) - tre)%R in
  let im1 := setR im (i + j + half) (getR im (i + j) - tim)%R in
  let re2 := setR re1 (i + j) (getR re1 (i + j) + tre)%R in
  let im2 := setR im1 (i + j) (getR im1 (i + j) + tim)%R in
  (re2, im2).

(** [for (let len = 2; len <= n; len <<= 1)]: the stage lengths.  The
    shift is a 32-bit one: for [n < 2^30] it never goes past [2^30] and
    the list is the one the loop runs through.  From [n = 2^30] on the
    source's [len] wraps around to [-2^31] and its loop does not end; the
    list does not show that, and nothing is stated about such sizes. *)
Fixpoint stageLens (fuel : nat) (len n : Z) : list Z :=
  match fuel with
  | O => []
  | S k => if len <=? n then len :: stageLens k (Z.shiftl len 1) n else []
  end.

(** [for (let i = 0; i < n; i += len)]: the block starts. *)
Definition blockStarts (n len : Z) : list Z :=
  map (fun b => b * len) (zrange ((n + len - 1) / len)).

Definition stage (f : FFT) (st : list R * list R) (len : Z)
  : list R * list R :=
  fold_left
    (fun st i => fold_left (butterfly f len i) (zrange (Z.shiftr len 1)) st)
    (blockStarts (fft_size f) len) st.

Definition transform (f : FFT) (re im : list R) : list R * list R :=
  let n := fft_size f in
  let permuted := fold_left (permuteStep f) (zrange n) (re, im) in
  fold_left (stage f) (stageLens 32 2 n) permuted.

(** *** Log-normalisation (the same pass in both builders) *)

Definition log10 (x : R) : R := (ln x / ln 10)%R.

(** [let peak = 1e-9; ... if (mag > peak) peak = mag]. *)
Definition peakOf (mags : list R) : R :=
  fold_left (fun peak mag => if Rlt_dec peak mag then mag else peak)
            mags 1e-9%R.

Definition minDb : R := (-85)%R.
Definition spanDb : R := (- minDb)%R.

Definition normalizeCell (peak mag : R) : R :=
  let db := (20 * log10 (mag / peak + 1e-12))%R in
  Utils.clamp ((db - minDb) / spanDb)%R 0%R 1%R.

Definition normalize (mags : list R) : list R :=
  map (normalizeCell (peakOf mags)) mags.

(** *** computeSpectrogramCPU *)

(** The mono down-mix: every channel is added in, then the sum is scaled
    by [1 / Math.max(1, channelCount)]. *)
Definition mixdown (ab : AudioBuffer) (startSample segmentLen : Z) : list R :=
  let invCh := (1 / IZR (Z.max 1 (numberOfChannels ab)))%R in
  map (fun i =>
         (fold_left (fun acc src => (acc + getR src (startSample + i))%R)
                    (ab_channels ab) 0%R * invCh)%R)
      (zrange segmentLen).

(** One frame: window, transform, magnitudes of the first [bins] bins. *)
Definition cpuFrame (f : FFT) (hann mono : list R)
           (fftSize hopSize binCount frame : Z) : list R :=
  let offset := frame * hopSize in
  let re := map (fun i =>
                   let idx := offset + i in
                   ((if idx <? Z.of_nat (length mono)
                     then getR mono idx else 0) * getR hann i)%R)
                (zrange fftSize) in
  let im := map (fun _ => 0%R) (zrange fftSize) in
  let out := transform f re im in
  map (fun b => sqrt (getR (fst out) b * getR (fst out) b
                      + getR (snd out) b * getR (snd out) b))
      (zrange binCount).

Definition computeSpectrogramCPU (ab : AudioBuffer) (start duration : Q)
           (hopSize fftSize : Z) : result Spectrogram :=
  let startSample := startSampleOf ab start in
  let segmentLen := segmentLenOf ab start duration in
  if segmentLen <? fftSize then Throw AudioSegmentTooShort
  else
    let mono := mixdown ab startSample segmentLen in
    let binCount := fftSize / 2 in
    let frameTotal := frameCount segmentLen fftSize hopSize in
    if frameTotal <=? 0 then Throw InsufficientAudioLength
    else
      let hann := buildHann fftSize in
      match createFFT fftSize with
      | Throw e => Throw e
      | Ok f =>
          let mags :=
            concat (map (cpuFrame f hann mono fftSize hopSize binCount)
                        (zrange frameTotal)) in
          Ok {| data := normalize mags;
                frames := frameTotal;
                bins := binCount;
                hopSize := hopSize;
                sampleRate := ab_sampleRate ab;
                duration := ab_duration ab;
                totalDuration := ab_duration ab;
                sliceStart := start;
                sliceDuration := duration;
                viewStart := None;
                viewDuration := None |}
      end.

(** *** The WGSL compute shader ([getFftShader])

    One workgroup transforms one frame.  Its 256 invocations stride over
    the 1024 slots between barriers; within a phase no two invocations
    touch the same slot, so the phase is modelled by visiting the slots in
    increasing order. *)

Definition FFT_SIZE : Z := 1024.
Definition BINS : Z := 512.
Definition LOGN : Z := 10.
Definition PI2 : R := (2 * PI)%R.

(** [r = (r << 1) | ((v >> i) & 1)] for [i < bits]. *)
Definition bitrev (v bits : Z) : Z :=
  fold_left (fun r i => Z.lor (Z.shiftl r 1) (Z.land (Z.shiftr v i) 1))
            (zrange bits) 0.

Definition shaderPermute (st : list R * list R) (i : Z) : list R * list R :=
  let j := bitrev i LOGN in
  if j >? i then (swapR (fst st) i j, swapR (snd st) i j) else st.

Definition shaderButterfly (m : Z) (st : list R * list R) (k : Z)
  : list R * list R :=
  let realBuf := fst st in
  let imagBuf := snd st in
  let half := Z.shiftr m 1 in
  let angStep := (PI2 / IZR m)%R in
  let j := Z.land k (m - 1) in
  if j <? half then
    let ang := (- angStep * IZR j)%R in
    let cs := cos ang in
    let sn := sin ang in
    let block := k - j in
    let idx := block + j in
    let idx2 := idx + half in
    let tre := (getR realBuf idx2 * cs - getR imagBuf idx2 * sn)%R in
    let tim := (getR realBuf idx2 * sn + getR imagBuf idx2 * cs)%R in
    let re1 := setR realBuf idx2 (getR realBuf idx - tre)%R in
    let im1 := setR imagBuf idx2 (getR imagBuf idx - tim)%R in
    let re2 := setR re1 idx (getR re1 idx + tre)%R in
    let im2 := setR im1 idx (getR im1 idx + tim)%R in
    (re2, im2)
  else st.

Definition shaderMain (inBuf : list R) (frame : Z) : list R :=
  let base := frame * FFT_SIZE in
  let loaded := (map (fun i => getR inBuf (base + i)) (zrange FFT_SIZE),
                 map (fun _ => 0%R) (zrange FFT_SIZE)) in
  let permuted := fold_left shaderPermute (zrange FFT_SIZE) loaded in
  let out :=
    fold_left (fun st m => fold_left (shaderButterfly m) (zrange FFT_SIZE) st)
              (stageLens 32 2 FFT_SIZE) permuted in
  map (fun b => sqrt (getR (fst out) b * getR (fst out) b
                      + getR (snd out) b * getR (snd out) b))
      (zrange BINS).

(** *** computeSpectrogramWebGPU

    [device] tells whether the WebGPU path is usable: [ensureWebGPU()]
    produced a device and the dispatch goes through (an exception on that
    path makes [computeSpectrogram] fall back exactly as [null] does).
    [None] is the [null] the function returns to make the caller fall
    back. *)

Definition gpuFrameInput (ab : AudioBuffer) (hann : list R)
           (startSample endSample fftSize hopSize frame : Z) : list R :=
  let offset := frame * hopSize in
  map (fun i =>
         let idx := startSample + offset + i in
         let sample :=
           if idx <? endSample
           then (fold_left (fun s ch => (s + getR ch idx)%R)
                           (ab_channels ab) 0%R
                 / IZR (numberOfChannels ab))%R
           else 0%R in
         (sample * getR hann i)%R)
      (zrange fftSize).

Definition computeSpectrogramWebGPU (device : bool) (ab : AudioBuffer)
           (start duration : Q) (hopSize fftSize : Z) : option Spectrogram :=
  if negb device || negb (fftSize =? 1024) then None
  else
    let startSample := startSampleOf ab start in
    let endSample := endSampleOf ab start duration in
    let segmentLen := segmentLenOf ab start duration in
    let binCount := fftSize / 2 in
    let frameTotal := Z.max 1 (frameCount segmentLen fftSize hopSize) in
    if (frameTotal <=? 0) || (segmentLen <? fftSize) then None
    else
      let hann := buildHann fftSize in
      let frameData :=
        concat (map (gpuFrameInput ab hann startSample endSample
                                   fftSize hopSize)
                    (zrange frameTotal)) in
      let outData := concat (map (shaderMain frameData) (zrange frameTotal)) in
      Some {| data := normalize outData;
              frames := frameTotal;
              bins := binCount;
              hopSize := hopSize;
              sampleRate := ab_sampleRate ab;
              duration := ab_duration ab;
              totalDuration := ab_duration ab;
              sliceStart := start;
              sliceDuration := duration;
              viewStart := Some start;
              viewDuration := Some duration |}.

(** *** computeSpectrogram: WebGPU first when preferred, else the CPU. *)
Definition computeSpectrogram (device : bool) (ab : AudioBuffer)
           (start duration : Q) (hopSize fftSize : Z) (preferWebGPU : bool)
  : result Spectrogram :=
  if preferWebGPU then
    match computeSpectrogramWebGPU device ab start duration hopSize fftSize with
    | Some gpuSpec => Ok gpuSpec
    | None => computeSpectrogramCPU ab start duration hopSize fftSize
    end
  else computeSpectrogramCPU ab start duration hopSize fftSize.

End SpectrogramModule.

(** ** ui-controls.js *)
Module UIControls.

Definition SNAP_RANGE : R := 0.1%R.

(** What one run of [applyFromSlider] does: the factor and flag handed to
    [setFactorLabel] and [onChange], and the value written back to the
    input element when the snap moved the thumb. *)
Record SliderUpdate := {
  factor : R;
  snapped : bool;
  inputWrite : option Z
}.

(** The closure [applyFromSlider] of [bindBiLogSlider]; [rawVal] is
    [Number(rawVal) || 0]. *)
Definition applyFromSlider (map : Utils.BiLogMap) (rawVal : R) : SliderUpdate :=
  let clamped := Utils.clampZ (roundR rawVal) 0 (Utils.steps map) in
  let factor0 := Utils.factorFromSlider (IZR clamped) map in
  if Rle_dec (Rabs (factor0 - 1)) SNAP_RANGE then
    let snapVal := Utils.sliderFromFactor 1 map in
    {| factor := 1%R; snapped := true;
       inputWrite := if snapVal =? clamped then None else Some snapVal |}
  else
    {| factor := factor0; snapped := false; inputWrite := None |}.

(** [set(factor)]: position the thumb, then run [applyFromSlider] on it. *)
Definition set (map : Utils.BiLogMap) (f : R) : SliderUpdate :=
  applyFromSlider map (IZR (Utils.sliderFromFactor f map)).

(** The mapping of [createZoomConfig] and of [createRateConfig]. *)
Definition zoomMap : Utils.BiLogMap :=
  Utils.createBiLogMapping 0.125%R 256%R 200.
Definition rateMap : Utils.BiLogMap :=
  Utils.createBiLogMapping 0.0625%R 16%R 200.

End UIControls.

(** ** The application script *)
Module App.
Import SpectrogramModule.

(** *** Zoom *)

(** [currentSliderFactor(elInput, map)]; [raw] is
    [Number(elInput.value) || 0]. *)
Definition currentSliderFactor (raw : R) (map : Utils.BiLogMap) : R :=
  let f := Utils.factorFromSlider raw map in
  let SNAP_RANGE := 0.1%R in
  if Rle_dec (Rabs (f - 1)) SNAP_RANGE then 1%R else f.

(** [zoomConfig.baseSPP]. *)
Definition baseSPP : Q := 2048.

(** *** State *)

(** The spectrum canvas: its size in device pixels and its RGBA bytes. *)
Record Canvas := { cv_width : Z; cv_height : Z; cv_pixels : list Z }.

(** Which function started a builder run: [buildSpectrogram] or
    [buildHiResSpectrogram]. *)
Inductive Kind := FullTrack | HiRes.

(** A builder run suspended at its [await]: which function started it,
    the token it drew, and what [computeSpectrogram] will deliver. *)
Record Task := {
  kind : Kind;
  token : Z;
  outcome : result Spectrogram
}.

(** One assignment of a finished run's result to [spectrogram] or
    [hiResSpec]. *)
Record Install := {
  inst_kind : Kind;
  inst_token : Z;
  inst_spec : option Spectrogram
}.

(** The script's module-level variables, followed by two components that
    are not variables of the script: the runs currently suspended, and the
    history of installs (newest first). *)
Record State := {
  spectrogram : option Spectrogram;
  spectrogramRequestId : Z;
  hiResSpec : option Spectrogram;
  hiResRequestId : Z;
  hiResPending : bool;
  lastHiResRequestedAt : Q;
  preferWebGPU : bool;
  specViewStart : Q;
  specViewDuration : Q;
  spectrumCanvas : option Canvas;
  suspended : list Task;
  installed : list Install
}.

Definition setSpectrogram (v : option Spectrogram) (s : State) : State :=
  {| spectrogram := v; spectrogramRequestId := spectrogramRequestId s;
     hiResSpec := hiResSpec s; hiResRequestId := hiResRequestId s;
     hiResPending := hiResPending s;
     lastHiResRequestedAt := lastHiResRequestedAt s;
     preferWebGPU := preferWebGPU s; specViewStart := specViewStart s;
     specViewDuration := specViewDuration s;
     spectrumCanvas := spectrumCanvas s; suspended := suspended s;
     installed := installed s |}.

Definition setSpectrogramRequestId (v : Z) (s : State) : State :=
  {| spectrogram := spectrogram s; spectrogramRequestId := v;
     hiResSpec := hiResSpec s; hiResRequestId := hiResRequestId s;
     hiResPending := hiResPending s;
     lastHiResRequestedAt := lastHiResRequestedAt s;
     preferWebGPU := preferWebGPU s; specViewStart := specViewStart s;
     specViewDuration := specViewDuration s;
     spectrumCanvas := spectrumCanvas s; suspended := suspended s;
     installed := installed s |}.

Definition setHiResSpec (v : option Spectrogram) (s : State) : State :=
  {| spectrogram := spectrogram s;
     spectrogramRequestId := spectrogramRequestId s; hiResSpec := v;
     hiResRequestId := hiResRequestId s; hiResPending := hiResPending s;
     lastHiResRequestedAt := lastHiResRequestedAt s;
     preferWebGPU := preferWebGPU s; specViewStart := specViewStart s;
     specViewDuration := specViewDuration s;
     spectrumCanvas := spectrumCanvas s; suspended := suspended s;
     installed := installed s |}.

Definition setHiResRequestId (v : Z) (s : State) : State :=
  {| spectrogram := spectrogram s;
     spectrogramRequestId := spectrogramRequestId s;
     hiResSpec := hiResSpec s; hiResRequestId := v;
     hiResPending := hiResPending s;
     lastHiResRequestedAt := lastHiResRequestedAt s;
     preferWebGPU := preferWebGPU s; specViewStart := specViewStart s;
     specViewDuration := specViewDuration s;
     spectrumCanvas := spectrumCanvas s; suspended := suspended s;
     installed := installed s |}.

Definition setHiResPending (v : bool) (s : State) : State :=
  {| spectrogram := spectrogram s;
     spectrogramRequestId := spectrogramRequestId s;
     hiResSpec := hiResSpec s; hiResRequestId := hiResRequestId s;
     hiResPending := v; lastHiResRequestedAt := lastHiResRequestedAt s;
     preferWebGPU := preferWebGPU s; specViewStart := specViewStart s;
     specViewDuration := specViewDuration s;
     spectrumCanvas := spectrumCanvas s; suspended := suspended s;
     installed := installed s |}.

Definition setLastHiResRequestedAt (v : Q) (s : State) : State :=
  {| spectrogram := spectrogram s;
     spectrogramRequestId := spectrogramRequestId s;
     hiResSpec := hiResSpec s; hiResRequestId := hiResRequestId s;
     hiResPending := hiResPending s; lastHiResRequestedAt := v;
     preferWebGPU := preferWebGPU s; specViewStart := specViewStart s;
     specViewDuration := specViewDuration s;
     spectrumCanvas := spectrumCanvas s; suspended := suspended s;
     installed := installed s |}.

Definition setPreferWebGPU (v : bool) (s : State) : State :=
  {| spectrogram := spectrogram s;
     spectrogramRequestId := spectrogramRequestId s;
     hiResSpec := hiResSpec s; hiResRequestId := hiResRequestId s;
     hiResPending := hiResPending s;
     lastHiResRequestedAt := lastHiResRequestedAt s; preferWebGPU := v;
     specViewStart := specViewStart s;
     specViewDuration := specViewDuration s;
     spectrumCanvas := spectrumCanvas s; suspended := suspended s;
     installed := installed s |}.

Definition setSpecViewStart (v : Q) (s : State) : State :=
  {| spectrogram := spectrogram s;
     spectrogramRequestId := spectrogramRequestId s;
     hiResSpec := hiResSpec s; hiResRequestId := hiResRequestId s;
     hiResPending := hiResPending s;
     lastHiResRequestedAt := lastHiResRequestedAt s;
     preferWebGPU := preferWebGPU s; specViewStart := v;
     specViewDuration := specViewDuration s;
     spectrumCanvas := spectrumCanvas s; suspended := suspended s;
     installed := installed s |}.

Definition setSpecViewDuration (v : Q) (s : State) : State :=
  {| spectrogram := spectrogram s;
     spectrogramRequestId := spectrogramRequestId s;
     hiResSpec := hiResSpec s; hiResRequestId := hiResRequestId s;
     hiResPending := hiResPending s;
     lastHiResRequestedAt := lastHiResRequestedAt s;
     preferWebGPU := preferWebGPU s; specViewStart := specViewStart s;
     specViewDuration := v; spectrumCanvas := spectrumCanvas s;
     suspended := suspended s; installed := installed s |}.

Definition setSpectrumCanvas (v : option Canvas) (s : State) : State :=
  {| spectrogram := spectrogram s;
     spectrogramRequestId := spectrogramRequestId s;
     hiResSpec := hiResSpec s; hiResRequestId := hiResRequestId s;
     hiResPending := hiResPending s;
     lastHiResRequestedAt := lastHiResRequestedAt s;
     preferWebGPU := preferWebGPU s; specViewStart := specViewStart s;
     specViewDuration := specViewDuration s; spectrumCanvas := v;
     suspended := suspended s; installed := installed s |}.

Definition setSuspended (v : list Task) (s : State) : State :=
  {| spectrogram := spectrogram s;
     spectrogramRequestId := spectrogramRequestId s;
     hiResSpec := hiResSpec s; hiResRequestId := hiResRequestId s;
     hiResPending := hiResPending s;
     lastHiResRequestedAt := lastHiResRequestedAt s;
     preferWebGPU := preferWebGPU s; specViewStart := specViewStart s;
     specViewDuration := specViewDuration s;
     spectrumCanvas := spectrumCanvas s; suspended := v;
     installed := installed s |}.

Definition setInstalled (v : list Install) (s : State) : State :=
  {| spectrogram := spectrogram s;
     spectrogramRequestId := spectrogramRequestId s;
     hiResSpec := hiResSpec s; hiResRequestId := hiResRequestId s;
     hiResPending := hiResPending s;
     lastHiResRequestedAt := lastHiResRequestedAt s;
     preferWebGPU := preferWebGPU s; specViewStart := specViewStart s;
     specViewDuration := specViewDuration s;
     spectrumCanvas := spectrumCanvas s; suspended := suspended s;
     installed := v |}.

(** What the page and the collaborating modules answer while one handler
    runs.  [env_container] is [spectrumContainer] with the width and the
    height of its bounding rectangle, [None] when the page has no element
    of that id ([Utils.el] then gave [null]). *)
Record Env := {
  env_device : bool;                  (* ensureWebGPU() yields a device *)
  env_webgpuSupported : bool;         (* isWebGPUSupported() *)
  env_specEnabled : bool;             (* !(chkEnableSpec && !chkEnableSpec.checked) *)
  env_audioBuffer : option AudioBuffer; (* AudioManager.getAudioBuffer() *)
  env_audioDuration : option Q;       (* audio.duration, when finite *)
  env_samplesPerPixel : Q;            (* currentSamplesPerPixel() *)
  env_now : Q;                        (* performance.now() *)
  env_specView : Q * Q;               (* getSpecView() *)
  env_has2dContext : bool;            (* getContext('2d') is not null *)
  env_container : option (Q * Q);     (* getBoundingClientRect() *)
  env_devicePixelRatio : Q
}.

(** [AudioManager.getSampleRate()]; [null] counts as 0 in arithmetic. *)
Definition getSampleRate (env : Env) : Z :=
  match env_audioBuffer env with
  | Some ab => ab_sampleRate ab
  | None => 0
  end.

(** [currentPixelsPerSecond()]: [null] when [!sr || !spp]. *)
Definition currentPixelsPerSecond (env : Env) : option Q :=
  let spp := env_samplesPerPixel env in
  let sr := getSampleRate env in
  if (sr =? 0) || Qeq_bool spp 0 then None
  else Some (inject_Z sr / spp)%Q.

(** *** The heat-map look-up table *)

Definition heatStops : list (Q * (Z * Z * Z)) :=
  [ (0.0%Q, (5, 8, 17)); (0.25%Q, (32, 54, 120)); (0.5%Q, (69, 137, 205));
    (0.7%Q, (255, 209, 102)); (0.85%Q, (255, 128, 96));
    (1.0%Q, (255, 255, 255)) ].

(** The inner [for (j ...)] of [buildHeatLut]: the first pair of adjacent
    stops that brackets [t], else the defaults. *)
Fixpoint findStops (t : Q) (stops : list (Q * (Z * Z * Z)))
         (dflt : (Q * (Z * Z * Z)) * (Q * (Z * Z * Z)))
  : (Q * (Z * Z * Z)) * (Q * (Z * Z * Z)) :=
  match stops with
  | a :: rest =>
      match rest with
      | b :: _ =>
          if Qle_bool (fst a) t && Qle_bool t (fst b) then (a, b)
          else findStops t rest dflt
      | [] => dflt
      end
  | [] => dflt
  end.

Definition heatColor (i : Z) : Z * Z * Z :=
  let t := (inject_Z i / 255)%Q in
  let first := (0.0%Q, (5, 8, 17)) in
  let last := (1.0%Q, (255, 255, 255)) in
  let ab := findStops t heatStops (first, last) in
  let a := fst ab in
  let b := snd ab in
  let localT := ((t - fst a) / Qmax 1e-6 (fst b - fst a))%Q in
  let mix := fun x y : Z =>
               roundQ (inject_Z x + inject_Z (y - x) * localT)%Q in
  let ca := snd a in
  let cb := snd b in
  (mix (fst (fst ca)) (fst (fst cb)),
   mix (snd (fst ca)) (snd (fst cb)),
   mix (snd ca) (snd cb)).

Definition buildHeatLut : list (Z * Z * Z) := map heatColor (zrange 256).
Definition HEAT_LUT : list (Z * Z * Z) := buildHeatLut.

(** *** Canvas operations *)

Definition blankPixels (w h : Z) : list Z := repeat 0 (Z.to_nat (4 * w * h)).

(** [window.devicePixelRatio || 1]. *)
Definition dprOf (env : Env) : Q :=
  if Qeq_bool (env_devicePixelRatio env) 0 then 1%Q
  else env_devicePixelRatio env.

(** [resizeSpectrumCanvas]: it returns at once when the container is
    missing; assigning a new width or height to a canvas resets its
    bitmap. *)
Definition resizeSpectrumCanvas (env : Env) (c : Canvas) : Canvas :=
  match env_container env with
  | None => c
  | Some (width, height) =>
      let dpr := dprOf env in
      let targetW := Z.max 1 (Qfloor (width * dpr)) in
      let targetH := Z.max 1 (Qfloor (height * dpr)) in
      if (cv_width c =? targetW) && (cv_height c =? targetH) then c
      else {| cv_width := targetW; cv_height := targetH;
              cv_pixels := blankPixels targetW targetH |}
  end.

(** [ctx.clearRect(0, 0, width, height)]. *)
Definition clearRect (c : Canvas) : Canvas :=
  {| cv_width := cv_width c; cv_height := cv_height c;
     cv_pixels := blankPixels (cv_width c) (cv_height c) |}.

Definition clearSpectrumCanvas (env : Env) (s : State) : State :=
  match spectrumCanvas s with
  | None => s
  | Some c =>
      let c1 := resizeSpectrumCanvas env c in
      if env_has2dContext env then setSpectrumCanvas (Some (clearRect c1)) s
      else setSpectrumCanvas (Some c1) s
  end.

(** *** The tile manager *)

Definition shouldUseHiRes (s : State) (env : Env) (ppsCss : Q) : bool :=
  match spectrogram s with
  | None => false
  | Some full =>
      if Qeq_bool ppsCss 0 then false
      else
        let zoomedIn := Qltb (env_samplesPerPixel env) baseSPP in
        if negb zoomedIn then false
        else
          let baseStepSec :=
            (inject_Z (hopSize full) / inject_Z (sampleRate full))%Q in
          Qltb ((1 / ppsCss) * 0.8)%Q baseStepSec
  end.

(** [undefined - x] is [NaN], and [NaN < eps] is false: a tile without
    [viewStart] or [viewDuration] never matches. *)
Definition hiResMatches (s : State) (viewStart viewDuration : Q) (hop : Z)
  : bool :=
  match hiResSpec s with
  | None => false
  | Some tile =>
      let eps := (1 / 60)%Q in
      match SpectrogramModule.viewStart tile,
            SpectrogramModule.viewDuration tile with
      | Some tileStart, Some tileDuration =>
          Qltb (Qabs (tileStart - viewStart)) eps &&
          Qltb (Qabs (tileDuration - viewDuration)) eps &&
          (hopSize tile =? hop)
      | _, _ => false
      end
  end.

(** [Math.max(32, Math.min(4096, Utils.floorPow2(sr / ppsCss)))]. *)
Definition hopTargetOf (env : Env) (ppsCss : Q) : Z :=
  Z.max 32 (Z.min 4096 (Utils.floorPow2 (inject_Z (getSampleRate env) / ppsCss))).

(** [buildHiResSpectrogram] up to its [await]. *)
Definition buildHiResSpectrogram (env : Env) (viewStart viewDuration ppsCss : Q)
           (s : State) : State :=
  if negb (env_specEnabled env) then s
  else
    match env_audioBuffer env with
    | None => s
    | Some audioBuffer =>
        if Qeq_bool ppsCss 0 || negb (Qltb 0 viewDuration) then s
        else if hiResPending s then s
        else
          let hopTarget := hopTargetOf env ppsCss in
          if hiResMatches s viewStart viewDuration hopTarget then s
          else
            let tok := hiResRequestId s + 1 in
            let run :=
              {| kind := HiRes; token := tok;
                 outcome := computeSpectrogram (env_device env) audioBuffer
                              viewStart viewDuration hopTarget 1024
                              (preferWebGPU s) |} in
            setSuspended (run :: suspended s)
              (setLastHiResRequestedAt (env_now env)
                 (setHiResPending true (setHiResRequestId tok s)))
    end.

(** [maybeRequestHiRes] up to the [await] inside [buildHiResSpectrogram]. *)
Definition maybeRequestHiRes (env : Env) (viewStart viewDuration ppsCss : Q)
           (s : State) : State :=
  if negb (shouldUseHiRes s env ppsCss) then s
  else
    match env_audioBuffer env with
    | None => s
    | Some _ =>
        let duration :=
          match env_audioDuration env with
          | Some d => d
          | None => match spectrogram s with
                    | Some full => totalDuration full
                    | None => 0%Q
                    end
          end in
        if negb (Qltb 0 duration) then s
        else
          let hopTarget := hopTargetOf env ppsCss in
          if hiResMatches s viewStart viewDuration hopTarget then s
          else if hiResPending s then s
          else if Qltb (env_now env - lastHiResRequestedAt s) 120 then s
          else
            let pad := Qmin (viewDuration * 0.25) (duration * 0.25) in
            let start := Utils.clampQ (viewStart - pad) 0
                           (Qmax 0 (duration - viewDuration)) in
            let dur := Qmin (viewDuration * 1.5) duration in
            buildHiResSpectrogram env start dur ppsCss s
    end.

(** *** drawSpectrogram *)

(** A handler either returns or throws; the state it leaves behind is
    kept in both cases. *)
Inductive Outcome :=
| Returned (s : State)
| Threw (s : State).

Definition stateOf (o : Outcome) : State :=
  match o with Returned s => s | Threw s => s end.

(** The spectrogram picked for painting:
    [useHiRes && hiResSpec ? hiResSpec : spectrogram]. *)
Definition specToDraw (s : State) (env : Env) (viewStart viewDuration ppsCss : Q)
  : option Spectrogram :=
  let useHiRes :=
    shouldUseHiRes s env ppsCss &&
    hiResMatches s viewStart viewDuration (hopTargetOf env ppsCss) in
  if useHiRes then
    match hiResSpec s with
    | Some tile => Some tile
    | None => spectrogram s
    end
  else spectrogram s.

(** [Math.min(255, Math.max(0, Math.floor(v * 255)))]. *)
Definition lutIndex (v : R) : Z := Z.min 255 (Z.max 0 (Zfloor (v * 255))).

(** The body of the inner [for (y ...)] loop.  [None] records a
    [TypeError]: reading [lut[0]] when [HEAT_LUT[...]] is [undefined]. *)
Definition paintPixel (spec : Spectrogram) (width frameBase : Z) (binScale : Q)
           (x : Z) (dest : option (list Z)) (y : Z) : option (list Z) :=
  match dest with
  | None => None
  | Some d =>
      let bin := bins spec - 1
                 - Z.min (bins spec - 1) (roundQ (inject_Z y * binScale)) in
      let v := getR (data spec) (frameBase + bin) in
      match nth_error HEAT_LUT (Z.to_nat (lutIndex v)) with
      | None => None
      | Some lut =>
          let p := (y * width + x) * 4 in
          Some (setZ (setZ (setZ (setZ d p (fst (fst lut)))
                                 (p + 1) (snd (fst lut)))
                           (p + 2) (snd lut))
                     (p + 3) 255)
      end
  end.

(** The body of the outer [for (x ...)] loop. *)
Definition paintColumn (spec : Spectrogram) (vs ppsDev : Q) (width height : Z)
           (binScale : Q) (dest : option (list Z)) (x : Z) : option (list Z) :=
  let timePerFrame := (inject_Z (hopSize spec) / inject_Z (sampleRate spec))%Q in
  let t := (vs + inject_Z x / ppsDev)%Q in
  let frameIdx :=
    Utils.clampZ (roundQ ((t - sliceStart spec) / timePerFrame)) 0
                 (frames spec - 1) in
  let frameBase := frameIdx * bins spec in
  fold_left (paintPixel spec width frameBase binScale x) (zrange height) dest.

(** [drawSpectrogram] from the destructuring of the picked [spec] on:
    the view window, the two loops and [putImageData].  [c] is the canvas
    after resizing and [s] the state reached so far. *)
Definition paintSpectrogram (env : Env) (spec : Spectrogram)
           (viewStart viewDuration ppsCss : Q) (c : Canvas) (s : State)
  : Outcome :=
  let dpr := dprOf env in
  let width := cv_width c in
  let height := cv_height c in
  let total := totalDuration spec in
  let vd0 := if Qltb 0 viewDuration then viewDuration else total in
  let vd := Qmin vd0 total in
  let vs := Utils.clampQ viewStart 0 (Qmax 0 (total - vd)) in
  let viewed := setSpecViewDuration vd (setSpecViewStart vs s) in
  let ppsDev := (ppsCss * dpr)%Q in
  let drawWidth := Z.min width (roundQ (vd * ppsDev)) in
  let binScale :=
    if bins spec >? 1
    then (inject_Z (bins spec - 1) / inject_Z (Z.max 1 (height - 1)))%Q
    else 0%Q in
  match fold_left (paintColumn spec vs ppsDev width height binScale)
                  (zrange drawWidth)
                  (Some (blankPixels width height)) with
  | None => Threw viewed
  | Some dest =>
      Returned
        (setSpectrumCanvas
           (Some {| cv_width := width; cv_height := height;
                    cv_pixels := dest |})
           viewed)
  end.

(** [spectrumContainer.getBoundingClientRect()] is not guarded: with the
    canvas and its context present and the container missing, the call
    throws a [TypeError] before [clearRect]. *)
Definition drawSpectrogram (env : Env) (viewStart viewDuration : Q) (s : State)
  : Outcome :=
  match spectrumCanvas s with
  | None => Returned s
  | Some c0 =>
      let c1 := resizeSpectrumCanvas env c0 in
      if negb (env_has2dContext env) then Returned (setSpectrumCanvas (Some c1) s)
      else
        match env_container env with
        | None => Threw (setSpectrumCanvas (Some c1) s)
        | Some _ =>
            let cleared := setSpectrumCanvas (Some (clearRect c1)) s in
            match spectrogram s with
            | None => Returned cleared
            | Some full =>
                if (frames full =? 0) || (bins full =? 0) then Returned cleared
                else
                  match currentPixelsPerSecond env with
                  | None => Returned cleared
                  | Some ppsCss =>
                      let requested :=
                        if shouldUseHiRes cleared env ppsCss
                        then maybeRequestHiRes env viewStart viewDuration
                                               ppsCss cleared
                        else cleared in
                      match specToDraw requested env viewStart viewDuration
                                       ppsCss with
                      | None => Threw requested
                      | Some spec =>
                          paintSpectrogram env spec viewStart viewDuration
                                           ppsCss c1 requested
                      end
                  end
            end
        end
  end.

(** *** Builder runs: start and resumption *)

(** [buildHiResSpectrogram] from its [await] on: the token check, the
    install, the repaint, and the [finally] block. *)
Definition resumeHiRes (env : Env) (t : Task) (s : State) : State :=
  let after :=
    match outcome t with
    | Throw _ => s
    | Ok spec =>
        if negb (token t =? hiResRequestId s) then s
        else
          let inst := {| inst_kind := HiRes; inst_token := token t;
                         inst_spec := Some spec |} in
          let s1 := setInstalled (inst :: installed s)
                      (setHiResSpec (Some spec) s) in
          stateOf (drawSpectrogram env (fst (env_specView env))
                                   (snd (env_specView env)) s1)
    end in
  setHiResPending false after.

(** [buildSpectrogram(audioBuffer)] up to its [await]. *)
Definition buildSpectrogram (env : Env) (audioBuffer : AudioBuffer) (s : State)
  : State :=
  let tok := spectrogramRequestId s + 1 in
  let s1 := setSpectrogramRequestId tok s in
  if negb (env_specEnabled env) then s1
  else
    let s2 := clearSpectrumCanvas env
                (setHiResSpec None (setSpectrogram None s1)) in
    let sr := ab_sampleRate audioBuffer in
    let run :=
      {| kind := FullTrack; token := tok;
         outcome := computeSpectrogram (env_device env) audioBuffer
                      0 (ab_duration audioBuffer)
                      (Z.max 256 (Qfloor (inject_Z sr * 0.02)))
                      1024 (preferWebGPU s) |} in
    setSuspended (run :: suspended s2) s2.

(** [buildSpectrogram] from its [await] on; a failed computation leaves
    [spec = null]. *)
Definition resumeFull (env : Env) (t : Task) (s : State) : State :=
  let spec := match outcome t with
              | Ok sp => Some sp
              | Throw _ => None
              end in
  if negb (token t =? spectrogramRequestId s) then s
  else
    let inst := {| inst_kind := FullTrack; inst_token := token t;
                   inst_spec := spec |} in
    let s1 := setInstalled (inst :: installed s) (setSpectrogram spec s) in
    stateOf (drawSpectrogram env (fst (env_specView env))
                             (snd (env_specView env)) s1).

Definition resume (env : Env) (t : Task) (s : State) : State :=
  match kind t with
  | FullTrack => resumeFull env t s
  | HiRes => resumeHiRes env t s
  end.

(** *** The other writers of the tokens and of the two spectrograms *)

Definition teardownSpectrum (env : Env) (s : State) : State :=
  clearSpectrumCanvas env
    (setSpectrogram None
       (setSpectrogramRequestId (spectrogramRequestId s + 1) s)).

(** [destroyAll], as far as the spectrogram state goes. *)
Definition destroyAll (env : Env) (s : State) : State :=
  teardownSpectrum env
    (setHiResRequestId (hiResRequestId s + 1) (setHiResSpec None s)).

(** The [change] listener of the WebGPU checkbox. *)
Definition onWebGPUChange (env : Env) (checked : bool) (s : State) : State :=
  let s1 := setPreferWebGPU (checked && env_webgpuSupported env) s in
  let s2 := setHiResRequestId (hiResRequestId s1 + 1) (setHiResSpec None s1) in
  let s3 := setSpectrogramRequestId (spectrogramRequestId s2 + 1) s2 in
  match env_audioBuffer env with
  | Some audioBuffer => buildSpectrogram env audioBuffer s3
  | None => s3
  end.

(** The [change] listener of the enable-spectrogram checkbox; [gpuChecked]
    is the state the WebGPU checkbox is restored to. *)
Definition onEnableSpecChange (env : Env) (gpuChecked : bool) (s : State)
  : State :=
  if negb (env_specEnabled env) then teardownSpectrum env s
  else
    let s1 := setPreferWebGPU gpuChecked s in
    match env_audioBuffer env with
    | Some audioBuffer => buildSpectrogram env audioBuffer s1
    | None => s1
    end.

(** *** Executions *)

Inductive Event :=
| EvDraw (viewStart viewDuration : Q)
| EvLoad (audioBuffer : AudioBuffer)        (* initWithFile: buildSpectrogram *)
| EvTeardown
| EvDestroyAll
| EvWebGPUChange (checked : bool)
| EvEnableSpecChange (gpuChecked : bool)
| EvResume (n : nat).                       (* the n-th suspended run resumes *)

Fixpoint removeNth {A} (n : nat) (l : list A) : list A :=
  match l, n with
  | [], _ => []
  | _ :: t, O => t
  | h :: t, S k => h :: removeNth k t
  end.

Definition handle (env : Env) (ev : Event) (s : State) : State :=
  match ev with
  | EvDraw vs vd => stateOf (drawSpectrogram env vs vd s)
  | EvLoad ab => buildSpectrogram env ab s
  | EvTeardown => teardownSpectrum env s
  | EvDestroyAll => destroyAll env s
  | EvWebGPUChange b => onWebGPUChange env b s
  | EvEnableSpecChange b => onEnableSpecChange env b s
  | EvResume n =>
      match nth_error (suspended s) n with
      | None => s
      | Some t => resume env t (setSuspended (removeNth n (suspended s)) s)
      end
  end.

Definition run (trace : list (Env * Event)) (s : State) : State :=
  fold_left (fun st step => handle (fst step) (snd step) st) trace s.

(** The state when the script has just loaded. *)
Definition initial (supported : bool) (canvas : option Canvas) : State :=
  {| spectrogram := None; spectrogramRequestId := 0;
     hiResSpec := None; hiResRequestId := 0; hiResPending := false;
     lastHiResRequestedAt := 0; preferWebGPU := supported;
     specViewStart := 0; specViewDuration := 0;
     spectrumCanvas := canvas; suspended := []; installed := [] |}.

(** Tokens of the installs of one kind, newest first. *)
Definition installedTokens (k : Kind) (s : State) : list Z :=
  map inst_token
      (filter (fun i => match inst_kind i, k with
                        | FullTrack, FullTrack | HiRes, HiRes => true
                        | _, _ => false
                        end)
              (installed s)).

End App.

(** ** utils.js: input sanitisation

    A JavaScript string is the list of its UTF-16 code units. *)
Module Sanitize.

Definition JsString := list Z.

(** The code units that [String.prototype.trim] strips: WhiteSpace and
    LineTerminator of the language specification. *)
Definition whiteSpace : list Z :=
  [9; 10; 11; 12; 13; 32; 160; 5760;
   8192; 8193; 8194; 8195; 8196; 8197; 8198; 8199; 8200; 8201; 8202;
   8232; 8233; 8239; 8287; 12288; 65279].

Definition isWhiteSpace (c : Z) : bool := existsb (Z.eqb c) whiteSpace.

Fixpoint trimStart (s : JsString) : JsString :=
  match s with
  | c :: rest => if isWhiteSpace c then trimStart rest else s
  | [] => []
  end.

Definition trim (s : JsString) : JsString :=
  List.rev (trimStart (List.rev (trimStart s))).

(** The class of the first [replace]: the code units of [<], [>], the
    apostrophe, the double quote and [&]. *)
Definition dangerous : list Z := [60; 62; 39; 34; 38].
Definition isDangerous (c : Z) : bool := existsb (Z.eqb c) dangerous.
Definition stripDangerous (s : JsString) : JsString :=
  filter (fun c => negb (isDangerous c)) s.

(** [/javascript:/gi]: without the [u] flag only the ASCII letters fold
    onto the letters of the pattern. *)
Definition scheme : JsString :=
  [106; 97; 118; 97; 115; 99; 114; 105; 112; 116; 58].

Definition lower (c : Z) : Z :=
  if (65 <=? c) && (c <=? 90) then c + 32 else c.

Fixpoint startsWithCI (pat s : JsString) : bool :=
  match pat, s with
  | [], _ => true
  | p :: pat', c :: s' => (lower c =? p) && startsWithCI pat' s'
  | _ :: _, [] => false
  end.

(** The global replace scans from the left; after a match it resumes
    behind the matched text.  [skip] counts the code units of the current
    match still to be dropped. *)
Fixpoint stripScheme (skip : nat) (s : JsString) : JsString :=
  match s with
  | [] => []
  | c :: rest =>
      match skip with
      | S k => stripScheme k rest
      | O => if startsWithCI scheme s
             then stripScheme (length scheme - 1) rest
             else c :: stripScheme 0 rest
      end
  end.

(** [if (!input) return '']: the empty string goes through the same
    pipeline to the empty string. *)
Definition sanitizeLabelName (input : JsString) : JsString :=
  firstn 100 (stripScheme 0 (stripDangerous (trim input))).

Definition sanitizeComment (input : JsString) : JsString :=
  firstn 500 (stripScheme 0 (stripDangerous (trim input))).

End Sanitize.

(** ** history-manager.js

    [undoStack] and [redoStack] in array order: [push] appends, [pop]
    takes the last element, [shift] drops the first.  The snapshots are
    deep copies ([JSON.parse(JSON.stringify(...))]); on immutable values
    the copy is the value itself. *)
Module HistoryManager.

Record History (A : Type) := {
  undoStack : list A;
  redoStack : list A
}.
Arguments undoStack {A} _.
Arguments redoStack {A} _.

Definition MAX_HISTORY_SIZE : nat := 100.

Definition empty {A} : History A := {| undoStack := []; redoStack := [] |}.

Definition pushState {A} (keyframesSnapshot : A) (h : History A) : History A :=
  let pushed := undoStack h ++ [keyframesSnapshot] in
  {| undoStack := if (MAX_HISTORY_SIZE <? length pushed)%nat
                  then tl pushed else pushed;
     redoStack := [] |}.

Definition canUndo {A} (h : History A) : bool :=
  (0 <? length (undoStack h))%nat.

Definition canRedo {A} (h : History A) : bool :=
  (0 <? length (redoStack h))%nat.

(** [Array.prototype.pop]: the last element and the rest. *)
Definition pop {A} (l : list A) : option A * list A :=
  match List.rev l with
  | [] => (None, [])
  | x :: rest => (Some x, List.rev rest)
  end.

Definition undo {A} (currentState : A) (h : History A)
  : option A * History A :=
  if negb (canUndo h) then (None, h)
  else
    let redo' := redoStack h ++ [currentState] in
    let (previousState, undo') := pop (undoStack h) in
    (previousState, {| undoStack := undo'; redoStack := redo' |}).

Definition redo {A} (currentState : A) (h : History A)
  : option A * History A :=
  if negb (canRedo h) then (None, h)
  else
    let undo' := undoStack h ++ [currentState] in
    let (nextState, redo') := pop (redoStack h) in
    (nextState, {| undoStack := undo'; redoStack := redo' |}).

Definition clearHistory {A} (h : History A) : History A := empty.

End HistoryManager.

(** ** keyframe-manager.js

    A keyframe's [id] is the string [kf-] followed by its [seq]; the model
    keeps [seq] and compares ids by comparing the numbers.  [seq] and
    [kfSeq] are rationals and [kfSeq + 1] is exact.  The script's doubles
    agree with that on the whole numbers up to [2^53] (beyond, [+ 1] is
    rounded away); the statements about ids are restricted to that
    range. *)
Module KeyframeManager.
Import Sanitize.

Record Keyframe := {
  seq : Q;
  time : Q;
  label : JsString;
  comment : JsString;
  pointId : option JsString
}.

Record State := {
  keyframes : list Keyframe;
  allLabels : list JsString;
  kfSeq : Q;
  lastEditedLabel : JsString;
  skipHistory : bool;
  history : HistoryManager.History (list Keyframe)
}.

Definition initial : State :=
  {| keyframes := []; allLabels := []; kfSeq := 1; lastEditedLabel := [];
     skipHistory := false; history := HistoryManager.empty |}.

Definition isEmpty (s : JsString) : bool :=
  match s with [] => true | _ => false end.

(** String comparison by code units, as the default [sort] does. *)
Fixpoint strLeb (a b : JsString) : bool :=
  match a, b with
  | [], _ => true
  | _ :: _, [] => false
  | x :: a', y :: b' => (x <? y) || ((x =? y) && strLeb a' b')
  end.

Fixpoint strEqb (a b : JsString) : bool :=
  match a, b with
  | [], [] => true
  | x :: a', y :: b' => (x =? y) && strEqb a' b'
  | _, _ => false
  end.

Fixpoint insertSorted (x : JsString) (l : list JsString) : list JsString :=
  match l with
  | [] => [x]
  | y :: rest => if strLeb x y then x :: l else y :: insertSorted x rest
  end.

(** [labelSet.add(kf.label)] for every non-empty label, then
    [Array.from(labelSet).sort()]. *)
Definition addToSet (set : list JsString) (x : JsString) : list JsString :=
  if existsb (strEqb x) set then set else set ++ [x].

Definition labelsOf (kfs : list Keyframe) : list JsString :=
  let labelSet :=
    fold_left (fun set kf => if isEmpty (label kf) then set
                             else addToSet set (label kf))
              kfs [] in
  fold_right insertSorted [] labelSet.

Definition setKeyframes (v : list Keyframe) (s : State) : State :=
  {| keyframes := v; allLabels := allLabels s; kfSeq := kfSeq s;
     lastEditedLabel := lastEditedLabel s; skipHistory := skipHistory s;
     history := history s |}.
Definition setAllLabels (v : list JsString) (s : State) : State :=
  {| keyframes := keyframes s; allLabels := v; kfSeq := kfSeq s;
     lastEditedLabel := lastEditedLabel s; skipHistory := skipHistory s;
     history := history s |}.
Definition setKfSeq (v : Q) (s : State) : State :=
  {| keyframes := keyframes s; allLabels := allLabels s; kfSeq := v;
     lastEditedLabel := lastEditedLabel s; skipHistory := skipHistory s;
     history := history s |}.
Definition setLastEditedLabel (v : JsString) (s : State) : State :=
  {| keyframes := keyframes s; allLabels := allLabels s; kfSeq := kfSeq s;
     lastEditedLabel := v; skipHistory := skipHistory s;
     history := history s |}.
Definition setSkipHistory (v : bool) (s : State) : State :=
  {| keyframes := keyframes s; allLabels := allLabels s; kfSeq := kfSeq s;
     lastEditedLabel := lastEditedLabel s; skipHistory := v;
     history := history s |}.
Definition setHistory (v : HistoryManager.History (list Keyframe)) (s : State)
  : State :=
  {| keyframes := keyframes s; allLabels := allLabels s; kfSeq := kfSeq s;
     lastEditedLabel := lastEditedLabel s; skipHistory := skipHistory s;
     history := v |}.

Definition updateAllLabels (s : State) : State :=
  setAllLabels (labelsOf (keyframes s)) s.

(** The last non-empty label, scanning from the end. *)
Definition updateLastEditedLabelFromKeyframes (s : State) : State :=
  setLastEditedLabel
    (match filter (fun l => negb (isEmpty l))
                  (List.rev (map label (keyframes s))) with
     | lbl :: _ => lbl
     | [] => []
     end) s.

Definition saveToHistory (s : State) : State :=
  if skipHistory s then s
  else setHistory (HistoryManager.pushState (keyframes s) (history s)) s.

(** [id = `kf-${kfSeq++}`] and [seq = kfSeq - 1]: while [kfSeq] is a
    whole number below [2^53] both steps are exact, and [seq] is the
    number in the id. *)
Definition addKeyframe (time : Q) (label comment : JsString)
           (pointId : option JsString) (s : State) : Keyframe * State :=
  let s1 := saveToHistory s in
  let seq := kfSeq s1 in
  let s2 := setKfSeq (kfSeq s1 + 1)%Q s1 in
  let sanitizedLabel := sanitizeLabelName label in
  let sanitizedComment := sanitizeComment comment in
  let kf := {| seq := seq; time := time; label := sanitizedLabel;
               comment := sanitizedComment; pointId := pointId |} in
  let s3 := setKeyframes (keyframes s2 ++ [kf]) s2 in
  let s4 := if isEmpty sanitizedLabel then s3
            else setLastEditedLabel sanitizedLabel s3 in
  (kf, updateAllLabels s4).

Definition hasId (id : Q) (k : Keyframe) : bool := Qeq_bool (seq k) id.

(** [keyframes.splice(index, 1)] at the first keyframe with the id. *)
Fixpoint removeFirst (id : Q) (kfs : list Keyframe)
  : option Keyframe * list Keyframe :=
  match kfs with
  | [] => (None, [])
  | k :: rest =>
      if hasId id k then (Some k, rest)
      else let (removed, rest') := removeFirst id rest in
           (removed, k :: rest')
  end.

Definition removeKeyframe (id : Q) (s : State) : option Keyframe * State :=
  if negb (existsb (hasId id) (keyframes s)) then (None, s)
  else
    let s1 := saveToHistory s in
    let (removed, rest) := removeFirst id (keyframes s1) in
    (removed, updateAllLabels (setKeyframes rest s1)).

(** The [updates] object: [None] is a property that is [undefined]. *)
Record Updates := {
  u_time : option Q;
  u_label : option JsString;
  u_comment : option JsString;
  u_pointId : option (option JsString)
}.

Definition applyUpdates (u : Updates) (kf : Keyframe) : Keyframe :=
  {| seq := seq kf;
     time := match u_time u with Some t => t | None => time kf end;
     label := match u_label u with
              | Some l => sanitizeLabelName l
              | None => label kf
              end;
     comment := match u_comment u with
                | Some c => sanitizeComment c
                | None => comment kf
                end;
     pointId := match u_pointId u with
                | Some p => p
                | None => pointId kf
                end |}.

(** The assignments to the first keyframe with the id, in place. *)
Fixpoint updateFirst (id : Q) (u : Updates) (kfs : list Keyframe)
  : list Keyframe :=
  match kfs with
  | [] => []
  | k :: rest =>
      if hasId id k then applyUpdates u k :: rest
      else k :: updateFirst id u rest
  end.

Definition updateKeyframe (id : Q) (updates : Updates) (saveHistory : bool)
           (s : State) : State :=
  if negb (existsb (hasId id) (keyframes s)) then s
  else
    let s1 := if saveHistory then saveToHistory s else s in
    let s2 := setKeyframes (updateFirst id updates (keyframes s1)) s1 in
    let s3 := match u_label updates with
              | Some l => if isEmpty (sanitizeLabelName l) then s2
                          else setLastEditedLabel (sanitizeLabelName l) s2
              | None => s2
              end in
    updateAllLabels s3.

Definition clearKeyframes (s : State) : State :=
  setHistory (HistoryManager.clearHistory (history s))
    (setLastEditedLabel [] (setAllLabels [] (setKeyframes [] s))).

(** A property of an entry that the script reads through [Number(...)]:
    it is missing ([Number(undefined)] is [NaN]), it is [null]
    ([Number(null)] is 0), it is a value that [Number] turns into a finite
    number (a number, a numeric string, a boolean), or it is anything else
    ([Number] gives [NaN] or an infinity). *)
Inductive RawNumber :=
| Missing
| IsNull
| Finite (q : Q)
| NotFinite.

(** [Number(v)] when [Number.isFinite] holds of it. *)
Definition numberOf (v : RawNumber) : option Q :=
  match v with
  | IsNull => Some 0%Q
  | Finite q => Some q
  | Missing | NotFinite => None
  end.

(** The data handed to [importKeyframes], after [JSON.parse]: something
    that is no object, an object without a [keyframes] array, or the
    array (given directly or as [root.keyframes]).  An entry is either no
    object or an object; its [time] and [id] are read through
    [Number(...)], its [label] and [comment] through
    [x != null ? String(x) : ''], where [None] is [null] or [undefined]. *)
Record RawKeyframe := {
  raw_time : RawNumber;
  raw_label : option JsString;
  raw_comment : option JsString;
  raw_id : RawNumber
}.

Inductive RawEntry :=
| NotAnObject
| Entry (raw : RawKeyframe).

Inductive RawData :=
| NoObject
| NoKeyframesArray
| KeyframesArray (entries : list RawEntry).

Inductive ImportError :=
| ExpectedObjectOrArray
| KeyframesArrayMissing
| TooManyKeyframes
| EntryNotObject (i : Z)
| TimeNotValid (i : Z)
| TimeTooLong (i : Z).

(** The loop of [validateKeyframesData] from index [i] on. *)
Fixpoint validateEntries (i : Z) (entries : list RawEntry)
  : option ImportError :=
  match entries with
  | [] => None
  | NotAnObject :: _ => Some (EntryNotObject i)
  | Entry raw :: rest =>
      match numberOf (raw_time raw) with
      | None => Some (TimeNotValid i)
      | Some t =>
          if Qltb t 0 then Some (TimeNotValid i)
          else if Qltb 86400 t then Some (TimeTooLong i)
          else validateEntries (i + 1) rest
      end
  end.

(** [validateKeyframesData] of utils.js: [None] when it returns. *)
Definition validateKeyframesData (data : RawData) : option ImportError :=
  match data with
  | NoObject => Some ExpectedObjectOrArray
  | NoKeyframesArray => Some KeyframesArrayMissing
  | KeyframesArray entries =>
      if 10000 <? Z.of_nat (length entries) then Some TooManyKeyframes
      else validateEntries 0 entries
  end.

Definition orEmpty (s : option JsString) : JsString :=
  match s with Some x => x | None => [] end.

(** One round of the loop of [importKeyframes]:
    [if (!Number.isFinite(seq) || seq <= 0) seq = i + 1].  The time is
    finite here, [validateKeyframesData] has returned. *)
Definition parseEntry (i : Z) (raw : RawKeyframe) : Keyframe :=
  let seq := match numberOf (raw_id raw) with
             | Some q => if Qle_bool q 0 then inject_Z (i + 1) else q
             | None => inject_Z (i + 1)
             end in
  {| seq := seq;
     time := match numberOf (raw_time raw) with Some t => t | None => 0%Q end;
     label := sanitizeLabelName (orEmpty (raw_label raw));
     comment := sanitizeComment (orEmpty (raw_comment raw));
     pointId := None |}.

Fixpoint parseEntries (i : Z) (entries : list RawEntry) : list Keyframe :=
  match entries with
  | [] => []
  | Entry raw :: rest => parseEntry i raw :: parseEntries (i + 1) rest
  | NotAnObject :: rest => parseEntries (i + 1) rest
  end.

Definition maxSeqOf (kfs : list Keyframe) : Q :=
  fold_left (fun maxSeq kf => Qmax maxSeq (seq kf)) kfs 0%Q.

(** [kfSeq = maxSeq + 1] is exact while [maxSeq] is a whole number below
    [2^53]. *)
Definition importKeyframes (data : RawData) (clearHistoryOnImport : bool)
           (s : State) : State + ImportError :=
  match validateKeyframesData data with
  | Some e => inr e
  | None =>
      let s1 := if clearHistoryOnImport then s else saveToHistory s in
      let entries := match data with
                     | KeyframesArray entries => entries
                     | _ => []
                     end in
      let parsed := parseEntries 0 entries in
      let s2 := setKfSeq (maxSeqOf parsed + 1)%Q (setKeyframes parsed s1) in
      inl (updateAllLabels (updateLastEditedLabelFromKeyframes s2))
  end.

(** [restoreKeyframesFromState]: [if (kf.seq > maxSeq) maxSeq = kf.seq],
    then [kfSeq = maxSeq + 1], exact under the same bound. *)
Definition restoreKeyframesFromState (state : list Keyframe) (s : State)
  : State :=
  let maxSeq :=
    fold_left (fun maxSeq kf => if Qltb maxSeq (seq kf) then seq kf
                                else maxSeq)
              state 0%Q in
  updateAllLabels
    (updateLastEditedLabelFromKeyframes
       (setKfSeq (maxSeq + 1)%Q (setKeyframes state s))).

Definition performUndo (s : State) : bool * State :=
  let (previousState, h) := HistoryManager.undo (keyframes s) (history s) in
  let s1 := setHistory h s in
  match previousState with
  | None => (false, s1)
  | Some state =>
      (true,
       setSkipHistory false
         (restoreKeyframesFromState state (setSkipHistory true s1)))
  end.

Definition performRedo (s : State) : bool * State :=
  let (nextState, h) := HistoryManager.redo (keyframes s) (history s) in
  let s1 := setHistory h s in
  match nextState with
  | None => (false, s1)
  | Some state =>
      (true,
       setSkipHistory false
         (restoreKeyframesFromState state (setSkipHistory true s1)))
  end.

(** The calls the application makes, and a session as a list of them. *)
Inductive Call :=
| CallAdd (time : Q) (label comment : JsString) (pointId : option JsString)
| CallRemove (id : Q)
| CallUpdate (id : Q) (updates : Updates) (saveHistory : bool)
| CallClear
| CallImport (data : RawData) (clearHistoryOnImport : bool)
| CallUndo
| CallRedo.

Definition call (c : Call) (s : State) : State :=
  match c with
  | CallAdd t l cm p => snd (addKeyframe t l cm p s)
  | CallRemove id => snd (removeKeyframe id s)
  | CallUpdate id u b => updateKeyframe id u b s
  | CallClear => clearKeyframes s
  | CallImport d b => match importKeyframes d b s with
                      | inl s' => s'
                      | inr _ => s
                      end
  | CallUndo => snd (performUndo s)
  | CallRedo => snd (performRedo s)
  end.

Definition session (calls : list Call) (s : State) : State :=
  fold_left (fun st c => call c st) calls s.

End KeyframeManager.

(** ** The zoom levels ([createZoomConfig] and [currentSamplesPerPixel]) *)
Module ZoomConfig.

(** [factorToSamplesPerPixel(factor) = baseSPP / factor]. *)
Definition factorToSamplesPerPixel (baseSPP factor : R) : R :=
  (baseSPP / factor)%R.

(** [findClosestZoomIndex]: [bestDiff] starts at [Infinity] ([None]) and
    an entry replaces the best one only when it is strictly closer. *)
Definition findClosestZoomIndex (samplesPerPixel : R) (zoomLevels : list Z)
  : Z :=
  fst (fold_left
         (fun best i =>
            let diff :=
              Rabs (IZR (nth (Z.to_nat i) zoomLevels 0) - samplesPerPixel) in
            match snd best with
            | None => (i, Some diff)
            | Some bestDiff =>
                if Rlt_dec diff bestDiff then (i, Some diff) else best
            end)
         (zrange (Z.of_nat (length zoomLevels)))
         (0, None)).

(** [currentSamplesPerPixel()]: [zoomLevels[idx] ?? target]; [raw] is
    [Number(elZoom.value) || 0]. *)
Definition currentSamplesPerPixel (raw : R) (zoomLevels : list Z) : R :=
  let factor := App.currentSliderFactor raw UIControls.zoomMap in
  let target := factorToSamplesPerPixel 2048 factor in
  let idx := findClosestZoomIndex target zoomLevels in
  match nth_error zoomLevels (Z.to_nat idx) with
  | Some level => IZR level
  | None => target
  end.

End ZoomConfig.

Import SpectrogramModule.
Import App.

(** ** Sample inputs and predicates used in the statements *)

(** A four-sample mono clip used to exhibit successful runs. *)
Definition clip4 : AudioBuffer :=
  {| ab_sampleRate := 4; ab_length := 4;
     ab_channels := [[1%R; 0%R; 0%R; 0%R]] |}.

(** A clip of 512 zero samples at 48 kHz. *)
Definition clip512 : AudioBuffer :=
  {| ab_sampleRate := 48000; ab_length := 512;
     ab_channels := [repeat 0%R 512] |}.

(** Two seconds of mono silence at 48 kHz. *)
Definition silence2s : AudioBuffer :=
  {| ab_sampleRate := 48000; ab_length := 96000;
     ab_channels := [repeat 0%R (Z.to_nat 96000)] |}.

Definition allZero (a : list R) : Prop := Forall (fun x => x = 0%R) a.

Definition bothZero (st : list R * list R) : Prop :=
  allZero (fst st) /\ allZero (snd st).

(** A 2x2 canvas with something painted on it. *)
Definition canvas2x2 : Canvas :=
  {| cv_width := 2; cv_height := 2; cv_pixels := repeat 7 16 |}.

(** A page with no audio loaded yet, at the base zoom. *)
Definition idleEnv : Env :=
  {| env_device := false; env_webgpuSupported := false;
     env_specEnabled := true; env_audioBuffer := None;
     env_audioDuration := None; env_samplesPerPixel := 2048;
     env_now := 0; env_specView := (0, 0)%Q; env_has2dContext := true;
     env_container := Some (2, 2)%Q;
     env_devicePixelRatio := 1 |}.

(** A tile as the WebGPU builder labels it: window [0.5 s, 1.5 s), hop 256. *)
Definition gpuTile : Spectrogram :=
  {| data := [0.5%R; 0.25%R]; frames := 1; bins := 2; hopSize := 256;
     sampleRate := 48000; duration := 2; totalDuration := 2;
     sliceStart := 0.5; sliceDuration := 1;
     viewStart := Some 0.5%Q; viewDuration := Some 1%Q |}.

(** A finished hi-res run holding the token 5, and a state in which the
    token 6 has been issued since. *)
Definition finishedRun5 : Task :=
  {| kind := HiRes; token := 5; outcome := Ok gpuTile |}.

(** A full-track spectrogram of two seconds at 48 kHz, hop 960. *)
Definition fullTrack : Spectrogram :=
  {| data := [0.5%R; 0.25%R]; frames := 1; bins := 2; hopSize := 960;
     sampleRate := 48000; duration := 2; totalDuration := 2;
     sliceStart := 0; sliceDuration := 2;
     viewStart := None; viewDuration := None |}.

(** The page zoomed in to 256 samples per pixel on [silence2s]. *)
Definition zoomedEnv : Env :=
  {| env_device := true; env_webgpuSupported := true;
     env_specEnabled := true; env_audioBuffer := Some silence2s;
     env_audioDuration := Some 2%Q; env_samplesPerPixel := 256;
     env_now := 1000; env_specView := (0.5, 1)%Q; env_has2dContext := true;
     env_container := Some (2, 2)%Q;
     env_devicePixelRatio := 1 |}.

(** The state in which [fullTrack] is active and [gpuTile] is cached. *)
Definition tiledState : State :=
  setHiResSpec (Some gpuTile)
    (setSpectrogram (Some fullTrack) (initial true (Some canvas2x2))).

Definition supersededState : State :=
  setHiResRequestId 6 (initial false (Some canvas2x2)).

(** The worst-case ratio of the round trip: half a slider step on the upper
    branch, [256^(1/200)]. *)
Definition halfStepRatio : R := Rpower 256 (/ 200).

(** What a handler may do to the tokens and to the two spectrograms when
    it installs nothing: the counters do not decrease, the history is
    untouched. *)
Record quiet (s s' : State) : Prop := {
  quiet_full_id : spectrogramRequestId s <= spectrogramRequestId s';
  quiet_hi_id : hiResRequestId s <= hiResRequestId s';
  quiet_installed : installed s' = installed s
}.

(** A handler that also leaves both spectrograms alone. *)
Definition keeps (s s' : State) : Prop :=
  quiet s s' /\ spectrogram s' = spectrogram s /\ hiResSpec s' = hiResSpec s.

(** The latest token issued for runs of one kind. *)
Definition latestToken (k : Kind) (s : State) : Z :=
  match k with
  | FullTrack => spectrogramRequestId s
  | HiRes => hiResRequestId s
  end.

(** A resumption either installs nothing, or installs the finished run
    under the latest token of its kind and then installs nothing more. *)
Definition gated (s s' : State) : Prop :=
  quiet s s' \/
  exists inst mid,
    installed mid = inst :: installed s /\
    spectrogramRequestId mid = spectrogramRequestId s /\
    hiResRequestId mid = hiResRequestId s /\
    inst_token inst = latestToken (inst_kind inst) s /\
    quiet mid s'.

(** Every recorded install carries a token no greater than the latest one
    of its kind, and the tokens of each kind never increase towards the
    past. *)
Definition tokensBounded (s : State) : Prop :=
  forall k, Forall (fun tok => tok <= latestToken k s) (installedTokens k s).

Definition installsOrdered (s : State) : Prop :=
  forall k, StronglySorted Z.ge (installedTokens k s).


(** The unit impulse of length [n], and the state of the transform in
    which the first [m] real slots hold 1, every other real slot 0 and the
    imaginary part is 0 throughout. *)
Definition unitImpulse (n : Z) : list R :=
  map (fun i => if i =? 0 then 1%R else 0%R) (zrange n).

Definition lit (m : Z) (st : list R * list R) : Prop :=
  forall k, 0 <= k ->
            getR (fst st) k = (if k <? m then 1 else 0)%R /\
            getR (snd st) k = 0%R.

Definition sized (n : Z) (st : list R * list R) : Prop :=
  Z.of_nat (length (fst st)) = n /\ Z.of_nat (length (snd st)) = n.

(** [nearestPow2(n)] of utils.js: [p = 1; while (p < n) p <<= 1].  The
    shift is a 32-bit one; 30 iterations reach [2^30], which ends the loop
    for every [n <= 2^30] (beyond that the source's [p] wraps around). *)
Fixpoint nearestPow2_loop (fuel : nat) (p : Z) (n : Q) : Z :=
  match fuel with
  | O => p
  | S k => if Qltb (inject_Z p) n
           then nearestPow2_loop k (Z.shiftl p 1) n else p
  end.
Definition nearestPow2 (n : Q) : Z := nearestPow2_loop 30 1 n.

(** The tokens of the builder runs of one kind that are suspended at
    their [await], newest first. *)
Definition kindEqb (a b : Kind) : bool :=
  match a, b with
  | FullTrack, FullTrack | HiRes, HiRes => true
  | _, _ => false
  end.

Definition tokensInFlight (k : Kind) (s : State) : list Z :=
  map token (filter (fun t => kindEqb (kind t) k) (suspended s)).

(** The tokens in flight of each kind decrease strictly towards the past
    and none exceeds the counter it was drawn from. *)
Definition tokensInFlightOrdered (s : State) : Prop :=
  forall k, StronglySorted Z.gt (tokensInFlight k s) /\
            Forall (fun tok => tok <= latestToken k s) (tokensInFlight k s).

(** [hiResPending] is set exactly while one hi-res run is suspended. *)
Definition pendingTracksRun (s : State) : Prop :=
  length (tokensInFlight HiRes s) = if hiResPending s then 1%nat else 0%nat.

(** What the synchronous part of a handler may do to the counters, to the
    suspended runs and to [hiResPending]: nothing but raise the counters,
    or start a full-track run under a fresh token, or start a hi-res run
    under a fresh token while none is pending. *)
Inductive grows : State -> State -> Prop :=
| grows_calm s s' :
    spectrogramRequestId s <= spectrogramRequestId s' ->
    hiResRequestId s <= hiResRequestId s' ->
    suspended s' = suspended s ->
    hiResPending s' = hiResPending s ->
    grows s s'
| grows_full s s' t :
    kind t = FullTrack ->
    token t = spectrogramRequestId s' ->
    spectrogramRequestId s < token t ->
    hiResRequestId s <= hiResRequestId s' ->
    suspended s' = t :: suspended s ->
    hiResPending s' = hiResPending s ->
    grows s s'
| grows_hi s s' t :
    kind t = HiRes ->
    token t = hiResRequestId s' ->
    hiResRequestId s < token t ->
    spectrogramRequestId s <= spectrogramRequestId s' ->
    suspended s' = t :: suspended s ->
    hiResPending s = false ->
    hiResPending s' = true ->
    grows s s'
| grows_trans s1 s2 s3 : grows s1 s2 -> grows s2 s3 -> grows s1 s3.

(** [a] is obtained from [b] by deleting elements. *)
Inductive Subseq {A : Type} : list A -> list A -> Prop :=
| Subseq_nil : Subseq [] []
| Subseq_skip x a b : Subseq a b -> Subseq a (x :: b)
| Subseq_keep x a b : Subseq a b -> Subseq (x :: a) (x :: b).

(** The label [Intro]. *)
Definition introLabel : Sanitize.JsString := [73; 110; 116; 114; 111].

(** What every call of the keyframe manager keeps true: the two history
    stacks together hold at most [MAX_HISTORY_SIZE] snapshots, every
    keyframe's [seq] is below [kfSeq], the history is being recorded, and
    [allLabels] is the label list of the current keyframes. *)
Definition historyBounded (s : KeyframeManager.State) : Prop :=
  (length (HistoryManager.undoStack (KeyframeManager.history s))
   + length (HistoryManager.redoStack (KeyframeManager.history s))
   <= HistoryManager.MAX_HISTORY_SIZE)%nat.

Definition idsFresh (s : KeyframeManager.State) : Prop :=
  (0 < KeyframeManager.kfSeq s)%Q /\
  Forall (fun kf => (KeyframeManager.seq kf < KeyframeManager.kfSeq s)%Q)
         (KeyframeManager.keyframes s).

Definition settled (s : KeyframeManager.State) : Prop :=
  KeyframeManager.skipHistory s = false /\
  KeyframeManager.allLabels s
  = KeyframeManager.labelsOf (KeyframeManager.keyframes s).

Definition managed (s : KeyframeManager.State) : Prop :=
  historyBounded s /\ idsFresh s /\ settled s.

(** The state after one keyframe was added at 1.5 s. *)
Definition afterOneAdd : KeyframeManager.State :=
  snd (KeyframeManager.addKeyframe 1.5 introLabel [] None
         KeyframeManager.initial).

(** A positive whole number up to [bound].  On the whole numbers up to
    [2^53] the script's doubles are exact: [kfSeq++], [kfSeq - 1] and
    [maxSeq + 1] give the numbers that the rationals give. *)
Definition wholeUpTo (bound : Z) (q : Q) : Prop :=
  exists z : Z, (q == inject_Z z)%Q /\ 0 < z <= bound.

(** An [id] of an import file that stays in that range: [Number(raw.id)]
    is not finite or not positive (the index takes its place), or it is a
    whole number up to [limit]. *)
Definition idWithin (limit : Z) (v : KeyframeManager.RawNumber) : bool :=
  match KeyframeManager.numberOf v with
  | None => true
  | Some q =>
      Qle_bool q 0
      || (Qeq_bool q (inject_Z (Qfloor q)) && (Qfloor q <=? limit))
  end.

Definition entryWithin (limit : Z) (e : KeyframeManager.RawEntry) : bool :=
  match e with
  | KeyframeManager.NotAnObject => true
  | KeyframeManager.Entry raw => idWithin limit (KeyframeManager.raw_id raw)
  end.

Definition callWithin (limit : Z) (c : KeyframeManager.Call) : bool :=
  match c with
  | KeyframeManager.CallImport (KeyframeManager.KeyframesArray entries) _ =>
      forallb (entryWithin limit) entries
  | _ => true
  end.

(** Every [seq] of a keyframe list, and every number the manager holds
    (the counter, the keyframes, the snapshots of both history stacks), is
    a whole number within a bound. *)
Definition seqsWithin (bound : Z) (kfs : list KeyframeManager.Keyframe) : Prop :=
  Forall (fun kf => wholeUpTo bound (KeyframeManager.seq kf)) kfs.

Definition idsWithin (bound : Z) (s : KeyframeManager.State) : Prop :=
  wholeUpTo (bound + 1) (KeyframeManager.kfSeq s) /\
  seqsWithin bound (KeyframeManager.keyframes s) /\
  Forall (seqsWithin bound)
         (HistoryManager.undoStack (KeyframeManager.history s)) /\
  Forall (seqsWithin bound)
         (HistoryManager.redoStack (KeyframeManager.history s)).

(** An import file with two entries: the first carries the id 7, the
    second a [null] time and the id [kf-2], which is no number. *)
Definition twoEntryFile : KeyframeManager.RawData :=
  KeyframeManager.KeyframesArray
    [KeyframeManager.Entry
       {| KeyframeManager.raw_time := KeyframeManager.Finite 2.5%Q;
          KeyframeManager.raw_label := Some introLabel;
          KeyframeManager.raw_comment := None;
          KeyframeManager.raw_id := KeyframeManager.Finite 7%Q |};
     KeyframeManager.Entry
       {| KeyframeManager.raw_time := KeyframeManager.IsNull;
          KeyframeManager.raw_label := None;
          KeyframeManager.raw_comment := None;
          KeyframeManager.raw_id := KeyframeManager.NotFinite |}].

(** The byte of an [ImageData] at index [i]. *)
Definition byteAt (d : list Z) (i : Z) : Z := nth (Z.to_nat i) d 0.

Definition isByte (b : Z) : Prop := 0 <= b <= 255.

(** The bitmap while the painting loops run: its size is [4 * w * h],
    every entry is a byte, and the alpha byte of the pixel [(x, y)] is 255
    where the loops have been (columns before [X], and rows before [Y] of
    column [X]) and 0 elsewhere. *)
Definition paintedUpTo (w h X Y : Z) (dest : option (list Z)) : Prop :=
  exists d,
    dest = Some d /\
    length d = Z.to_nat (4 * w * h) /\
    Forall isByte d /\
    forall x y, 0 <= x < w -> 0 <= y < h ->
      byteAt d ((y * w + x) * 4 + 3)
      = if (x <? X) || ((x =? X) && (y <? Y)) then 255 else 0.

(** The three channels of a look-up table entry are bytes. *)
Definition lutEntryOk (lut : Z * Z * Z) : bool :=
  (0 <=? fst (fst lut)) && (fst (fst lut) <=? 255) &&
  (0 <=? snd (fst lut)) && (snd (fst lut) <=? 255) &&
  (0 <=? snd lut) && (snd lut <=? 255).

(** The distance of the [j]-th zoom level from a target. *)
Definition levelDistance (target : R) (zoomLevels : list Z) (j : Z) : R :=
  Rabs (IZR (nth (Z.to_nat j) zoomLevels 0) - target).

(** The search of [findClosestZoomIndex] after the first [k] levels. *)
Definition closestAmong (target : R) (zoomLevels : list Z) (k : Z)
           (best : Z * option R) : Prop :=
  (k = 0 /\ best = (0, None)) \/
  (0 <= fst best < k /\
   snd best = Some (levelDistance target zoomLevels (fst best)) /\
   forall j, 0 <= j < k ->
     (levelDistance target zoomLevels (fst best)
      <= levelDistance target zoomLevels j)%R /\
     (j < fst best ->
      (levelDistance target zoomLevels (fst best)
       < levelDistance target zoomLevels j)%R)).

(** * Proofs *)

(** ** Lists and loops *)

Lemma zrange_length (n : Z) : length (zrange n) = Z.to_nat n.
Proof. unfold zrange. now rewrite length_map, length_seq. Qed.

Lemma concat_map_length {A} (f : A -> list R) (l : list A) (k : nat) :
  (forall a, length (f a) = k) ->
  length (concat (map f l)) = (length l * k)%nat.
Proof.
  intros Hf. induction l as [|a l IH]; simpl; [reflexivity|].
  now rewrite length_app, Hf, IH.
Qed.

Lemma Forall_concat_map {A} (P : R -> Prop) (f : A -> list R) (l : list A) :
  (forall a, Forall P (f a)) -> Forall P (concat (map f l)).
Proof.
  intros Hf. induction l as [|a l IH]; simpl; [constructor|].
  apply Forall_app. split; [apply Hf | exact IH].
Qed.

(** ** The normalisation pass *)

Lemma clamp_unit (v : R) : (0 <= Utils.clamp v 0 1 <= 1)%R.
Proof.
  unfold Utils.clamp, Rmin, Rmax.
  destruct (Rle_dec 0 v); destruct (Rle_dec 1 _); lra.
Qed.

Lemma normalize_unit (mags : list R) :
  Forall (fun v => (0 <= v <= 1)%R) (normalize mags).
Proof.
  unfold normalize. apply Forall_forall. intros v Hin.
  apply in_map_iff in Hin. destruct Hin as [m [<- _]].
  apply clamp_unit.
Qed.

Lemma normalize_length (mags : list R) : length (normalize mags) = length mags.
Proof. unfold normalize. apply length_map. Qed.

(** ** What a successful run returns *)

Lemma computeSpectrogramCPU_ok ab start duration hop fftSize s :
  computeSpectrogramCPU ab start duration hop fftSize = Ok s ->
  exists f,
    createFFT fftSize = Ok f /\
    fftSize <= segmentLenOf ab start duration /\
    0 < frameCount (segmentLenOf ab start duration) fftSize hop /\
    s = {| data := normalize
                     (concat (map (cpuFrame f (buildHann fftSize)
                                     (mixdown ab (startSampleOf ab start)
                                        (segmentLenOf ab start duration))
                                     fftSize hop (fftSize / 2))
                                (zrange (frameCount
                                           (segmentLenOf ab start duration)
                                           fftSize hop))));
           frames := frameCount (segmentLenOf ab start duration) fftSize hop;
           bins := fftSize / 2;
           hopSize := hop;
           sampleRate := ab_sampleRate ab;
           duration := ab_duration ab;
           totalDuration := ab_duration ab;
           sliceStart := start;
           sliceDuration := duration;
           viewStart := None;
           viewDuration := None |}.
Proof.
  unfold computeSpectrogramCPU.
  destruct (Z.ltb_spec (segmentLenOf ab start duration) fftSize) as [|Hlen];
    [discriminate|].
  destruct (Z.leb_spec (frameCount (segmentLenOf ab start duration) fftSize hop) 0)
    as [|Hfr]; [discriminate|].
  destruct (createFFT fftSize) as [f|e]; [|discriminate].
  intros H. injection H as <-. exists f. repeat split; assumption.
Qed.

Lemma computeSpectrogramWebGPU_some device ab start duration hop fftSize s :
  computeSpectrogramWebGPU device ab start duration hop fftSize = Some s ->
  device = true /\ fftSize = 1024 /\
  fftSize <= segmentLenOf ab start duration /\
  exists outData,
    length outData
    = (Z.to_nat (Z.max 1 (frameCount (segmentLenOf ab start duration)
                            fftSize hop)) * Z.to_nat BINS)%nat /\
    s = {| data := normalize outData;
           frames := Z.max 1 (frameCount (segmentLenOf ab start duration)
                                fftSize hop);
           bins := fftSize / 2;
           hopSize := hop;
           sampleRate := ab_sampleRate ab;
           duration := ab_duration ab;
           totalDuration := ab_duration ab;
           sliceStart := start;
           sliceDuration := duration;
           viewStart := Some start;
           viewDuration := Some duration |}.
Proof.
  unfold computeSpectrogramWebGPU.
  destruct device; simpl negb; [|discriminate].
  destruct (Z.eqb_spec fftSize 1024) as [Hfft|]; simpl; [|discriminate].
  destruct (Z.leb_spec (Z.max 1 (frameCount (segmentLenOf ab start duration)
                                   fftSize hop)) 0) as [|Hfr];
    simpl; [discriminate|].
  destruct (Z.ltb_spec (segmentLenOf ab start duration) fftSize) as [|Hlen];
    [discriminate|].
  intros H. injection H as <-.
  repeat split; try assumption.
  eexists. split; [|reflexivity].
  rewrite (concat_map_length _ _ (Z.to_nat BINS)).
  - now rewrite zrange_length.
  - intros a. unfold shaderMain. now rewrite length_map, zrange_length.
Qed.

Lemma land_pred_zero_nonneg (size : Z) :
  Z.land size (size - 1) = 0 -> 0 <= size.
Proof.
  intros H. destruct (Z.lt_ge_cases size 0) as [Hneg|]; [|assumption].
  assert (Z.land size (size - 1) < 0) by (apply Z.land_neg; lia). lia.
Qed.

Lemma createFFT_ok_nonneg (size : Z) (f : FFT) :
  createFFT size = Ok f -> 0 <= size.
Proof.
  unfold createFFT.
  destruct (Z.eqb_spec (Z.land size (size - 1)) 0) as [H|]; simpl;
    [intros _; now apply land_pred_zero_nonneg | discriminate].
Qed.

Lemma computeSpectrogramCPU_succeeds ab start duration hop fftSize :
  fftSize <= segmentLenOf ab start duration ->
  0 < frameCount (segmentLenOf ab start duration) fftSize hop ->
  Z.land fftSize (fftSize - 1) = 0 ->
  exists s, computeSpectrogramCPU ab start duration hop fftSize = Ok s.
Proof.
  intros Hlen Hfr Hpow. unfold computeSpectrogramCPU, createFFT.
  destruct (Z.ltb_spec (segmentLenOf ab start duration) fftSize); [lia|].
  destruct (Z.leb_spec (frameCount (segmentLenOf ab start duration) fftSize hop) 0);
    [lia|].
  rewrite Hpow. simpl. eexists. reflexivity.
Qed.

Lemma frameCount_pos (segmentLen fftSize hop : Z) :
  0 < hop -> fftSize <= segmentLen -> 1 <= frameCount segmentLen fftSize hop.
Proof.
  intros Hhop Hlen. unfold frameCount.
  assert (0 <= (segmentLen - fftSize) / hop) by (apply Z.div_pos; lia). lia.
Qed.

Lemma clip4_runs :
  exists s, computeSpectrogramCPU clip4 0 1 1 4 = Ok s.
Proof. apply computeSpectrogramCPU_succeeds; vm_compute; congruence. Qed.

(** ** C1: every cell of a returned spectrogram is in [0,1] *)

(** C1. Whenever the CPU builder or the WebGPU builder returns a
    spectrogram, every cell of its [data] array lies in the closed interval
    [0,1]: the last pass of both builders stores [clamp(., 0, 1)]. *)
Theorem C1_cells_in_unit_interval :
  forall device ab start duration hop fftSize s,
    computeSpectrogramCPU ab start duration hop fftSize = Ok s \/
    computeSpectrogramWebGPU device ab start duration hop fftSize = Some s ->
    Forall (fun v => (0 <= v <= 1)%R) (data s).
Proof.
  intros device ab start duration hop fftSize s [Hcpu|Hgpu].
  - apply computeSpectrogramCPU_ok in Hcpu.
    destruct Hcpu as [f [_ [_ [_ ->]]]]. simpl. apply normalize_unit.
  - apply computeSpectrogramWebGPU_some in Hgpu.
    destruct Hgpu as [_ [_ [_ [outData [_ ->]]]]]. simpl. apply normalize_unit.
Qed.

Lemma C1_witness :
  exists s, computeSpectrogramCPU clip4 0 1 1 4 = Ok s /\
            Forall (fun v => (0 <= v <= 1)%R) (data s).
Proof.
  destruct clip4_runs as [s Hs]. exists s. split; [exact Hs|].
  apply (C1_cells_in_unit_interval false clip4 0 1 1 4 s). left. exact Hs.
Defined.

(** ** C2: frame count and data length *)

Lemma builders_shape device ab start duration hop fftSize s :
  0 < hop ->
  computeSpectrogramCPU ab start duration hop fftSize = Ok s \/
  computeSpectrogramWebGPU device ab start duration hop fftSize = Some s ->
  frames s = (segmentLenOf ab start duration - fftSize) / hop + 1 /\
  Z.of_nat (length (data s)) = frames s * (fftSize / 2).
Proof.
  intros Hhop [Hcpu|Hgpu].
  - apply computeSpectrogramCPU_ok in Hcpu.
    destruct Hcpu as [f [Hf [Hlen [Hfr ->]]]]. simpl.
    split; [reflexivity|].
    apply createFFT_ok_nonneg in Hf.
    rewrite normalize_length.
    rewrite (concat_map_length _ _ (Z.to_nat (fftSize / 2))).
    + rewrite zrange_length, Nat2Z.inj_mul, !Z2Nat.id; try lia.
      apply Z.div_pos; lia.
    + intros a. unfold cpuFrame. now rewrite length_map, zrange_length.
  - apply computeSpectrogramWebGPU_some in Hgpu.
    destruct Hgpu as [_ [Hfft [Hlen [outData [Hout ->]]]]]. simpl.
    pose proof (frameCount_pos _ _ _ Hhop Hlen) as Hfr.
    unfold frameCount in *.
    rewrite Z.max_r in * by lia.
    split; [reflexivity|].
    rewrite normalize_length, Hout, Nat2Z.inj_mul, !Z2Nat.id; try lia.
    + subst fftSize. reflexivity.
    + unfold BINS. lia.
Qed.

Lemma computeSpectrogram_ok device prefer ab start duration hop fftSize s :
  computeSpectrogram device ab start duration hop fftSize prefer = Ok s ->
  computeSpectrogramCPU ab start duration hop fftSize = Ok s \/
  computeSpectrogramWebGPU device ab start duration hop fftSize = Some s.
Proof.
  unfold computeSpectrogram. destruct prefer; [|now left].
  destruct (computeSpectrogramWebGPU device ab start duration hop fftSize);
    [|now left].
  intros H. injection H as ->. now right.
Qed.

(** C2. For a positive hop size, a spectrogram returned by either builder
    has [frames = floor((segmentLen - fftSize) / hopSize) + 1], where
    [segmentLen] is the clamped sample count of the requested region, and
    its [data] array has [frames * (fftSize / 2)] cells. *)
Theorem C2_frames_and_data_length :
  forall device ab start duration hop fftSize s,
    0 < hop ->
    computeSpectrogramCPU ab start duration hop fftSize = Ok s \/
    computeSpectrogramWebGPU device ab start duration hop fftSize = Some s ->
    frames s = (segmentLenOf ab start duration - fftSize) / hop + 1 /\
    Z.of_nat (length (data s)) = frames s * (fftSize / 2).
Proof. intros. eapply builders_shape; eassumption. Qed.

Lemma C2_witness :
  exists s, computeSpectrogramCPU clip4 0 1 1 4 = Ok s /\
            frames s = 1 /\ Z.of_nat (length (data s)) = 2.
Proof.
  destruct clip4_runs as [s Hs]. exists s. split; [exact Hs|].
  destruct (C2_frames_and_data_length false clip4 0 1 1 4 s) as [Hf Hl].
  - lia.
  - left. exact Hs.
  - rewrite Hl, Hf. split; reflexivity.
Defined.

(** ** C3: the length errors *)

Lemma segmentLenOf_le_length ab start duration :
  0 <= ab_length ab -> segmentLenOf ab start duration <= ab_length ab.
Proof.
  intros Hlen. unfold segmentLenOf, endSampleOf, startSampleOf. lia.
Qed.

(** C3. With a positive hop size, [computeSpectrogram] throws one of the two
    length errors exactly when the clamped segment is shorter than [fftSize]
    or the frame count is below 1; and a buffer of 512 samples analysed with
    [fftSize = 1024] always throws the segment-too-short error. *)
Theorem C3_insufficient_length :
  forall device prefer ab start duration hop fftSize,
    0 < hop ->
    ((exists e,
         computeSpectrogram device ab start duration hop fftSize prefer = Throw e
         /\ isInsufficientLength e = true)
     <->
     (segmentLenOf ab start duration < fftSize \/
      frameCount (segmentLenOf ab start duration) fftSize hop < 1))
    /\
    (ab_length ab = 512 ->
     computeSpectrogram device ab start duration hop 1024 prefer
     = Throw AudioSegmentTooShort).
Proof.
  intros device prefer ab start duration hop fftSize Hhop.
  assert (Hshort : forall n, segmentLenOf ab start duration < n ->
            computeSpectrogram device ab start duration hop n prefer
            = Throw AudioSegmentTooShort).
  { intros n Hn.
    assert (Hcpu : computeSpectrogramCPU ab start duration hop n
                   = Throw AudioSegmentTooShort).
    { unfold computeSpectrogramCPU.
      destruct (Z.ltb_spec (segmentLenOf ab start duration) n); [reflexivity|lia]. }
    unfold computeSpectrogram. destruct prefer; [|exact Hcpu].
    destruct (computeSpectrogramWebGPU device ab start duration hop n) eqn:Hgpu;
      [|exact Hcpu].
    apply computeSpectrogramWebGPU_some in Hgpu. lia. }
  split; [split|].
  - intros [e [Hrun He]].
    assert (Hcpu : computeSpectrogramCPU ab start duration hop fftSize = Throw e).
    { unfold computeSpectrogram in Hrun. destruct prefer; [|exact Hrun].
      destruct (computeSpectrogramWebGPU device ab start duration hop fftSize);
        [discriminate|exact Hrun]. }
    unfold computeSpectrogramCPU in Hcpu.
    destruct (Z.ltb_spec (segmentLenOf ab start duration) fftSize); [now left|].
    destruct (Z.leb_spec (frameCount (segmentLenOf ab start duration) fftSize hop) 0);
      [right; lia|].
    destruct (createFFT fftSize) eqn:Hf; [discriminate|].
    unfold createFFT in Hf.
    destruct (negb _); [|discriminate].
    injection Hf as <-. injection Hcpu as <-. discriminate.
  - intros [Hlen|Hfr].
    + exists AudioSegmentTooShort. split; [now apply Hshort | reflexivity].
    + destruct (Z.lt_ge_cases (segmentLenOf ab start duration) fftSize) as [Hlen|Hlen].
      * exists AudioSegmentTooShort. split; [now apply Hshort | reflexivity].
      * pose proof (frameCount_pos _ _ _ Hhop Hlen). lia.
  - intros H512. apply Hshort.
    pose proof (segmentLenOf_le_length ab start duration). lia.
Qed.

Lemma C3_witness :
  computeSpectrogram true clip512 0 (ab_duration clip512) 960 1024 true
  = Throw AudioSegmentTooShort.
Proof.
  apply (C3_insufficient_length true true clip512 0 (ab_duration clip512)
           960 1024); [lia | reflexivity].
Defined.

(** ** Silence in, silence out *)

Lemma fold_left_invariant {S X} (P : S -> Prop) (f : S -> X -> S) (l : list X) :
  (forall st x, P st -> P (f st x)) ->
  forall st, P st -> P (fold_left f l st).
Proof.
  intros Hstep. induction l as [|x l IH]; simpl; intros st Hst; [exact Hst|].
  apply IH, Hstep, Hst.
Qed.

Lemma allZero_map_const {A} (g : A -> R) (l : list A) :
  (forall a, g a = 0%R) -> allZero (map g l).
Proof.
  intros Hg. apply Forall_forall. intros x Hin.
  apply in_map_iff in Hin. destruct Hin as [a [<- _]]. apply Hg.
Qed.

Lemma getR_allZero (a : list R) (i : Z) : allZero a -> getR a i = 0%R.
Proof.
  intros Ha. unfold getR. destruct (i <? 0); [reflexivity|].
  destruct (nth_in_or_default (Z.to_nat i) a 0%R) as [Hin | ->]; [|reflexivity].
  exact (proj1 (Forall_forall _ a) Ha _ Hin).
Qed.

Lemma setNth_allZero (a : list R) (n : nat) : allZero a -> allZero (setNth a n 0%R).
Proof.
  revert n. induction a as [|h t IH]; intros n Ha; simpl; [constructor|].
  inversion Ha as [|h' t' Hh Ht]; subst.
  destruct n; constructor; try reflexivity; try assumption.
  apply IH, Ht.
Qed.

Lemma setR_allZero (a : list R) (i : Z) (v : R) :
  allZero a -> v = 0%R -> allZero (setR a i v).
Proof.
  intros Ha ->. unfold setR. destruct (i <? 0); [exact Ha|].
  now apply setNth_allZero.
Qed.

Lemma swapR_allZero (a : list R) (i j : Z) : allZero a -> allZero (swapR a i j).
Proof.
  intros Ha. unfold swapR.
  repeat apply setR_allZero; auto using getR_allZero.
Qed.

(** Rewrites every read of an all-zero array, innermost stores first. *)
Ltac zero_reads :=
  repeat match goal with
         | |- context [getR ?a ?i] =>
             rewrite (getR_allZero a i)
               by (repeat apply setR_allZero; try assumption; lra)
         end.

Lemma butterfly_bothZero f len i st j :
  bothZero st -> bothZero (butterfly f len i st j).
Proof.
  intros [Hre Him]. unfold butterfly, bothZero. cbv zeta. simpl fst. simpl snd.
  split; repeat apply setR_allZero; try assumption; zero_reads; lra.
Qed.

Lemma transform_bothZero f re im :
  allZero re -> allZero im -> bothZero (transform f re im).
Proof.
  intros Hre Him. unfold transform. cbv zeta.
  apply fold_left_invariant.
  - intros st len Hst. unfold stage.
    apply fold_left_invariant; [|exact Hst].
    intros st' i Hst'. apply fold_left_invariant; [|exact Hst'].
    intros st'' j. apply butterfly_bothZero.
  - apply fold_left_invariant; [|split; assumption].
    intros st i [H1 H2]. unfold permuteStep.
    destruct (_ >? _); [|split; assumption].
    split; simpl; now apply swapR_allZero.
Qed.

Lemma magnitudes_zero (out : list R * list R) (n : Z) :
  bothZero out ->
  allZero (map (fun b => sqrt (getR (fst out) b * getR (fst out) b
                               + getR (snd out) b * getR (snd out) b))
               (zrange n)).
Proof.
  intros [Hre Him]. apply allZero_map_const. intros b.
  rewrite !getR_allZero by assumption.
  replace (0 * 0 + 0 * 0)%R with 0%R by lra. apply sqrt_0.
Qed.

Lemma channel_sum_zero (chans : list (list R)) (idx : Z) :
  Forall allZero chans ->
  fold_left (fun acc src => (acc + getR src idx)%R) chans 0%R = 0%R.
Proof.
  induction 1 as [|src chans Hsrc _ IH]; simpl; [reflexivity|].
  rewrite (getR_allZero src idx Hsrc), Rplus_0_l. exact IH.
Qed.

Lemma peak_scan_allZero (mags : list R) (p : R) :
  (0 < p)%R -> allZero mags ->
  fold_left (fun peak mag => if Rlt_dec peak mag then mag else peak) mags p = p.
Proof.
  revert p. induction mags as [|m mags IH]; intros p Hp Hz; simpl; [reflexivity|].
  inversion Hz as [|m' t' Hm Ht]; subst.
  destruct (Rlt_dec p 0); [lra|]. now apply IH.
Qed.

Lemma peakOf_allZero (mags : list R) : allZero mags -> peakOf mags = 1e-9%R.
Proof. intros Hz. unfold peakOf. apply peak_scan_allZero; [lra|exact Hz]. Qed.

Lemma ln10_pos : (0 < ln 10)%R.
Proof. rewrite <- ln_1. apply ln_increasing; lra. Qed.

Lemma log10_noise_floor : log10 1e-12 = (-12)%R.
Proof.
  unfold log10. replace 1e-12%R with (/ 10 ^ 12)%R by lra.
  rewrite ln_Rinv by (apply pow_lt; lra).
  rewrite ln_pow by lra.
  pose proof ln10_pos. replace (INR 12) with 12%R by (simpl; lra).
  field. lra.
Qed.

Lemma normalizeCell_silence (peak : R) : normalizeCell peak 0 = 0%R.
Proof.
  unfold normalizeCell. cbv zeta.
  replace (0 / peak + 1e-12)%R with 1e-12%R by (unfold Rdiv; lra).
  rewrite log10_noise_floor. unfold spanDb, minDb, Utils.clamp.
  replace ((20 * -12 - -85) / - -85)%R with (-155 / 85)%R by (field; lra).
  rewrite Rmax_left by lra. apply Rmin_right. lra.
Qed.

Lemma normalize_allZero (mags : list R) : allZero mags -> allZero (normalize mags).
Proof.
  intros Hz. unfold normalize. apply Forall_forall. intros v Hin.
  apply in_map_iff in Hin. destruct Hin as [m [<- Hm]].
  rewrite (proj1 (Forall_forall _ mags) Hz m Hm). apply normalizeCell_silence.
Qed.

Lemma cpuFrame_allZero f hann mono fftSize hop binCount frame :
  allZero mono -> allZero (cpuFrame f hann mono fftSize hop binCount frame).
Proof.
  intros Hmono. unfold cpuFrame. cbv zeta.
  apply magnitudes_zero, transform_bothZero.
  - apply allZero_map_const. intros i.
    rewrite (getR_allZero mono) by assumption.
    destruct (_ <? _); lra.
  - now apply allZero_map_const.
Qed.

Lemma mixdown_allZero ab startSample segmentLen :
  Forall allZero (ab_channels ab) -> allZero (mixdown ab startSample segmentLen).
Proof.
  intros Hch. unfold mixdown. cbv zeta.
  apply allZero_map_const. intros i. rewrite channel_sum_zero by assumption. lra.
Qed.

Lemma shaderMain_allZero inBuf frame :
  allZero inBuf -> allZero (shaderMain inBuf frame).
Proof.
  intros Hin. unfold shaderMain. cbv zeta.
  apply magnitudes_zero.
  apply fold_left_invariant.
  - intros st m Hst. apply fold_left_invariant; [|exact Hst].
    intros st' k [Hre Him]. unfold shaderButterfly. cbv zeta.
    destruct (_ <? _); [|split; assumption].
    split; cbn [fst snd]; repeat apply setR_allZero; try assumption; zero_reads; lra.
  - apply fold_left_invariant.
    + intros st i [H1 H2]. unfold shaderPermute. cbv zeta.
      destruct (_ >? _); [|split; assumption].
      split; cbn [fst snd]; now apply swapR_allZero.
    + split; cbn [fst snd]; apply allZero_map_const; intros i;
        [now apply getR_allZero | reflexivity].
Qed.

Lemma gpuFrameInput_allZero ab hann startSample endSample fftSize hop frame :
  Forall allZero (ab_channels ab) ->
  allZero (gpuFrameInput ab hann startSample endSample fftSize hop frame).
Proof.
  intros Hch. unfold gpuFrameInput. cbv zeta.
  apply allZero_map_const. intros i.
  rewrite channel_sum_zero by assumption.
  destruct (_ <? _); unfold Rdiv; lra.
Qed.

(** A builder fed all-zero channels returns all-zero cells. *)
Lemma silent_input_silent_output device prefer ab start duration hop fftSize s :
  Forall allZero (ab_channels ab) ->
  computeSpectrogram device ab start duration hop fftSize prefer = Ok s ->
  allZero (data s).
Proof.
  intros Hch Hrun.
  assert (Hcpu : computeSpectrogramCPU ab start duration hop fftSize = Ok s ->
                 allZero (data s)).
  { intros H. apply computeSpectrogramCPU_ok in H.
    destruct H as [f [_ [_ [_ ->]]]]. simpl.
    apply normalize_allZero, Forall_concat_map. intros frame.
    now apply cpuFrame_allZero, mixdown_allZero. }
  unfold computeSpectrogram in Hrun. destruct prefer; [|now apply Hcpu].
  destruct (computeSpectrogramWebGPU device ab start duration hop fftSize)
    as [g|] eqn:Hgpu; [|now apply Hcpu].
  injection Hrun as ->.
  unfold computeSpectrogramWebGPU in Hgpu.
  destruct (negb device || negb (fftSize =? 1024)); [discriminate|].
  destruct ((_ <=? 0) || _); [discriminate|].
  injection Hgpu as <-. simpl.
  apply normalize_allZero, Forall_concat_map. intros frame.
  apply shaderMain_allZero, Forall_concat_map. intros fr.
  now apply gpuFrameInput_allZero.
Qed.

(** ** C4: two seconds of silence *)

Lemma silence2s_allZero : Forall allZero (ab_channels silence2s).
Proof.
  unfold silence2s. cbn [ab_channels]. constructor; [|constructor].
  apply Forall_forall. intros x Hin. now apply repeat_spec in Hin.
Qed.

Lemma silence2s_segment : segmentLenOf silence2s 0 2 = 96000.
Proof. vm_compute. reflexivity. Qed.

Lemma silence2s_runs device prefer :
  exists s, computeSpectrogram device silence2s 0 2 960 1024 prefer = Ok s.
Proof.
  destruct (computeSpectrogramCPU_succeeds silence2s 0 2 960 1024) as [c Hc].
  - rewrite silence2s_segment. lia.
  - rewrite silence2s_segment. vm_compute. reflexivity.
  - reflexivity.
  - unfold computeSpectrogram. destruct prefer; [|now exists c].
    destruct (computeSpectrogramWebGPU device silence2s 0 2 960 1024) as [g|];
      [now exists g | now exists c].
Qed.

Lemma silence2s_frames device prefer s :
  computeSpectrogram device silence2s 0 2 960 1024 prefer = Ok s ->
  frames s = 99.
Proof.
  intros Hrun. apply computeSpectrogram_ok in Hrun.
  destruct (builders_shape device silence2s 0 2 960 1024 s) as [Hf _];
    [lia | exact Hrun |].
  rewrite Hf, silence2s_segment. reflexivity.
Qed.

(** C4 as stated fails: the run on two seconds of silence with hop 960 and
    FFT size 1024 does not return 100 frames
    ([floor((96000 - 1024) / 960) + 1] is 99). *)
Lemma C4_frames_is_not_100 :
  ~ exists s,
      computeSpectrogramCPU silence2s 0 2 960 1024 = Ok s /\
      frames s = 100 /\ Forall (fun v => v = 0%R) (data s).
Proof.
  intros [s [Hrun [Hframes _]]].
  assert (H99 : frames s = 99) by (apply (silence2s_frames false false); exact Hrun).
  lia.
Qed.

(** C4 (amended). For two seconds of all-zero mono samples at 48000 Hz,
    analysed with hop 960 and FFT size 1024, the builder (WebGPU or CPU)
    returns a spectrogram with 99 frames whose cells are all 0. *)
Theorem C4_silence :
  forall device prefer,
  exists s,
    computeSpectrogram device silence2s 0 2 960 1024 prefer = Ok s /\
    frames s = 99 /\ Forall (fun v => v = 0%R) (data s).
Proof.
  intros device prefer. destruct (silence2s_runs device prefer) as [s Hs].
  exists s. split; [exact Hs|]. split.
  - eapply silence2s_frames; exact Hs.
  - eapply silent_input_silent_output; [apply silence2s_allZero | exact Hs].
Qed.

(** ** The bi-log slider *)

Lemma roundR_IZR (z : Z) : roundR (IZR z) = z.
Proof. unfold roundR. apply Zfloor_eq. lra. Qed.

Lemma clamp_inside (v lo hi : R) :
  (lo <= v <= hi)%R -> Utils.clamp v lo hi = v.
Proof.
  intros [Hlo Hhi]. unfold Utils.clamp.
  rewrite Rmax_right by exact Hlo. now apply Rmin_right.
Qed.

Lemma zoom_mid : Utils.mid UIControls.zoomMap = 100%R.
Proof. unfold UIControls.zoomMap, Utils.createBiLogMapping. simpl. lra. Qed.

Lemma factorFromSlider_at_mid :
  Utils.factorFromSlider 100 UIControls.zoomMap = 1%R.
Proof.
  unfold Utils.factorFromSlider. cbv zeta.
  rewrite clamp_inside by (simpl; lra).
  rewrite zoom_mid. destruct (Req_dec_T 100 100); [reflexivity|lra].
Qed.

(** ** C5: the slider round trip *)

Lemma zoom_min : Utils.min UIControls.zoomMap = (/ 8)%R.
Proof. unfold UIControls.zoomMap, Utils.createBiLogMapping. simpl. lra. Qed.

Lemma zoom_max : Utils.max UIControls.zoomMap = 256%R.
Proof. reflexivity. Qed.

Lemma zoom_steps : IZR (Utils.steps UIControls.zoomMap) = 200%R.
Proof. reflexivity. Qed.

Lemma ln_gt_1_pos (x : R) : (1 < x)%R -> (0 < ln x)%R.
Proof. intros Hx. rewrite <- ln_1. apply ln_increasing; lra. Qed.

(** [x^n < b] bounds the logarithm of [x] in base [b] by [1/n]. *)
Lemma log_ratio_lt (b x : R) (n : nat) :
  (1 < b)%R -> (0 < x)%R -> (x ^ n < b)%R -> (INR n * (ln x / ln b) < 1)%R.
Proof.
  intros Hb Hx Hpow. pose proof (ln_gt_1_pos b Hb) as Hlnb.
  assert (Hln : (INR n * ln x < ln b)%R).
  { rewrite <- ln_pow by exact Hx. apply ln_increasing; [apply pow_lt|]; lra. }
  unfold Rdiv. rewrite <- Rmult_assoc.
  apply (Rmult_lt_reg_r (ln b)); [exact Hlnb|].
  rewrite Rmult_assoc, Rinv_l by lra. lra.
Qed.

Lemma sliderFromFactor_1_02 :
  Utils.sliderFromFactor 1.02 UIControls.zoomMap = 100.
Proof.
  unfold Utils.sliderFromFactor. cbv zeta.
  rewrite zoom_min, zoom_max, zoom_mid.
  rewrite clamp_inside by lra.
  destruct (Rlt_dec (Rabs (1.02 - 1)) 1e-12) as [Hnear|_].
  { rewrite Rabs_right in Hnear by lra. lra. }
  destruct (Rlt_dec 1.02 1) as [Hlt|_]; [lra|].
  unfold roundR. apply Zfloor_eq.
  assert (Hlo : (0 <= ln 1.02 / ln 256)%R).
  { apply Rlt_le, Rdiv_lt_0_compat; apply ln_gt_1_pos; lra. }
  assert (Hhi : (INR 200 * (ln 1.02 / ln 256) < 1)%R)
    by (apply log_ratio_lt; lra).
  replace (INR 200) with 200%R in Hhi by (simpl; lra).
  lra.
Qed.

(** C5 as stated fails: at [f = 1.02] the slider position is 100, which maps
    back to exactly 1, and [|1 - 1.02| = 0.02 > 0.01 * 1.02]. *)
Lemma C5_round_trip_exceeds_1_percent :
  ~ (forall f : R,
        (0.125 <= f <= 256)%R ->
        (Rabs (Utils.factorFromSlider
                 (IZR (Utils.sliderFromFactor f UIControls.zoomMap))
                 UIControls.zoomMap - f) <= 0.01 * f)%R).
Proof.
  intros Hclaim. specialize (Hclaim 1.02%R ltac:(lra)).
  rewrite sliderFromFactor_1_02, factorFromSlider_at_mid in Hclaim.
  rewrite Rabs_left in Hclaim by lra. lra.
Qed.

Lemma roundR_bounds (x : R) : (IZR (roundR x) - / 2 <= x < IZR (roundR x) + / 2)%R.
Proof. unfold roundR. pose proof (Zfloor_bound (x + / 2)). lra. Qed.

Lemma roundR_range (x : R) (lo hi : Z) :
  (IZR lo <= x <= IZR hi)%R -> lo <= roundR x <= hi.
Proof.
  intros [Hlo Hhi]. pose proof (roundR_bounds x) as [Hb1 Hb2]. split.
  - unfold roundR. apply Zfloor_lub. lra.
  - apply Z.lt_succ_r, lt_IZR. rewrite succ_IZR. lra.
Qed.

Lemma Rpower_root_le (b a : R) (n : nat) :
  (0 < n)%nat -> (0 < b)%R -> (0 < a)%R -> (b <= a ^ n)%R ->
  (Rpower b (/ INR n) <= a)%R.
Proof.
  intros Hn Hb Ha Hpow.
  assert (HINR : (0 < INR n)%R) by now apply lt_0_INR.
  apply Rle_trans with (Rpower (a ^ n) (/ INR n)).
  - apply Rle_Rpower_l; [|lra]. left. now apply Rinv_0_lt_compat.
  - rewrite <- Rpower_pow by exact Ha.
    rewrite Rpower_mult, Rinv_r by lra. rewrite Rpower_1 by exact Ha. lra.
Qed.

Lemma Rpower_root_ge (b a : R) (n : nat) :
  (0 < n)%nat -> (0 < a)%R -> (a ^ n <= b)%R ->
  (a <= Rpower b (/ INR n))%R.
Proof.
  intros Hn Ha Hpow.
  assert (HINR : (0 < INR n)%R) by now apply lt_0_INR.
  apply Rle_trans with (Rpower (a ^ n) (/ INR n)).
  - rewrite <- Rpower_pow by exact Ha.
    rewrite Rpower_mult, Rinv_r by lra. rewrite Rpower_1 by exact Ha. lra.
  - apply Rle_Rpower_l; [|split; [now apply pow_lt | exact Hpow]].
    left. now apply Rinv_0_lt_compat.
Qed.

Lemma halfStepRatio_bounds : (1.01 <= halfStepRatio < 1.029)%R.
Proof.
  unfold halfStepRatio. replace 200%R with (INR 200) by (simpl; lra). split.
  - apply Rpower_root_ge; [lia | lra | lra].
  - apply Rle_lt_trans with 1.0285%R; [|lra].
    apply Rpower_root_le; [lia | lra | lra | lra].
Qed.

Lemma Rabs_le_between (a b : R) : (Rabs a <= b)%R -> (- b <= a <= b)%R.
Proof. unfold Rabs. destruct (Rcase_abs a); lra. Qed.

Lemma Rpower_near_one (b d : R) :
  (1 < b <= 256)%R -> (Rabs d <= / 200)%R ->
  (Rabs (Rpower b d - 1) <= halfStepRatio - 1)%R.
Proof.
  intros [Hb1 Hb2] Hd. apply Rabs_le_between in Hd. destruct Hd as [Hd1 Hd2].
  pose proof halfStepRatio_bounds as [HB _].
  assert (Hup : (Rpower b d <= halfStepRatio)%R).
  { apply Rle_trans with (Rpower b (/ 200)).
    - apply Rle_Rpower; lra.
    - apply Rle_Rpower_l; lra. }
  assert (Hlow : (/ halfStepRatio <= Rpower b d)%R).
  { apply Rle_trans with (Rpower b (- / 200)).
    - rewrite Rpower_Ropp. apply Rinv_le_contravar.
      + unfold Rpower. apply exp_pos.
      + apply Rle_Rpower_l; lra.
    - apply Rle_Rpower; lra. }
  assert (Hinv : (halfStepRatio * / halfStepRatio = 1)%R) by (apply Rinv_r; lra).
  assert (Hpos : (0 < / halfStepRatio)%R) by (apply Rinv_0_lt_compat; lra).
  apply Rabs_le. split; nra.
Qed.

Lemma round_trip_core (b f x : R) (v : Z) :
  (1 < b <= 256)%R -> (0 < f)%R -> (Rabs (IZR v - x) <= / 2)%R ->
  (Rabs (f * Rpower b ((IZR v - x) / 100) - f) <= (halfStepRatio - 1) * f)%R.
Proof.
  intros Hb Hf Hv.
  replace (f * Rpower b ((IZR v - x) / 100) - f)%R
    with (f * (Rpower b ((IZR v - x) / 100) - 1))%R by ring.
  rewrite Rabs_mult, (Rabs_pos_eq f) by lra.
  rewrite (Rmult_comm (halfStepRatio - 1)).
  apply Rmult_le_compat_l; [lra|].
  apply Rpower_near_one; [exact Hb|].
  apply Rabs_le_between in Hv. apply Rabs_le. lra.
Qed.

Lemma Rpower_log (b y : R) :
  (0 < y)%R -> Rpower b (ln y / ln b) = y \/ ln b = 0%R.
Proof.
  intros Hy. destruct (Req_dec (ln b) 0) as [Hz|Hnz]; [now right|left].
  unfold Rpower. replace (ln y / ln b * ln b)%R with (ln y) by (field; exact Hnz).
  now apply exp_ln.
Qed.

(** C5 (amended). For every factor [f] in [[0.125, 256]] the round trip
    through the integer slider position stays within a relative error of
    [256^(1/200) - 1], which is below 2.9%. *)
Theorem C5_round_trip_within_half_step :
  forall f : R,
    (0.125 <= f <= 256)%R ->
    (Rabs (Utils.factorFromSlider
             (IZR (Utils.sliderFromFactor f UIControls.zoomMap))
             UIControls.zoomMap - f) <= (halfStepRatio - 1) * f)%R
    /\ (halfStepRatio - 1 < 0.029)%R.
Proof.
  intros f Hf. pose proof halfStepRatio_bounds as [HB1 HB2].
  split; [|lra].
  assert (Hln8 : (0 < ln 8)%R) by (apply ln_gt_1_pos; lra).
  assert (Hln256 : (0 < ln 256)%R) by (apply ln_gt_1_pos; lra).
  unfold Utils.sliderFromFactor. cbv zeta.
  rewrite zoom_min, zoom_max, zoom_mid.
  rewrite clamp_inside by lra.
  destruct (Rlt_dec (Rabs (f - 1)) 1e-12) as [Hnear|Hfar].
  { (* f is 1 up to 1e-12: the thumb goes to the middle *)
    rewrite roundR_IZR, factorFromSlider_at_mid.
    rewrite Rabs_minus_sym.
    apply Rle_trans with 1e-12%R; [lra|]. nra. }
  destruct (Rlt_dec f 1) as [Hlt|Hge].
  - (* lower branch, base 8 *)
    replace (f / / 8)%R with (8 * f)%R by (field; lra).
    replace (1 / / 8)%R with 8%R by (field; lra).
    set (x := (ln (8 * f) / ln 8 * 100)%R).
    assert (Hx : (0 <= x < 100)%R).
    { unfold x. assert (0 <= ln (8 * f) < ln 8)%R.
      { split.
        - destruct (Req_dec (8 * f) 1) as [->|Hne]; [rewrite ln_1; lra|].
          apply Rlt_le, ln_gt_1_pos. lra.
        - apply ln_increasing; lra. }
      split.
      - apply Rmult_le_pos; [|lra]. apply Rmult_le_pos; [lra|].
        apply Rlt_le, Rinv_0_lt_compat, Hln8.
      - apply Rmult_lt_reg_r with (/ 100 * ln 8)%R; [nra|].
        field_simplify; lra. }
    pose proof (roundR_range x 0 100 ltac:(lra)) as Hv.
    pose proof (roundR_bounds x) as Hr.
    set (v := roundR x) in *.
    assert (Hf8 : f = (/ 8 * Rpower 8 (x / 100))%R).
    { unfold x. replace (ln (8 * f) / ln 8 * 100 / 100)%R
        with (ln (8 * f) / ln 8)%R by (field; lra).
      destruct (Rpower_log 8 (8 * f)) as [->|]; lra. }
    assert (Hback : Utils.factorFromSlider (IZR v) UIControls.zoomMap
                    = (f * Rpower 8 ((IZR v - x) / 100))%R).
    { rewrite Hf8 at 1. rewrite Rmult_assoc, <- Rpower_plus.
      replace (x / 100 + (IZR v - x) / 100)%R with (IZR v / 100)%R by field.
      unfold Utils.factorFromSlider. cbv zeta.
      rewrite zoom_min, zoom_max, zoom_mid, zoom_steps.
      assert (0 <= IZR v <= 100)%R by (split; apply IZR_le; lia).
      rewrite clamp_inside by lra.
      destruct (Req_dec_T (IZR v) 100) as [->|Hne].
      - replace (100 / 100)%R with 1%R by field.
        rewrite Rpower_1; lra.
      - destruct (Rlt_dec (IZR v) 100); [|lra].
        replace (1 / / 8)%R with 8%R by (field; lra). reflexivity. }
    rewrite Hback. apply round_trip_core; [lra | lra |].
    apply Rabs_le. lra.
  - (* upper branch, base 256 *)
    set (x := (100 + ln f / ln 256 * 100)%R).
    assert (Hx : (100 <= x <= 200)%R).
    { unfold x. assert (0 <= ln f <= ln 256)%R.
      { split.
        - destruct (Req_dec f 1) as [->|Hne]; [rewrite ln_1; lra|].
          apply Rlt_le, ln_gt_1_pos. lra.
        - destruct (Req_dec f 256) as [->|Hne]; [lra|].
          apply Rlt_le, ln_increasing; lra. }
      assert (0 <= ln f / ln 256 <= 1)%R.
      { split.
        - apply Rmult_le_pos; [lra|]. apply Rlt_le, Rinv_0_lt_compat, Hln256.
        - apply Rmult_le_reg_r with (ln 256); [lra|].
          unfold Rdiv. rewrite Rmult_assoc, Rinv_l; lra. }
      lra. }
    pose proof (roundR_range x 100 200 ltac:(lra)) as Hv.
    pose proof (roundR_bounds x) as Hr.
    set (v := roundR x) in *.
    assert (Hf256 : f = Rpower 256 ((x - 100) / 100)).
    { unfold x. replace ((100 + ln f / ln 256 * 100 - 100) / 100)%R
        with (ln f / ln 256)%R by (field; lra).
      destruct (Rpower_log 256 f) as [->|]; lra. }
    assert (Hback : Utils.factorFromSlider (IZR v) UIControls.zoomMap
                    = (f * Rpower 256 ((IZR v - x) / 100))%R).
    { rewrite Hf256 at 1. rewrite <- Rpower_plus.
      replace ((x - 100) / 100 + (IZR v - x) / 100)%R
        with ((IZR v - 100) / 100)%R by field.
      unfold Utils.factorFromSlider. cbv zeta.
      rewrite zoom_max, zoom_mid, zoom_steps.
      assert (100 <= IZR v <= 200)%R by (split; apply IZR_le; lia).
      rewrite clamp_inside by lra.
      destruct (Req_dec_T (IZR v) 100) as [->|Hne].
      - replace ((100 - 100) / 100)%R with 0%R by field.
        rewrite Rpower_O; lra.
      - destruct (Rlt_dec (IZR v) 100); [lra|reflexivity]. }
    rewrite Hback. apply round_trip_core; [lra | lra |].
    apply Rabs_le. lra.
Qed.

Lemma C5_witness :
  (Rabs (Utils.factorFromSlider
           (IZR (Utils.sliderFromFactor 1.02 UIControls.zoomMap))
           UIControls.zoomMap - 1.02) <= (halfStepRatio - 1) * 1.02)%R.
Proof.
  apply (C5_round_trip_within_half_step 1.02%R). lra.
Defined.

(** ** C6: the snap to 1x *)

(** C6. Whenever the factor mapped from the slider position is within 0.1
    of 1, the factor chosen by [applyFromSlider] (the one passed to
    [onChange]) and the one returned by [currentSliderFactor] is exactly 1. *)
Theorem C6_snap_to_one :
  forall (map : Utils.BiLogMap) (rawVal : R),
    (Rabs (Utils.factorFromSlider
             (IZR (Utils.clampZ (roundR rawVal) 0 (Utils.steps map))) map - 1)
       <= 0.1 ->
     UIControls.factor (UIControls.applyFromSlider map rawVal) = 1 /\
     UIControls.snapped (UIControls.applyFromSlider map rawVal) = true)%R
    /\
    (Rabs (Utils.factorFromSlider rawVal map - 1) <= 0.1 ->
     App.currentSliderFactor rawVal map = 1)%R.
Proof.
  intros map rawVal. split.
  - intros Hnear. unfold UIControls.applyFromSlider, UIControls.SNAP_RANGE.
    cbv zeta.
    destruct (Rle_dec _ _) as [_|Hfar]; [split; reflexivity | contradiction].
  - intros Hnear. unfold App.currentSliderFactor. cbv zeta.
    destruct (Rle_dec _ _) as [_|Hfar]; [reflexivity | contradiction].
Qed.

(** One step above the middle of the zoom slider the mapped factor is
    [256^(1/100)], about 1.057: inside the snap range. *)
Lemma factorFromSlider_101_near_one :
  (Rabs (Utils.factorFromSlider 101 UIControls.zoomMap - 1) <= 0.1)%R.
Proof.
  unfold Utils.factorFromSlider. cbv zeta.
  rewrite zoom_max, zoom_mid, zoom_steps.
  rewrite clamp_inside by lra.
  destruct (Req_dec_T 101 100) as [Heq|_]; [lra|].
  destruct (Rlt_dec 101 100) as [Hlt|_]; [lra|].
  replace ((101 - 100) / 100)%R with (/ INR 100)%R by (simpl; lra).
  assert (Hup : (Rpower 256 (/ INR 100) <= 1.1)%R)
    by (apply Rpower_root_le; [lia | lra | lra | lra]).
  assert (Hlow : (1 <= Rpower 256 (/ INR 100))%R)
    by (apply Rpower_root_ge; [lia | lra | lra]).
  apply Rabs_le. lra.
Qed.

Lemma C6_witness :
  UIControls.factor (UIControls.applyFromSlider UIControls.zoomMap 101) = 1%R /\
  App.currentSliderFactor 101 UIControls.zoomMap = 1%R.
Proof.
  destruct (C6_snap_to_one UIControls.zoomMap 101) as [Hslider Hcurrent].
  split.
  - apply Hslider. rewrite roundR_IZR.
    replace (Utils.clampZ 101 0 (Utils.steps UIControls.zoomMap)) with 101
      by reflexivity.
    apply factorFromSlider_101_near_one.
  - apply Hcurrent. apply factorFromSlider_101_near_one.
Defined.

(** ** The tile manager and the token gate *)

(** Unfolds the record setters so that projections compute. *)
Ltac unfold_setters :=
  unfold setSpectrogram, setSpectrogramRequestId, setHiResSpec,
    setHiResRequestId, setHiResPending, setLastHiResRequestedAt,
    setPreferWebGPU, setSpecViewStart, setSpecViewDuration,
    setSpectrumCanvas, setSuspended, setInstalled in *;
  cbn [spectrogram spectrogramRequestId hiResSpec hiResRequestId hiResPending
       lastHiResRequestedAt preferWebGPU specViewStart specViewDuration
       spectrumCanvas suspended installed] in *.

Lemma quiet_refl s : quiet s s.
Proof. split; [lia | lia | reflexivity]. Qed.

Lemma quiet_trans s1 s2 s3 : quiet s1 s2 -> quiet s2 s3 -> quiet s1 s3.
Proof.
  intros [A1 A2 A3] [B1 B2 B3]. split; [lia | lia | congruence].
Qed.

Lemma keeps_refl s : keeps s s.
Proof. repeat split; try reflexivity; lia. Qed.

Lemma keeps_trans s1 s2 s3 : keeps s1 s2 -> keeps s2 s3 -> keeps s1 s3.
Proof.
  intros [Q1 [A1 B1]] [Q2 [A2 B2]].
  split; [eapply quiet_trans; eassumption | split; congruence].
Qed.

Ltac keeps_by_computation :=
  repeat split; unfold_setters; try reflexivity; try lia.

Lemma buildHiResSpectrogram_keeps env vs vd ppsCss s :
  keeps s (buildHiResSpectrogram env vs vd ppsCss s).
Proof.
  unfold buildHiResSpectrogram.
  destruct (negb (env_specEnabled env)); [apply keeps_refl|].
  destruct (env_audioBuffer env); [|apply keeps_refl].
  destruct (_ || _); [apply keeps_refl|].
  destruct (hiResPending s); [apply keeps_refl|].
  destruct (hiResMatches _ _ _ _); [apply keeps_refl|].
  keeps_by_computation.
Qed.

Lemma maybeRequestHiRes_keeps env vs vd ppsCss s :
  keeps s (maybeRequestHiRes env vs vd ppsCss s).
Proof.
  unfold maybeRequestHiRes.
  destruct (negb (shouldUseHiRes s env ppsCss)); [apply keeps_refl|].
  destruct (env_audioBuffer env); [|apply keeps_refl].
  destruct (negb (Qltb 0 _)); [apply keeps_refl|].
  destruct (hiResMatches _ _ _ _); [apply keeps_refl|].
  destruct (hiResPending s); [apply keeps_refl|].
  destruct (Qltb _ 120); [apply keeps_refl|].
  apply buildHiResSpectrogram_keeps.
Qed.

Lemma setSpectrumCanvas_keeps c s : keeps s (setSpectrumCanvas c s).
Proof. keeps_by_computation. Qed.

Lemma paintSpectrogram_keeps env spec vs vd ppsCss c s :
  keeps s (stateOf (paintSpectrogram env spec vs vd ppsCss c s)).
Proof.
  unfold paintSpectrogram. cbv zeta.
  destruct (fold_left _ _ _) as [dest|]; cbn [stateOf]; keeps_by_computation.
Qed.

Lemma drawSpectrogram_keeps env vs vd s :
  keeps s (stateOf (drawSpectrogram env vs vd s)).
Proof.
  unfold drawSpectrogram.
  destruct (spectrumCanvas s) as [c0|]; [|apply keeps_refl].
  destruct (negb (env_has2dContext env)); [apply setSpectrumCanvas_keeps|].
  destruct (env_container env) as [rect|]; [|apply setSpectrumCanvas_keeps].
  destruct (spectrogram s) as [full|] eqn:Hfull; [|apply setSpectrumCanvas_keeps].
  destruct (_ || _); [apply setSpectrumCanvas_keeps|].
  destruct (currentPixelsPerSecond env) as [ppsCss|];
    [|apply setSpectrumCanvas_keeps].
  cbv zeta.
  set (cleared := setSpectrumCanvas _ s).
  assert (Hreq : keeps s (if shouldUseHiRes cleared env ppsCss
                          then maybeRequestHiRes env vs vd ppsCss cleared
                          else cleared)).
  { destruct (shouldUseHiRes cleared env ppsCss).
    - eapply keeps_trans; [apply setSpectrumCanvas_keeps|].
      apply maybeRequestHiRes_keeps.
    - apply setSpectrumCanvas_keeps. }
  destruct (specToDraw _ _ _ _ _) as [spec|]; [|exact Hreq].
  eapply keeps_trans; [exact Hreq | apply paintSpectrogram_keeps].
Qed.

Lemma clearSpectrumCanvas_keeps env s : keeps s (clearSpectrumCanvas env s).
Proof.
  unfold clearSpectrumCanvas. destruct (spectrumCanvas s); [|apply keeps_refl].
  destruct (env_has2dContext env); apply setSpectrumCanvas_keeps.
Qed.

Lemma buildSpectrogram_quiet env ab s : quiet s (buildSpectrogram env ab s).
Proof.
  unfold buildSpectrogram. cbv zeta.
  destruct (negb (env_specEnabled env)); [keeps_by_computation|].
  set (s2 := clearSpectrumCanvas env _).
  assert (H2 : quiet s s2).
  { eapply quiet_trans; [|apply clearSpectrumCanvas_keeps]. keeps_by_computation. }
  eapply quiet_trans; [exact H2|]. keeps_by_computation.
Qed.

Lemma teardownSpectrum_quiet env s : quiet s (teardownSpectrum env s).
Proof.
  unfold teardownSpectrum.
  eapply quiet_trans; [|apply clearSpectrumCanvas_keeps]. keeps_by_computation.
Qed.

Lemma destroyAll_quiet env s : quiet s (destroyAll env s).
Proof.
  unfold destroyAll.
  eapply quiet_trans; [|apply teardownSpectrum_quiet]. keeps_by_computation.
Qed.

Lemma onWebGPUChange_quiet env b s : quiet s (onWebGPUChange env b s).
Proof.
  unfold onWebGPUChange. cbv zeta.
  destruct (env_audioBuffer env).
  - eapply quiet_trans; [|apply buildSpectrogram_quiet]. keeps_by_computation.
  - keeps_by_computation.
Qed.

Lemma onEnableSpecChange_quiet env b s : quiet s (onEnableSpecChange env b s).
Proof.
  unfold onEnableSpecChange. cbv zeta.
  destruct (negb (env_specEnabled env)); [apply teardownSpectrum_quiet|].
  destruct (env_audioBuffer env).
  - eapply quiet_trans; [|apply buildSpectrogram_quiet]. keeps_by_computation.
  - keeps_by_computation.
Qed.

Lemma resumeFull_gated env t s : gated s (resumeFull env t s).
Proof.
  unfold resumeFull. cbv zeta.
  destruct (Z.eqb_spec (token t) (spectrogramRequestId s)) as [Heq|Hne];
    cbn [negb]; [|left; apply quiet_refl].
  right. eexists. eexists.
  split; [|split; [|split; [|split; [|apply drawSpectrogram_keeps]]]];
    unfold_setters; try reflexivity. exact Heq.
Qed.

Lemma resumeHiRes_gated env t s : gated s (resumeHiRes env t s).
Proof.
  unfold resumeHiRes. cbv zeta.
  destruct (outcome t) as [spec|e]; [|left; keeps_by_computation].
  destruct (Z.eqb_spec (token t) (hiResRequestId s)) as [Heq|Hne];
    cbn [negb]; [|left; keeps_by_computation].
  right. eexists. eexists.
  split; [|split; [|split; [|split]]].
  5: { eapply quiet_trans; [apply drawSpectrogram_keeps|]. keeps_by_computation. }
  all: unfold_setters; try reflexivity. exact Heq.
Qed.

Lemma handle_gated env ev s : gated s (handle env ev s).
Proof.
  destruct ev; cbn [handle].
  - left. apply drawSpectrogram_keeps.
  - left. apply buildSpectrogram_quiet.
  - left. apply teardownSpectrum_quiet.
  - left. apply destroyAll_quiet.
  - left. apply onWebGPUChange_quiet.
  - left. apply onEnableSpecChange_quiet.
  - destruct (nth_error (suspended s) n) as [t|]; [|left; apply quiet_refl].
    set (s0 := setSuspended _ s).
    assert (H0 : spectrogramRequestId s0 = spectrogramRequestId s /\
                 hiResRequestId s0 = hiResRequestId s /\
                 installed s0 = installed s) by (repeat split).
    destruct H0 as [H1 [H2 H3]].
    assert (Hg : gated s0 (resume env t s0)).
    { unfold resume. destruct (kind t);
        [apply resumeFull_gated | apply resumeHiRes_gated]. }
    destruct Hg as [[A B C]|[inst [mid [A [B [C [D E]]]]]]].
    + left. split; [lia | lia | congruence].
    + right. exists inst, mid.
      split; [congruence|]. split; [congruence|]. split; [congruence|].
      split; [|exact E].
      rewrite D. destruct (inst_kind inst); cbn [latestToken]; assumption.
Qed.

Lemma quiet_preserves s s' :
  quiet s s' -> tokensBounded s /\ installsOrdered s ->
  tokensBounded s' /\ installsOrdered s'.
Proof.
  intros [Hf Hh Hi] [Hb Ho]. unfold tokensBounded, installsOrdered, installedTokens in *.
  rewrite Hi. split; [|exact Ho].
  intros k. specialize (Hb k). eapply Forall_impl; [|exact Hb].
  intros tok Htok. cbv beta in *. destruct k; cbn [latestToken] in *; lia.
Qed.

Lemma gated_preserves s s' :
  gated s s' -> tokensBounded s /\ installsOrdered s ->
  tokensBounded s' /\ installsOrdered s'.
Proof.
  intros [Hq|[inst [mid [Hi [Hf [Hh [Htok Hq]]]]]]] [Hb Ho].
  - now apply (quiet_preserves s s').
  - apply (quiet_preserves mid s' Hq).
    unfold tokensBounded, installsOrdered, installedTokens in *.
    rewrite Hi. split; intros k; specialize (Hb k); specialize (Ho k).
    + assert (Hold : Forall (fun tok => tok <= latestToken k mid)
                       (map inst_token
                          (filter (fun i => match inst_kind i, k with
                                            | FullTrack, FullTrack
                                            | HiRes, HiRes => true
                                            | _, _ => false
                                            end) (installed s)))).
      { eapply Forall_impl; [|exact Hb]. intros tok H. cbv beta in *.
        destruct k; cbn [latestToken] in *; lia. }
      cbn [filter]. destruct (inst_kind inst), k; cbn [map]; try exact Hold;
        constructor; try exact Hold; cbn [latestToken] in *; lia.
    + cbn [filter]. destruct (inst_kind inst) eqn:Hk, k; cbn [map];
        try exact Ho; constructor; try exact Ho;
        (eapply Forall_impl; [|exact Hb]); intros tok H; cbv beta in *;
        cbn [latestToken] in *; lia.
Qed.

Lemma run_preserves trace s :
  tokensBounded s /\ installsOrdered s ->
  tokensBounded (run trace s) /\ installsOrdered (run trace s).
Proof.
  unfold run. revert s. induction trace as [|[env ev] trace IH]; intros s Hs;
    cbn [fold_left fst snd]; [exact Hs|].
  apply IH. eapply gated_preserves; [apply handle_gated | exact Hs].
Qed.

(** ** C8: the token gate *)

Lemma initial_invariant supported canvas :
  tokensBounded (initial supported canvas) /\
  installsOrdered (initial supported canvas).
Proof. split; intros k; constructor. Qed.

(** C8. (1) A run that resumes with a token different from the latest one
    of its kind changes neither [spectrogram] nor [hiResSpec] and records
    no install.  (2) A run that resumes with the latest token installs its
    result (a failed full-track run installs [null]; a failed hi-res run
    installs nothing).  (3) Along every execution from the initial state,
    the tokens of the installs of each kind are in order: none is smaller
    than one installed before it, and none exceeds the latest token. *)
Theorem C8_token_gate :
  (forall env t s,
      token t <> latestToken (kind t) s ->
      spectrogram (resume env t s) = spectrogram s /\
      hiResSpec (resume env t s) = hiResSpec s /\
      installed (resume env t s) = installed s)
  /\
  (forall env t s,
      token t = latestToken (kind t) s ->
      match kind t, outcome t with
      | FullTrack, Ok spec =>
          spectrogram (resume env t s) = Some spec /\
          installed (resume env t s)
          = {| inst_kind := FullTrack; inst_token := token t;
               inst_spec := Some spec |} :: installed s
      | FullTrack, Throw _ =>
          spectrogram (resume env t s) = None /\
          installed (resume env t s)
          = {| inst_kind := FullTrack; inst_token := token t;
               inst_spec := None |} :: installed s
      | HiRes, Ok spec =>
          hiResSpec (resume env t s) = Some spec /\
          installed (resume env t s)
          = {| inst_kind := HiRes; inst_token := token t;
               inst_spec := Some spec |} :: installed s
      | HiRes, Throw _ =>
          hiResSpec (resume env t s) = hiResSpec s /\
          installed (resume env t s) = installed s
      end)
  /\
  (forall trace supported canvas,
      tokensBounded (run trace (initial supported canvas)) /\
      installsOrdered (run trace (initial supported canvas))).
Proof.
  split; [|split].
  - intros env t s Hstale. unfold resume.
    destruct (kind t); cbn [latestToken] in Hstale.
    + unfold resumeFull. cbv zeta.
      destruct (Z.eqb_spec (token t) (spectrogramRequestId s)); [contradiction|].
      cbn [negb]. repeat split.
    + unfold resumeHiRes. cbv zeta.
      destruct (outcome t); [|repeat split].
      destruct (Z.eqb_spec (token t) (hiResRequestId s)); [contradiction|].
      cbn [negb]. repeat split.
  - intros env t s Hfresh. unfold resume.
    destruct (kind t); cbn [latestToken] in Hfresh.
    + unfold resumeFull. cbv zeta. rewrite Hfresh, Z.eqb_refl. cbn [negb].
      match goal with
      | |- context [stateOf (drawSpectrogram ?e ?a ?b ?st)] =>
          destruct (drawSpectrogram_keeps e a b st) as [[_ _ Hi] [Hs _]]
      end.
      destruct (outcome t); rewrite Hs, Hi; split; reflexivity.
    + unfold resumeHiRes. cbv zeta.
      destruct (outcome t) as [spec|e]; [|split; reflexivity].
      rewrite Hfresh, Z.eqb_refl. cbn [negb].
      match goal with
      | |- context [stateOf (drawSpectrogram ?e ?a ?b ?st)] =>
          destruct (drawSpectrogram_keeps e a b st) as [[_ _ Hi] [_ Hh]]
      end.
      unfold_setters. rewrite Hh, Hi. split; reflexivity.
  - intros trace supported canvas. apply run_preserves, initial_invariant.
Qed.

Lemma C8_witness :
  hiResSpec (resume idleEnv finishedRun5 supersededState) = None /\
  installed (resume idleEnv finishedRun5 supersededState) = [].
Proof.
  destruct C8_token_gate as [Hstale _].
  destruct (Hstale idleEnv finishedRun5 supersededState) as [_ [Hh Hi]].
  - cbn. lia.
  - split; [exact Hh | exact Hi].
Defined.

(** ** C9: the renderer *)

Lemma HEAT_LUT_length : length HEAT_LUT = 256%nat.
Proof. unfold HEAT_LUT, buildHeatLut. now rewrite length_map, zrange_length. Qed.

Lemma lutIndex_range (v : R) : 0 <= lutIndex v <= 255.
Proof. unfold lutIndex. lia. Qed.

Lemma lut_entry_defined (v : R) :
  exists lut, nth_error HEAT_LUT (Z.to_nat (lutIndex v)) = Some lut.
Proof.
  destruct (nth_error HEAT_LUT (Z.to_nat (lutIndex v))) as [lut|] eqn:Hnth;
    [now exists lut|].
  apply nth_error_None in Hnth. rewrite HEAT_LUT_length in Hnth.
  pose proof (lutIndex_range v). lia.
Qed.






(** The one way [drawSpectrogram] fails: the page has the canvas and its
    2-D context but no container element.  The call then throws before
    [clearRect], whatever the active spectrogram is, and the canvas keeps
    its size and its pixels. *)
Lemma drawSpectrogram_without_container env vs vd s c :
  spectrumCanvas s = Some c ->
  env_has2dContext env = true ->
  env_container env = None ->
  drawSpectrogram env vs vd s = Threw (setSpectrumCanvas (Some c) s).
Proof.
  intros Hc Hctx Hnone. unfold drawSpectrogram, resizeSpectrumCanvas.
  rewrite Hc, Hctx, Hnone. reflexivity.
Qed.



(** ** C7 and C10: when a cached tile is reused, and when it is not *)

Lemma Qltb_true (a b : Q) : (a < b)%Q -> Qltb a b = true.
Proof.
  intros Hlt. unfold Qltb. destruct (Qle_bool b a) eqn:Hle; [|reflexivity].
  apply Qle_bool_iff in Hle. exfalso. exact (Qlt_not_le _ _ Hlt Hle).
Qed.

Lemma hiResMatches_covering s vs vd hop tile tileStart tileDuration :
  hiResSpec s = Some tile ->
  viewStart tile = Some tileStart ->
  viewDuration tile = Some tileDuration ->
  (Qabs (tileStart - vs) < 1 / 60)%Q ->
  (Qabs (tileDuration - vd) < 1 / 60)%Q ->
  hopSize tile = hop ->
  hiResMatches s vs vd hop = true.
Proof.
  intros Htile Hvs Hvd Hs Hd Hhop. unfold hiResMatches.
  rewrite Htile, Hvs, Hvd. cbv zeta.
  rewrite (Qltb_true _ _ Hs), (Qltb_true _ _ Hd), Hhop, Z.eqb_refl.
  reflexivity.
Qed.

Lemma hiResMatches_setSpectrumCanvas c s vs vd hop :
  hiResMatches (setSpectrumCanvas c s) vs vd hop = hiResMatches s vs vd hop.
Proof. reflexivity. Qed.

Lemma shouldUseHiRes_setSpectrumCanvas c s env ppsCss :
  shouldUseHiRes (setSpectrumCanvas c s) env ppsCss = shouldUseHiRes s env ppsCss.
Proof. reflexivity. Qed.

Lemma maybeRequestHiRes_matching env vs vd ppsCss s :
  hiResMatches s vs vd (hopTargetOf env ppsCss) = true ->
  maybeRequestHiRes env vs vd ppsCss s = s.
Proof.
  intros Hm. unfold maybeRequestHiRes.
  destruct (negb (shouldUseHiRes s env ppsCss)); [reflexivity|].
  destruct (env_audioBuffer env); [|reflexivity].
  destruct (negb (Qltb 0 _)); [reflexivity|].
  cbv zeta. now rewrite Hm.
Qed.

Lemma buildHiResSpectrogram_matching env vs vd ppsCss s :
  hiResMatches s vs vd (hopTargetOf env ppsCss) = true ->
  buildHiResSpectrogram env vs vd ppsCss s = s.
Proof.
  intros Hm. unfold buildHiResSpectrogram.
  destruct (negb (env_specEnabled env)); [reflexivity|].
  destruct (env_audioBuffer env); [|reflexivity].
  destruct (_ || _); [reflexivity|].
  destruct (hiResPending s); [reflexivity|].
  cbv zeta. now rewrite Hm.
Qed.

(** A tile that carries [viewStart] and [viewDuration] (one built by the
    WebGPU path) is reused.  Let its stored window be within 1/60 s
    (strictly) of the current view start and duration, and its hop be the
    current hop target.  Then neither [maybeRequestHiRes] nor
    [buildHiResSpectrogram] issues a build (the state, with its tokens and
    suspended runs, is unchanged), and whenever hi-res is in use at the
    current zoom, [drawSpectrogram] (in a page with the container
    element) paints the cached tile. *)
Lemma labelled_tile_reused :
  forall env s vs vd ppsCss tile tileStart tileDuration,
    hiResSpec s = Some tile ->
    viewStart tile = Some tileStart ->
    viewDuration tile = Some tileDuration ->
    (Qabs (tileStart - vs) < 1 / 60)%Q ->
    (Qabs (tileDuration - vd) < 1 / 60)%Q ->
    hopSize tile = hopTargetOf env ppsCss ->
    maybeRequestHiRes env vs vd ppsCss s = s /\
    buildHiResSpectrogram env vs vd ppsCss s = s /\
    (forall c full,
        spectrumCanvas s = Some c ->
        env_has2dContext env = true ->
        env_container env <> None ->
        spectrogram s = Some full ->
        frames full <> 0 -> bins full <> 0 ->
        currentPixelsPerSecond env = Some ppsCss ->
        shouldUseHiRes s env ppsCss = true ->
        drawSpectrogram env vs vd s
        = paintSpectrogram env tile vs vd ppsCss
            (resizeSpectrumCanvas env c)
            (setSpectrumCanvas
               (Some (clearRect (resizeSpectrumCanvas env c))) s)).
Proof.
  intros env s vs vd ppsCss tile tileStart tileDuration
         Htile Hvs Hvd Hs Hd Hhop.
  assert (Hm : hiResMatches s vs vd (hopTargetOf env ppsCss) = true)
    by (eapply hiResMatches_covering; eassumption).
  split; [now apply maybeRequestHiRes_matching|].
  split; [now apply buildHiResSpectrogram_matching|].
  intros c full Hc Hctx Hcontainer Hfull Hframes Hbins Hpps Huse.
  destruct (env_container env) as [rect|] eqn:Hrect; [|congruence].
  unfold drawSpectrogram. rewrite Hc, Hctx, Hrect, Hfull, Hpps. cbn [negb].
  apply Z.eqb_neq in Hframes, Hbins. rewrite Hframes, Hbins. cbn [orb].
  cbv zeta. rewrite shouldUseHiRes_setSpectrumCanvas, Huse.
  rewrite maybeRequestHiRes_matching
    by (rewrite hiResMatches_setSpectrumCanvas; exact Hm).
  unfold specToDraw.
  rewrite shouldUseHiRes_setSpectrumCanvas, Huse,
    hiResMatches_setSpectrumCanvas, Hm.
  cbn [andb]. unfold_setters. rewrite Htile. reflexivity.
Qed.

Example gpuTile_reused :
  maybeRequestHiRes zoomedEnv 0.5 1 (48000 / 256) tiledState = tiledState /\
  drawSpectrogram zoomedEnv 0.5 1 tiledState
  = paintSpectrogram zoomedEnv gpuTile 0.5 1 (48000 / 256)
      (resizeSpectrumCanvas zoomedEnv canvas2x2)
      (setSpectrumCanvas
         (Some (clearRect (resizeSpectrumCanvas zoomedEnv canvas2x2)))
         tiledState).
Proof.
  destruct (labelled_tile_reused zoomedEnv tiledState 0.5 1 (48000 / 256)
              gpuTile 0.5 1) as [Hmaybe [_ Hdraw]];
    try reflexivity.
  split; [exact Hmaybe|].
  apply (Hdraw canvas2x2 fullTrack); try reflexivity; discriminate.
Qed.

(** A tile without [viewStart] never matches. *)
Lemma hiResMatches_unlabelled s tile vs vd hop :
  hiResSpec s = Some tile -> viewStart tile = None ->
  hiResMatches s vs vd hop = false.
Proof. intros Hs Hv. unfold hiResMatches. now rewrite Hs, Hv. Qed.

Lemma cpu_tile_fields ab start duration hop fftSize tile :
  computeSpectrogramCPU ab start duration hop fftSize = Ok tile ->
  viewStart tile = None /\ viewDuration tile = None /\
  sliceStart tile = start /\ sliceDuration tile = duration /\
  hopSize tile = hop.
Proof.
  intros Hrun. apply computeSpectrogramCPU_ok in Hrun.
  destruct Hrun as [f [_ [_ [_ ->]]]]. repeat split.
Qed.

(** When nothing matches, nothing is pending and the debounce has passed,
    [maybeRequestHiRes] issues a build of the view widened by a quarter on
    each side. *)
Lemma maybeRequestHiRes_issues env vs vd ppsCss s ab d :
  shouldUseHiRes s env ppsCss = true ->
  env_audioBuffer env = Some ab ->
  env_audioDuration env = Some d ->
  Qltb 0 d = true ->
  (forall a b h, hiResMatches s a b h = false) ->
  hiResPending s = false ->
  Qltb (env_now env - lastHiResRequestedAt s) 120 = false ->
  env_specEnabled env = true ->
  Qeq_bool ppsCss 0 = false ->
  Qltb 0 (Qmin (vd * 1.5) d) = true ->
  maybeRequestHiRes env vs vd ppsCss s
  = setSuspended
      ({| kind := HiRes; token := hiResRequestId s + 1;
          outcome := computeSpectrogram (env_device env) ab
                       (Utils.clampQ (vs - Qmin (vd * 0.25) (d * 0.25)) 0
                                     (Qmax 0 (d - vd)))
                       (Qmin (vd * 1.5) d)
                       (hopTargetOf env ppsCss) 1024 (preferWebGPU s) |}
         :: suspended s)
      (setLastHiResRequestedAt (env_now env)
         (setHiResPending true (setHiResRequestId (hiResRequestId s + 1) s))).
Proof.
  intros Huse Hab Hd Hpos Hno Hpend Hdeb Hen Hpps Hdur.
  unfold maybeRequestHiRes, buildHiResSpectrogram.
  rewrite Huse, Hab, Hd, Hpos, !Hno, Hpend, Hdeb, Hen, Hpps, Hdur.
  reflexivity.
Qed.

(** C7, at a failing input.  Without WebGPU the hi-res build of the window
    [0.5 s, 1.5 s) with hop 256 succeeds and yields a tile covering exactly
    that window.  With that tile cached, the view on that very window and
    hop 256 the current hop target, [maybeRequestHiRes] nevertheless draws
    a new token and suspends a new build, and [drawSpectrogram] picks the
    full-track spectrogram: the tile is not reused. *)
Theorem C7_cpu_tile_not_reused :
  exists tile,
    computeSpectrogram false silence2s 0.5 1 256 1024 true = Ok tile /\
    sliceStart tile = 0.5%Q /\ sliceDuration tile = 1%Q /\
    hopSize tile = hopTargetOf zoomedEnv (48000 / 256) /\
    let s := setHiResSpec (Some tile) tiledState in
    let s' := maybeRequestHiRes zoomedEnv 0.5 1 (48000 / 256) s in
    hiResRequestId s' = hiResRequestId s + 1 /\
    length (suspended s') = S (length (suspended s)) /\
    specToDraw s zoomedEnv 0.5 1 (48000 / 256) = Some fullTrack.
Proof.
  assert (Hbuilt : exists tile,
             computeSpectrogramCPU silence2s 0.5 1 256 1024 = Ok tile)
    by (apply computeSpectrogramCPU_succeeds; vm_compute; congruence).
  destruct Hbuilt as [tile Hrun]. exists tile.
  destruct (cpu_tile_fields _ _ _ _ _ _ Hrun) as [Hvs [_ [Hss [Hsd Hhop]]]].
  split; [|split; [exact Hss | split; [exact Hsd | split; [now rewrite Hhop|]]]].
  - unfold computeSpectrogram, computeSpectrogramWebGPU. exact Hrun.
  - cbv zeta.
    assert (Hno : forall a b h,
               hiResMatches (setHiResSpec (Some tile) tiledState) a b h = false)
      by (intros; now apply hiResMatches_unlabelled with tile).
    rewrite (maybeRequestHiRes_issues zoomedEnv 0.5 1 (48000 / 256)
               (setHiResSpec (Some tile) tiledState) silence2s 2);
      try reflexivity; try exact Hno.
    split; [reflexivity|]. split; [reflexivity|].
    unfold specToDraw. rewrite Hno, andb_false_r. reflexivity.
Qed.

(** C10. A spectrogram returned by the CPU builder has neither [viewStart]
    nor [viewDuration]; held as the cached hi-res tile, it makes
    [hiResMatches] false for every view and hop, and [drawSpectrogram]
    then always picks the full-track spectrogram instead of it. *)
Theorem C10_cpu_tile_never_matches :
  forall ab start duration hop fftSize tile,
    computeSpectrogramCPU ab start duration hop fftSize = Ok tile ->
    viewStart tile = None /\
    viewDuration tile = None /\
    forall s,
      hiResSpec s = Some tile ->
      (forall vs vd hop', hiResMatches s vs vd hop' = false) /\
      (forall env vs vd ppsCss, specToDraw s env vs vd ppsCss = spectrogram s).
Proof.
  intros ab start duration hop fftSize tile Hrun.
  destruct (cpu_tile_fields _ _ _ _ _ _ Hrun) as [Hvs [Hvd _]].
  split; [exact Hvs|]. split; [exact Hvd|].
  intros s Hs.
  assert (Hno : forall vs vd hop', hiResMatches s vs vd hop' = false)
    by (intros; now apply hiResMatches_unlabelled with tile).
  split; [exact Hno|].
  intros env vs vd ppsCss. unfold specToDraw. cbv zeta.
  rewrite Hno, andb_false_r. reflexivity.
Qed.

Lemma C10_witness :
  exists tile,
    computeSpectrogramCPU clip4 0 1 1 4 = Ok tile /\
    hiResMatches (setHiResSpec (Some tile) tiledState) 0 1 1 = false.
Proof.
  destruct clip4_runs as [tile Hrun]. exists tile. split; [exact Hrun|].
  destruct (C10_cpu_tile_never_matches clip4 0 1 1 4 tile Hrun)
    as [_ [_ Hheld]].
  destruct (Hheld (setHiResSpec (Some tile) tiledState)) as [Hno _];
    [reflexivity | apply Hno].
Defined.

(** * Further properties of the modelled code *)

(** ** Reading and writing typed arrays *)

Lemma nth_zrange (n i : Z) :
  0 <= i < n -> nth (Z.to_nat i) (zrange n) 0 = i.
Proof.
  intros Hi. unfold zrange.
  rewrite (nth_indep _ 0 (Z.of_nat 0)) by (rewrite length_map, length_seq; lia).
  rewrite map_nth, seq_nth by lia. lia.
Qed.

Lemma getR_map_zrange (g : Z -> R) (n i : Z) :
  0 <= i < n -> getR (map g (zrange n)) i = g i.
Proof.
  intros Hi. unfold getR. destruct (Z.ltb_spec i 0); [lia|].
  rewrite (nth_indep _ 0%R (g 0)) by (rewrite length_map, zrange_length; lia).
  rewrite map_nth, nth_zrange by lia. reflexivity.
Qed.

Lemma setNth_length {A} (a : list A) (n : nat) (v : A) :
  length (setNth a n v) = length a.
Proof.
  revert n. induction a as [|h t IH]; intros [|n]; simpl; auto.
Qed.

Lemma setR_length (a : list R) (i : Z) (v : R) : length (setR a i v) = length a.
Proof. unfold setR. destruct (i <? 0); [reflexivity | apply setNth_length]. Qed.

Lemma setZ_length (a : list Z) (i : Z) (v : Z) : length (setZ a i v) = length a.
Proof. unfold setZ. destruct (i <? 0); [reflexivity | apply setNth_length]. Qed.

Lemma nth_setNth {A} (a : list A) (n k : nat) (v d : A) :
  nth k (setNth a n v) d
  = if (Nat.eqb k n && Nat.ltb n (length a))%bool then v else nth k a d.
Proof.
  revert n k. induction a as [|h t IH]; intros n k.
  - simpl. rewrite andb_false_r. reflexivity.
  - destruct n as [|n], k as [|k]; simpl; try reflexivity.
    rewrite IH. destruct (Nat.eqb k n); simpl; [|reflexivity].
    replace (Nat.ltb (S n) (S (length t))) with (Nat.ltb n (length t)); [reflexivity|].
    destruct (Nat.ltb_spec n (length t)), (Nat.ltb_spec (S n) (S (length t)));
      try reflexivity; lia.
Qed.

(** Reading after a store: the stored value at the stored slot when it
    exists, the old content everywhere else. *)
Lemma getR_setR (a : list R) (i k : Z) (v : R) :
  0 <= k ->
  getR (setR a i v) k
  = if (k =? i) && (i <? Z.of_nat (length a)) then v else getR a k.
Proof.
  intros Hk. unfold getR, setR.
  destruct (Z.ltb_spec k 0); [lia|].
  destruct (Z.ltb_spec i 0).
  - destruct (Z.eqb_spec k i); [lia|]. reflexivity.
  - rewrite nth_setNth.
    destruct (Z.eqb_spec k i) as [->|Hne].
    + rewrite Nat.eqb_refl. cbn [andb].
      destruct (Z.ltb_spec i (Z.of_nat (length a))),
               (Nat.ltb_spec (Z.to_nat i) (length a)); try reflexivity; lia.
    + destruct (Nat.eqb_spec (Z.to_nat k) (Z.to_nat i)); [lia|]. reflexivity.
Qed.

(** ** Frames and the analysed segment *)

Lemma frameCount_fits (segmentLen fftSize hop : Z) :
  0 < hop -> fftSize <= segmentLen ->
  (frameCount segmentLen fftSize hop - 1) * hop + fftSize <= segmentLen
  /\ segmentLen < frameCount segmentLen fftSize hop * hop + fftSize.
Proof.
  intros Hhop Hlen. unfold frameCount.
  pose proof (Z.mul_div_le (segmentLen - fftSize) hop Hhop).
  pose proof (Z.mul_succ_div_gt (segmentLen - fftSize) hop Hhop).
  nia.
Qed.

(** X1. Every frame of a returned spectrogram lies inside the clamped segment:
    the sample read for frame [frame] at offset [i] is below the segment
    length, so neither builder ever pads a frame with zeros; and one frame
    more would not fit. *)
Theorem frames_lie_inside_segment :
  forall device ab start duration hop fftSize s,
    0 < hop ->
    computeSpectrogramCPU ab start duration hop fftSize = Ok s \/
    computeSpectrogramWebGPU device ab start duration hop fftSize = Some s ->
    (forall frame i,
        0 <= frame < frames s -> 0 <= i < fftSize ->
        frame * hop + i < segmentLenOf ab start duration) /\
    segmentLenOf ab start duration < frames s * hop + fftSize.
Proof.
  intros device ab start duration hop fftSize s Hhop Hrun.
  destruct (builders_shape device ab start duration hop fftSize s Hhop Hrun)
    as [Hframes _].
  assert (Hlen : fftSize <= segmentLenOf ab start duration).
  { destruct Hrun as [Hcpu|Hgpu].
    - apply computeSpectrogramCPU_ok in Hcpu. destruct Hcpu as [f [_ [H _]]].
      exact H.
    - apply computeSpectrogramWebGPU_some in Hgpu. tauto. }
  destruct (frameCount_fits _ _ _ Hhop Hlen) as [Hfit Hnext].
  unfold frameCount in *. rewrite Hframes. split; [|exact Hnext].
  intros frame i Hframe Hi. nia.
Qed.

Lemma frames_lie_inside_segment_witness :
  exists s, computeSpectrogramCPU clip4 0 1 1 4 = Ok s /\
            segmentLenOf clip4 0 1 < frames s * 1 + 4.
Proof.
  destruct clip4_runs as [s Hs]. exists s. split; [exact Hs|].
  apply (frames_lie_inside_segment false clip4 0 1 1 4 s); [lia | now left].
Defined.

(** ** The Hann window *)

Lemma buildHann_length (fftSize : Z) :
  length (buildHann fftSize) = Z.to_nat fftSize.
Proof. unfold buildHann. now rewrite length_map, zrange_length. Qed.

Lemma buildHann_at (fftSize i : Z) :
  0 <= i < fftSize ->
  getR (buildHann fftSize) i
  = (0.5 * (1 - cos (2 * PI * IZR i / IZR (fftSize - 1))))%R.
Proof. intros Hi. unfold buildHann. now rewrite getR_map_zrange. Qed.

(** X2. The window [buildHann] returns has [fftSize] coefficients, all in
    [0,1]; it starts at 0 and, for [fftSize >= 2], it is symmetric:
    coefficient [i] equals coefficient [fftSize - 1 - i]. *)
Theorem buildHann_shape :
  forall fftSize,
    2 <= fftSize ->
    length (buildHann fftSize) = Z.to_nat fftSize /\
    Forall (fun w => (0 <= w <= 1)%R) (buildHann fftSize) /\
    getR (buildHann fftSize) 0 = 0%R /\
    (forall i, 0 <= i < fftSize ->
               getR (buildHann fftSize) (fftSize - 1 - i)
               = getR (buildHann fftSize) i).
Proof.
  intros fftSize Hsize. split; [apply buildHann_length|]. split; [|split].
  - unfold buildHann. apply Forall_forall. intros w Hw.
    apply in_map_iff in Hw. destruct Hw as [i [<- _]].
    pose proof (COS_bound (2 * PI * IZR i / IZR (fftSize - 1))). lra.
  - rewrite buildHann_at by lia.
    replace (2 * PI * 0 / IZR (fftSize - 1))%R with 0%R
      by (unfold Rdiv; ring).
    rewrite cos_0. lra.
  - intros i Hi. rewrite !buildHann_at by lia. f_equal. f_equal.
    assert (Hden : (IZR (fftSize - 1) <> 0)%R)
      by (apply not_0_IZR; lia).
    replace (2 * PI * IZR (fftSize - 1 - i) / IZR (fftSize - 1))%R
      with (2 * PI - 2 * PI * IZR i / IZR (fftSize - 1))%R
      by (rewrite !minus_IZR; field; rewrite minus_IZR in Hden; exact Hden).
    rewrite cos_minus, cos_2PI, sin_2PI. ring.
Qed.

Lemma buildHann_shape_witness :
  getR (buildHann 1024) 0 = 0%R /\
  getR (buildHann 1024) (1024 - 1 - 3) = getR (buildHann 1024) 3.
Proof.
  destruct (buildHann_shape 1024) as [_ [_ [H0 Hsym]]]; [lia|].
  split; [exact H0 | apply Hsym; lia].
Defined.

(** ** The peak and the normalised cells *)

Lemma peak_scan_spec (mags : list R) (p : R) :
  let q := fold_left (fun peak mag => if Rlt_dec peak mag then mag else peak)
                     mags p in
  (p <= q)%R /\ (forall m, In m mags -> (m <= q)%R) /\ (q = p \/ In q mags).
Proof.
  cbv zeta. revert p. induction mags as [|m mags IH]; intros p; simpl.
  - split; [lra|]. split; [intros m []|now left].
  - destruct (Rlt_dec p m) as [Hlt|Hge].
    + destruct (IH m) as [H1 [H2 H3]]. split; [lra|]. split.
      * intros x [<-|Hx]; [exact H1 | now apply H2].
      * right. destruct H3 as [->|H3]; [now left | now right].
    + destruct (IH p) as [H1 [H2 H3]]. split; [exact H1|]. split.
      * intros x [<-|Hx]; [lra | now apply H2].
      * destruct H3 as [H3|H3]; [now left | right; now right].
Qed.

Lemma normalizeCell_at_peak (peak : R) :
  (0 < peak)%R -> normalizeCell peak peak = 1%R.
Proof.
  intros Hp. unfold normalizeCell. cbv zeta.
  replace (peak / peak)%R with 1%R by (field; lra).
  assert (Hlog : (0 <= log10 (1 + 1e-12))%R).
  { unfold log10. apply Rmult_le_pos.
    - apply Rlt_le, ln_gt_1_pos. lra.
    - apply Rlt_le, Rinv_0_lt_compat, ln10_pos. }
  unfold spanDb, minDb, Utils.clamp.
  set (db := (20 * log10 (1 + 1e-12))%R) in *.
  assert (Hv : (1 <= (db - -85) / - -85)%R).
  { replace ((db - -85) / - -85)%R with (db / 85 + 1)%R by (field; lra).
    assert (0 <= db / 85)%R by (unfold db; apply Rmult_le_pos; lra). lra. }
  rewrite Rmax_right by lra. apply Rmin_left. exact Hv.
Qed.

(** X3. The normalisation pass is anchored at the top: when some magnitude
    exceeds the floor [1e-9], the peak is the largest magnitude and every
    cell holding it becomes exactly 1, so a non-silent spectrogram always
    contains a cell equal to 1. *)
Theorem normalize_peak_cell_is_one :
  forall mags,
    (exists m, In m mags /\ (1e-9 < m)%R) ->
    In (peakOf mags) mags /\
    (forall m, In m mags -> (m <= peakOf mags)%R) /\
    normalizeCell (peakOf mags) (peakOf mags) = 1%R /\
    In 1%R (normalize mags).
Proof.
  intros mags [m [Hm Hloud]].
  destruct (peak_scan_spec mags 1e-9%R) as [Hfloor [Hmax Hin]].
  fold (peakOf mags) in Hfloor, Hmax, Hin.
  assert (Hpeak : In (peakOf mags) mags).
  { destruct Hin as [Heq|Hin]; [|exact Hin].
    specialize (Hmax m Hm). lra. }
  assert (Hone : normalizeCell (peakOf mags) (peakOf mags) = 1%R)
    by (apply normalizeCell_at_peak; lra).
  split; [exact Hpeak|]. split; [exact Hmax|]. split; [exact Hone|].
  unfold normalize. rewrite <- Hone at 1. now apply in_map.
Qed.

Lemma normalize_peak_cell_is_one_witness :
  In 1%R (normalize [0.5%R; 2%R; 1%R]).
Proof.
  apply (normalize_peak_cell_is_one [0.5%R; 2%R; 1%R]).
  exists 2%R. split; [right; left; reflexivity | lra].
Defined.

(** X4. The normalisation pass preserves order: under the same peak, a larger
    magnitude never gets a smaller cell. *)
Theorem normalizeCell_monotone :
  forall peak m1 m2,
    (0 < peak)%R -> (0 <= m1 <= m2)%R ->
    (normalizeCell peak m1 <= normalizeCell peak m2)%R.
Proof.
  intros peak m1 m2 Hp [Hm1 Hm12]. unfold normalizeCell. cbv zeta.
  assert (Hinv : (0 < / peak)%R) by now apply Rinv_0_lt_compat.
  assert (Hx1 : (0 < m1 / peak + 1e-12)%R).
  { assert (0 <= m1 / peak)%R by (apply Rmult_le_pos; lra). lra. }
  assert (Hx12 : (m1 / peak + 1e-12 <= m2 / peak + 1e-12)%R).
  { assert (m1 / peak <= m2 / peak)%R
      by (apply Rmult_le_compat_r; lra). lra. }
  assert (Hln : (ln (m1 / peak + 1e-12) <= ln (m2 / peak + 1e-12))%R).
  { destruct Hx12 as [Hlt|Heq]; [|rewrite Heq; lra].
    apply Rlt_le, ln_increasing; assumption. }
  pose proof ln10_pos as H10.
  assert (Hdb : (20 * log10 (m1 / peak + 1e-12)
                 <= 20 * log10 (m2 / peak + 1e-12))%R).
  { unfold log10. apply Rmult_le_compat_l; [lra|].
    apply Rmult_le_compat_r; [|exact Hln].
    apply Rlt_le, Rinv_0_lt_compat, H10. }
  unfold Utils.clamp, spanDb, minDb.
  apply Rle_min_compat_l, Rle_max_compat_l.
  apply Rmult_le_compat_r; [|lra].
  apply Rlt_le, Rinv_0_lt_compat. lra.
Qed.

Lemma normalizeCell_monotone_witness :
  (normalizeCell 2 0.5 <= normalizeCell 2 1)%R.
Proof. apply normalizeCell_monotone; lra. Defined.

(** ** Bit reversal *)

Lemma testbit_one_high (k : Z) : 0 < k -> Z.testbit 1 k = false.
Proof. intros Hk. apply Z.bits_above_log2; simpl; lia. Qed.

Lemma reverseBits_testbit (n : nat) :
  forall x y k,
    0 <= k ->
    Z.testbit (reverseBits n x y) k
    = if k <? Z.of_nat n then Z.testbit x (Z.of_nat n - 1 - k)
      else Z.testbit y (k - Z.of_nat n).
Proof.
  induction n as [|n IH]; intros x y k Hk.
  - cbn [reverseBits]. destruct (Z.ltb_spec k (Z.of_nat 0)); [lia|].
    f_equal. lia.
  - cbn [reverseBits]. rewrite IH by exact Hk.
    destruct (Z.ltb_spec k (Z.of_nat n)) as [Hlt|Hge].
    + destruct (Z.ltb_spec k (Z.of_nat (S n))); [|lia].
      rewrite Z.shiftr_spec by lia. f_equal. lia.
    + rewrite Z.lor_spec, Z.land_spec.
      destruct (Z.eq_dec k (Z.of_nat n)) as [->|Hne].
      * replace (Z.of_nat n - Z.of_nat n) with 0 by lia.
        rewrite Z.shiftl_spec_low by lia. cbn [orb].
        destruct (Z.ltb_spec (Z.of_nat n) (Z.of_nat (S n))); [|lia].
        replace (Z.of_nat (S n) - 1 - Z.of_nat n) with 0 by lia.
        change (Z.testbit 1 0) with true. now rewrite andb_true_r.
      * rewrite Z.shiftl_spec by lia.
        rewrite (testbit_one_high (k - Z.of_nat n)) by lia.
        rewrite andb_false_r, orb_false_r.
        destruct (Z.ltb_spec k (Z.of_nat (S n))); [lia|]. f_equal. lia.
Qed.

Lemma reverseBits_range (n : nat) (x : Z) :
  0 <= reverseBits n x 0 < 2 ^ Z.of_nat n.
Proof.
  assert (Hmod : reverseBits n x 0 = reverseBits n x 0 mod 2 ^ Z.of_nat n).
  { apply Z.bits_inj'. intros k Hk.
    destruct (Z.lt_ge_cases k (Z.of_nat n)).
    - now rewrite Z.mod_pow2_bits_low by lia.
    - rewrite Z.mod_pow2_bits_high by lia.
      rewrite reverseBits_testbit by exact Hk.
      destruct (Z.ltb_spec k (Z.of_nat n)); [lia|]. apply Z.bits_0. }
  rewrite Hmod. apply Z.mod_pos_bound. apply Z.pow_pos_nonneg; lia.
Qed.

Lemma reverseBits_involutive (n : nat) (x : Z) :
  0 <= x < 2 ^ Z.of_nat n ->
  reverseBits n (reverseBits n x 0) 0 = x.
Proof.
  intros Hx. apply Z.bits_inj'. intros k Hk.
  rewrite reverseBits_testbit by exact Hk.
  destruct (Z.ltb_spec k (Z.of_nat n)) as [Hlt|Hge].
  - rewrite reverseBits_testbit by lia.
    destruct (Z.ltb_spec (Z.of_nat n - 1 - k) (Z.of_nat n)); [|lia].
    f_equal. lia.
  - rewrite Z.bits_0. symmetry.
    rewrite <- (Z.mod_small x (2 ^ Z.of_nat n)) by exact Hx.
    apply Z.mod_pow2_bits_high. lia.
Qed.

Lemma zrange_succ (m : nat) :
  zrange (Z.of_nat (S m)) = zrange (Z.of_nat m) ++ [Z.of_nat m].
Proof.
  unfold zrange. rewrite !Nat2Z.id, seq_S, map_app. reflexivity.
Qed.

Lemma bitrev_testbit (v : Z) (m : nat) (k : Z) :
  0 <= k ->
  Z.testbit (bitrev v (Z.of_nat m)) k
  = if k <? Z.of_nat m then Z.testbit v (Z.of_nat m - 1 - k) else false.
Proof.
  unfold bitrev. revert k. induction m as [|m IH]; intros k Hk.
  - change (zrange (Z.of_nat 0)) with (@nil Z). cbn [fold_left].
    rewrite Z.bits_0. destruct (Z.ltb_spec k (Z.of_nat 0)); [lia|reflexivity].
  - rewrite zrange_succ, fold_left_app. cbn [fold_left].
    rewrite Z.lor_spec, Z.land_spec.
    destruct (Z.eq_dec k 0) as [->|Hne].
    + rewrite Z.shiftl_spec_low by lia. cbn [orb].
      rewrite Z.shiftr_spec by lia.
      change (Z.testbit 1 0) with true. rewrite andb_true_r.
      destruct (Z.ltb_spec 0 (Z.of_nat (S m))); [|lia]. f_equal. lia.
    + rewrite Z.shiftl_spec by lia. rewrite IH by lia.
      rewrite (testbit_one_high k) by lia.
      rewrite andb_false_r, orb_false_r.
      destruct (Z.ltb_spec (k - 1) (Z.of_nat m)),
               (Z.ltb_spec k (Z.of_nat (S m))); try lia; try reflexivity.
      f_equal. lia.
Qed.

Lemma bitrev_reverseBits (v : Z) (m : nat) :
  bitrev v (Z.of_nat m) = reverseBits m v 0.
Proof.
  apply Z.bits_inj'. intros k Hk.
  rewrite bitrev_testbit, reverseBits_testbit by exact Hk.
  destruct (k <? Z.of_nat m); [reflexivity|]. now rewrite Z.bits_0.
Qed.

Lemma nth_map_zrange {A} (g : Z -> A) (n i : Z) (d : A) :
  0 <= i < n -> nth (Z.to_nat i) (map g (zrange n)) d = g i.
Proof.
  intros Hi.
  rewrite (nth_indep _ d (g 0)) by (rewrite length_map, zrange_length; lia).
  rewrite map_nth, nth_zrange by lia. reflexivity.
Qed.

Lemma createFFT_rev_at (levels : nat) (f : FFT) (i : Z) :
  createFFT (2 ^ Z.of_nat levels) = Ok f ->
  0 <= i < 2 ^ Z.of_nat levels ->
  nth (Z.to_nat i) (rev f) 0 = reverseBits levels i 0.
Proof.
  intros Hf Hi. unfold createFFT in Hf.
  destruct (negb _); [discriminate|]. injection Hf as <-. cbn [rev].
  rewrite Z.log2_pow2, Nat2Z.id by lia.
  now rewrite nth_map_zrange.
Qed.

(** X5. The table [rev] of [createFFT] for a size [2^levels] is a permutation
    of the indices that is its own inverse, which is what makes the
    swap-if-[j > i] pass a bit-reversal permutation; and for the size
    1024 it is the permutation the shader's [bitrev(i, LOGN)] computes. *)
Theorem bit_reversal_table :
  forall (levels : nat) (f : FFT) (i : Z),
    createFFT (2 ^ Z.of_nat levels) = Ok f ->
    0 <= i < 2 ^ Z.of_nat levels ->
    let j := nth (Z.to_nat i) (rev f) 0 in
    0 <= j < 2 ^ Z.of_nat levels /\
    nth (Z.to_nat j) (rev f) 0 = i /\
    (levels = 10%nat -> bitrev i LOGN = j).
Proof.
  intros levels f i Hf Hi. cbv zeta.
  rewrite (createFFT_rev_at levels f i Hf Hi).
  pose proof (reverseBits_range levels i) as Hj.
  split; [exact Hj|]. split.
  - rewrite (createFFT_rev_at levels f _ Hf Hj).
    now apply reverseBits_involutive.
  - intros ->. unfold LOGN. apply (bitrev_reverseBits i 10).
Qed.

Lemma bit_reversal_table_witness :
  exists f, createFFT 1024 = Ok f /\
            nth (Z.to_nat (nth 1 (rev f) 0)) (rev f) 0 = 1 /\
            bitrev 1 LOGN = nth 1 (rev f) 0.
Proof.
  destruct (createFFT 1024) as [f|e] eqn:Hf; [|discriminate Hf].
  exists f. split; [reflexivity|].
  destruct (bit_reversal_table 10 f 1) as [_ [Hinv Hgpu]];
    [exact Hf | vm_compute; split; congruence |].
  split; [exact Hinv | now apply Hgpu].
Defined.

(** ** The transform of a unit impulse *)

Lemma fold_left_invariant_in {S X} (P : S -> Prop) (f : S -> X -> S) (l : list X) :
  (forall st x, In x l -> P st -> P (f st x)) ->
  forall st, P st -> P (fold_left f l st).
Proof.
  induction l as [|x l IH]; intros Hstep st Hst; simpl; [exact Hst|].
  apply IH.
  - intros st' y Hy. apply Hstep. now right.
  - apply Hstep; [now left | exact Hst].
Qed.

Lemma in_zrange (n i : Z) : In i (zrange n) <-> 0 <= i < n.
Proof.
  unfold zrange. rewrite in_map_iff. split.
  - intros [k [<- Hk]]. apply in_seq in Hk. lia.
  - intros Hi. exists (Z.to_nat i). split; [lia|]. apply in_seq. lia.
Qed.

Lemma getR_beyond (a : list R) (k : Z) :
  Z.of_nat (length a) <= k -> getR a k = 0%R.
Proof.
  intros Hk. unfold getR. destruct (k <? 0); [reflexivity|].
  apply nth_overflow. lia.
Qed.

Lemma butterfly_sized f len i st j n :
  sized n st -> sized n (butterfly f len i st j).
Proof.
  intros [Hre Him]. unfold butterfly, sized. cbv zeta. cbn [fst snd].
  now rewrite !setR_length.
Qed.

(** Resolves reads of stored slots, then the comparisons they leave. *)
Ltac read_stores :=
  repeat (rewrite getR_setR by lia);
  repeat rewrite setR_length;
  repeat match goal with
         | |- context [Z.eqb ?a ?b] => destruct (Z.eqb_spec a b)
         | |- context [Z.ltb ?a ?b] => destruct (Z.ltb_spec a b)
         end;
  cbn [andb]; try lia; try lra.

(** A butterfly whose two slots are dark leaves the state as it is. *)
Lemma butterfly_dark f len i st j m :
  lit m st -> 0 <= m <= i + j -> 0 <= Z.shiftr len 1 ->
  lit m (butterfly f len i st j).
Proof.
  intros Hlit Hlow Hhalf k Hk. unfold butterfly. cbv zeta. cbn [fst snd].
  set (half := Z.shiftr len 1) in *.
  destruct (Hlit (i + j) ltac:(lia)) as [Hre1 Him1].
  destruct (Hlit (i + j + half) ltac:(lia)) as [Hre2 Him2].
  destruct (Hlit k Hk) as [Hrek Himk].
  destruct (Z.ltb_spec (i + j) m); [lia|].
  destruct (Z.ltb_spec (i + j + half) m); [lia|].
  rewrite Hre1, Hre2, Him1, Him2 in *.
  split; read_stores; try (rewrite Hrek); try (rewrite Himk);
    repeat match goal with
           | |- context [Z.ltb ?a ?b] => destruct (Z.ltb_spec a b)
           end; try lia; try lra.
Qed.

(** In the first block, the butterfly at [j] copies the lit slot [j] to the
    dark slot [j + half]. *)
Lemma butterfly_bright f len st j n :
  lit (Z.shiftr len 1 + j) st -> sized n st ->
  0 <= j -> 1 <= Z.shiftr len 1 -> Z.shiftr len 1 + j < n ->
  lit (Z.shiftr len 1 + j + 1) (butterfly f len 0 st j).
Proof.
  intros Hlit [Hn1 Hn2] Hj Hhalf Hin k Hk.
  unfold butterfly. cbv zeta. cbn [fst snd].
  set (half := Z.shiftr len 1) in *.
  replace (0 + j) with j by lia.
  destruct (Hlit j Hj) as [Hre1 Him1].
  destruct (Hlit (j + half) ltac:(lia)) as [Hre2 Him2].
  destruct (Hlit k Hk) as [Hrek Himk].
  destruct (Z.ltb_spec j (half + j)); [|lia].
  destruct (Z.ltb_spec (j + half) (half + j)); [lia|].
  rewrite Hre1, Hre2, Him1, Him2 in *.
  split; read_stores; try (rewrite Hrek); try (rewrite Himk);
    repeat match goal with
           | |- context [Z.ltb ?a ?b] => destruct (Z.ltb_spec a b)
           end; try lia; try lra.
Qed.

Lemma first_block_lights f len st n (m : nat) :
  lit (Z.shiftr len 1) st -> sized n st ->
  1 <= Z.shiftr len 1 -> Z.shiftr len 1 + Z.of_nat m <= n ->
  lit (Z.shiftr len 1 + Z.of_nat m)
      (fold_left (butterfly f len 0) (zrange (Z.of_nat m)) st) /\
  sized n (fold_left (butterfly f len 0) (zrange (Z.of_nat m)) st).
Proof.
  intros Hlit Hsz Hhalf. induction m as [|m IH]; intros Hm.
  - change (zrange (Z.of_nat 0)) with (@nil Z). cbn [fold_left].
    replace (Z.shiftr len 1 + Z.of_nat 0) with (Z.shiftr len 1) by lia.
    now split.
  - rewrite zrange_succ, fold_left_app. cbn [fold_left].
    destruct IH as [IHlit IHsz]; [lia|]. split.
    + replace (Z.shiftr len 1 + Z.of_nat (S m))
        with (Z.shiftr len 1 + Z.of_nat m + 1) by lia.
      apply butterfly_bright with n; try assumption; lia.
    + now apply butterfly_sized.
Qed.

Lemma zrange_head (k : Z) :
  0 < k -> exists rest, zrange k = 0 :: rest /\ Forall (fun b => 1 <= b) rest.
Proof.
  intros Hk. unfold zrange.
  destruct (Z.to_nat k) as [|m] eqn:Hm; [lia|].
  cbn [seq map]. eexists. split; [reflexivity|].
  apply Forall_forall. intros b Hb. apply in_map_iff in Hb.
  destruct Hb as [i [<- Hi]]. apply in_seq in Hi. lia.
Qed.

(** One stage doubles the lit prefix. *)
Lemma stage_doubles f st half n :
  fft_size f = n -> lit half st -> sized n st ->
  1 <= half -> 2 * half <= n ->
  lit (2 * half) (stage f st (2 * half)) /\ sized n (stage f st (2 * half)).
Proof.
  intros Hsize Hlit Hsz Hhalf Hlen.
  assert (Hshift : Z.shiftr (2 * half) 1 = half).
  { rewrite Z.shiftr_div_pow2 by lia. change (2 ^ 1) with 2.
    rewrite Z.mul_comm. apply Z.div_mul. lia. }
  unfold stage, blockStarts. rewrite Hsize, Hshift.
  destruct (zrange_head ((n + 2 * half - 1) / (2 * half))) as [rest [-> Hrest]].
  { apply Z.div_str_pos. lia. }
  cbn [map fold_left]. replace (0 * (2 * half)) with 0 by lia.
  destruct (first_block_lights f (2 * half) st n (Z.to_nat half))
    as [Hfirst Hsized]; rewrite ?Hshift, ?Z2Nat.id; try assumption; try lia.
  rewrite ?Z2Nat.id in Hfirst, Hsized by lia.
  rewrite Hshift in Hfirst.
  replace (half + half) with (2 * half) in Hfirst by lia.
  apply (fold_left_invariant_in
           (fun st' => lit (2 * half) st' /\ sized n st')); [|now split].
  intros st' i Hi [Hl Hs]. apply in_map_iff in Hi.
  destruct Hi as [b [<- Hb]].
  assert (Hb1 : 1 <= b) by exact (proj1 (Forall_forall _ rest) Hrest b Hb).
  apply (fold_left_invariant_in
           (fun st'' => lit (2 * half) st'' /\ sized n st'')); [|now split].
  intros st'' j Hj [Hl' Hs']. apply in_zrange in Hj. split.
  - apply butterfly_dark; [exact Hl' | nia | lia].
  - now apply butterfly_sized.
Qed.

Lemma stages_light_everything f (levels : nat) :
  fft_size f = 2 ^ Z.of_nat levels ->
  forall (fuel : nat) (a : Z) st,
    1 <= a <= Z.of_nat levels + 1 ->
    Z.of_nat levels + 1 - a < Z.of_nat fuel ->
    lit (2 ^ (a - 1)) st -> sized (2 ^ Z.of_nat levels) st ->
    lit (2 ^ Z.of_nat levels)
        (fold_left (stage f) (stageLens fuel (2 ^ a) (2 ^ Z.of_nat levels)) st).
Proof.
  intros Hsize. induction fuel as [|fuel IH]; intros a st Ha Hfuel Hlit Hsz.
  - lia.
  - cbn [stageLens].
    destruct (Z.leb_spec (2 ^ a) (2 ^ Z.of_nat levels)) as [Hle|Hgt].
    + assert (Hal : a <= Z.of_nat levels).
      { destruct (Z.le_gt_cases a (Z.of_nat levels)) as [|Hc]; [assumption|].
        assert (2 ^ Z.of_nat levels < 2 ^ a)
          by (apply Z.pow_lt_mono_r; lia). lia. }
      cbn [fold_left].
      assert (Hpow : 2 ^ a = 2 * 2 ^ (a - 1)).
      { replace a with (Z.succ (a - 1)) at 1 by lia.
        apply Z.pow_succ_r. lia. }
      destruct (stage_doubles f st (2 ^ (a - 1)) (2 ^ Z.of_nat levels))
        as [Hlit' Hsz']; try assumption.
      * assert (0 < 2 ^ (a - 1)) by (apply Z.pow_pos_nonneg; lia). lia.
      * lia.
      * rewrite <- Hpow in Hlit', Hsz'.
        replace (Z.shiftl (2 ^ a) 1) with (2 ^ (a + 1)).
        -- apply IH; try assumption; try lia.
           now replace (a + 1 - 1) with a by lia.
        -- rewrite Z.shiftl_mul_pow2 by lia. change (2 ^ 1) with 2.
           rewrite Z.pow_add_r by lia. reflexivity.
    + cbn [fold_left].
      assert (a = Z.of_nat levels + 1).
      { destruct (Z.eq_dec a (Z.of_nat levels + 1)); [assumption|].
        assert (2 ^ a <= 2 ^ Z.of_nat levels)
          by (apply Z.pow_le_mono_r; lia). lia. }
      subst a. now replace (Z.of_nat levels + 1 - 1) with (Z.of_nat levels) in Hlit by lia.
Qed.

Lemma reverseBits_zero (n : nat) : reverseBits n 0 0 = 0.
Proof. induction n as [|n IH]; [reflexivity | exact IH]. Qed.

Lemma swapR_length a i j : length (swapR a i j) = length a.
Proof. unfold swapR. now rewrite !setR_length. Qed.

Lemma permute_keeps_impulse f (levels : nat) st :
  createFFT (2 ^ Z.of_nat levels) = Ok f ->
  lit 1 st -> sized (2 ^ Z.of_nat levels) st ->
  lit 1 (fold_left (permuteStep f) (zrange (2 ^ Z.of_nat levels)) st) /\
  sized (2 ^ Z.of_nat levels)
        (fold_left (permuteStep f) (zrange (2 ^ Z.of_nat levels)) st).
Proof.
  intros Hf Hlit Hsz.
  apply (fold_left_invariant_in
           (fun st' => lit 1 st' /\ sized (2 ^ Z.of_nat levels) st'));
    [|now split].
  intros st' i Hi [Hl [Hs1 Hs2]]. apply in_zrange in Hi.
  unfold permuteStep. rewrite (createFFT_rev_at levels f i Hf Hi).
  destruct (Z.gtb_spec (reverseBits levels i 0) i) as [Hgt|]; [|now split].
  assert (Hi1 : 1 <= i).
  { destruct (Z.eq_dec i 0) as [->|]; [|lia].
    rewrite reverseBits_zero in Hgt. lia. }
  set (j := reverseBits levels i 0) in *.
  split.
  - intros k Hk. cbn [fst snd]. unfold swapR.
    destruct (Hl i ltac:(lia)) as [Hrei Himi].
    destruct (Hl j ltac:(lia)) as [Hrej Himj].
    destruct (Hl k Hk) as [Hrek Himk].
    destruct (Z.ltb_spec i 1); [lia|]. destruct (Z.ltb_spec j 1); [lia|].
    rewrite Hrei, Hrej, Himi, Himj.
    split; read_stores; try (rewrite Hrek); try (rewrite Himk);
      repeat match goal with
             | |- context [Z.ltb ?a ?b] => destruct (Z.ltb_spec a b)
             end; try lia; try lra.
  - split; cbn [fst snd]; now rewrite swapR_length.
Qed.

Lemma unitImpulse_lit (n : Z) :
  0 < n -> lit 1 (unitImpulse n, map (fun _ => 0%R) (zrange n)).
Proof.
  intros Hn k Hk. cbn [fst snd]. unfold unitImpulse.
  destruct (Z.lt_ge_cases k n) as [Hin|Hout].
  - rewrite !getR_map_zrange by lia.
    destruct (Z.eqb_spec k 0), (Z.ltb_spec k 1); try lia; split; reflexivity.
  - rewrite !getR_beyond by (rewrite length_map, zrange_length; lia).
    destruct (Z.ltb_spec k 1); [lia|]. split; reflexivity.
Qed.

(** X6. The transform of a unit impulse is flat: for every size [2^levels] up
    to [2^29] (the sizes for which the 32-bit [len <<= 1] of the stage loop
    stays below its wrap-around), [transform] applied to the impulse
    (1 at index 0, zeros elsewhere, zero imaginary part) returns real part
    1 and imaginary part 0 in every bin, hence magnitude 1 everywhere. *)
Theorem transform_of_unit_impulse :
  forall (levels : nat) (f : FFT),
    (levels <= 29)%nat ->
    createFFT (2 ^ Z.of_nat levels) = Ok f ->
    let n := 2 ^ Z.of_nat levels in
    let out := transform f (unitImpulse n) (map (fun _ => 0%R) (zrange n)) in
    forall b, 0 <= b < n ->
      getR (fst out) b = 1%R /\ getR (snd out) b = 0%R /\
      sqrt (getR (fst out) b * getR (fst out) b
            + getR (snd out) b * getR (snd out) b) = 1%R.
Proof.
  intros levels f Hlev Hf n out b Hb.
  assert (Hsize : fft_size f = n).
  { unfold createFFT in Hf. destruct (negb _); [discriminate|].
    now injection Hf as <-. }
  assert (Hn : 0 < n) by (apply Z.pow_pos_nonneg; lia).
  assert (Hsz : sized n (unitImpulse n, map (fun _ => 0%R) (zrange n))).
  { split; cbn [fst snd]; unfold unitImpulse;
      rewrite length_map, zrange_length; lia. }
  destruct (permute_keeps_impulse f levels _ Hf (unitImpulse_lit n Hn) Hsz)
    as [Hlit1 Hsz1].
  assert (Hall : lit n out).
  { unfold out, transform. cbv zeta. rewrite Hsize.
    change 2 with (2 ^ 1) at 1.
    apply stages_light_everything; try assumption; lia. }
  destruct (Hall b ltac:(lia)) as [Hre Him].
  destruct (Z.ltb_spec b n); [|lia].
  rewrite Hre, Him. split; [reflexivity|]. split; [reflexivity|].
  replace (1 * 1 + 0 * 0)%R with 1%R by lra. apply sqrt_1.
Qed.

Lemma transform_of_unit_impulse_witness :
  exists f, createFFT 1024 = Ok f /\
            getR (fst (transform f (unitImpulse 1024)
                         (map (fun _ => 0%R) (zrange 1024)))) 21 = 1%R.
Proof.
  destruct (createFFT 1024) as [f|e] eqn:Hf; [|discriminate Hf].
  exists f. split; [reflexivity|].
  apply (transform_of_unit_impulse 10 f); [lia | exact Hf | vm_compute; split; congruence].
Defined.

(** ** Powers of two *)

Lemma shiftl_pow2 (a : Z) : 0 <= a -> Z.shiftl (2 ^ a) 1 = 2 ^ (a + 1).
Proof.
  intros Ha. rewrite Z.shiftl_mul_pow2 by lia. rewrite Z.pow_add_r by lia.
  reflexivity.
Qed.

Lemma Qle_bool_false (x y : Q) : Qle_bool x y = false -> (y < x)%Q.
Proof.
  intros H. apply Qnot_le_lt. intros Hle.
  apply Qle_bool_iff in Hle. congruence.
Qed.

Lemma floorPow2_loop_spec (n : Q) :
  forall (fuel : nat) (a : Z),
    0 <= a ->
    exists b, a <= b <= a + Z.of_nat fuel /\
      Utils.floorPow2_loop fuel (2 ^ a) n = 2 ^ b /\
      ((inject_Z (2 ^ a) <= n)%Q -> (inject_Z (2 ^ b) <= n)%Q) /\
      ((n < inject_Z (2 ^ (a + Z.of_nat fuel + 1)))%Q ->
       (n < inject_Z (2 ^ (b + 1)))%Q) /\
      ((n < inject_Z (2 ^ (a + 1)))%Q -> b = a).
Proof.
  induction fuel as [|k IH]; intros a Ha.
  - exists a. cbn [Utils.floorPow2_loop]. rewrite Z.add_0_r.
    repeat split; auto; lia.
  - cbn [Utils.floorPow2_loop]. rewrite shiftl_pow2 by lia.
    destruct (Qle_bool (inject_Z (2 ^ (a + 1))) n) eqn:Htest.
    + apply Qle_bool_iff in Htest.
      destruct (IH (a + 1) ltac:(lia)) as (b & Hb & Hr & Hlo & Hhi & _).
      exists b. split; [lia|]. split; [exact Hr|]. split; [auto|].
      split.
      * intros Hn. apply Hhi.
        replace (a + 1 + Z.of_nat k + 1) with (a + Z.of_nat (S k) + 1) by lia.
        exact Hn.
      * intros Hn. exfalso. apply (Qlt_not_le _ _ Hn). exact Htest.
    + apply Qle_bool_false in Htest.
      exists a. repeat split; auto; lia.
Qed.

Lemma floorPow2_spec :
  forall n : Q,
    (n < inject_Z (2 ^ 30))%Q ->
    exists b, 0 <= b < 30 /\ Utils.floorPow2 n = 2 ^ b /\
      ((1 <= n)%Q ->
       (inject_Z (2 ^ b) <= n)%Q /\ (n < inject_Z (2 ^ (b + 1)))%Q) /\
      ((n < 2)%Q -> Utils.floorPow2 n = 1).
Proof.
  intros n Hn.
  destruct (floorPow2_loop_spec n 31 0 ltac:(lia))
    as (b & Hb & Hr & Hlo & Hhi & Hone).
  change (Utils.floorPow2_loop 31 (2 ^ 0) n) with (Utils.floorPow2 n) in Hr.
  assert (Hhi' : (n < inject_Z (2 ^ (b + 1)))%Q).
  { apply Hhi. eapply Qlt_trans; [exact Hn|].
    rewrite <- Zlt_Qlt. apply Z.pow_lt_mono_r; lia. }
  assert (Hb30 : b < 30).
  { destruct (Z.lt_ge_cases b 30) as [?|Hge]; [assumption|exfalso].
    destruct (Qlt_le_dec n 1) as [Hsmall|Hbig].
    - assert (b = 0); [|lia]. apply Hone.
      eapply Qlt_trans; [exact Hsmall|]. reflexivity.
    - specialize (Hlo Hbig).
      apply (Qlt_not_le _ _ Hn). eapply Qle_trans; [|exact Hlo].
      rewrite <- Zle_Qle. apply Z.pow_le_mono_r; lia. }
  exists b. split; [lia|]. split; [exact Hr|]. split.
  - intros H1. split; [apply Hlo; exact H1 | exact Hhi'].
  - intros H2. rewrite Hr, (Hone H2). reflexivity.
Qed.

(** X7. [floorPow2] returns the largest power of two that is at most [n]: for
    every [n] below [2^30] (where the 32-bit shift of the source does not
    wrap) the result is [2^b] with [0 <= b < 30]; when [1 <= n] it
    satisfies [2^b <= n < 2^(b+1)], and for every [n < 2] (zero and
    negative numbers included) it is 1. *)
Theorem floorPow2_largest_power_below :
  forall n : Q,
    (n < inject_Z (2 ^ 30))%Q ->
    exists b, 0 <= b < 30 /\ Utils.floorPow2 n = 2 ^ b /\
      ((1 <= n)%Q ->
       (inject_Z (2 ^ b) <= n)%Q /\ (n < inject_Z (2 ^ (b + 1)))%Q) /\
      ((n < 2)%Q -> Utils.floorPow2 n = 1).
Proof.
  intros n Hn.
  destruct (floorPow2_loop_spec n 31 0 ltac:(lia))
    as (b & Hb & Hr & Hlo & Hhi & Hone).
  change (Utils.floorPow2_loop 31 (2 ^ 0) n) with (Utils.floorPow2 n) in Hr.
  assert (Hhi' : (n < inject_Z (2 ^ (b + 1)))%Q).
  { apply Hhi. eapply Qlt_trans; [exact Hn|].
    rewrite <- Zlt_Qlt. apply Z.pow_lt_mono_r; lia. }
  assert (Hb30 : b < 30).
  { destruct (Z.lt_ge_cases b 30) as [?|Hge]; [assumption|exfalso].
    destruct (Qlt_le_dec n 1) as [Hsmall|Hbig].
    - assert (b = 0); [|lia]. apply Hone.
      eapply Qlt_trans; [exact Hsmall|]. reflexivity.
    - specialize (Hlo Hbig).
      apply (Qlt_not_le _ _ Hn). eapply Qle_trans; [|exact Hlo].
      rewrite <- Zle_Qle. apply Z.pow_le_mono_r; lia. }
  exists b. split; [lia|]. split; [exact Hr|]. split.
  - intros H1. split; [apply Hlo; exact H1 | exact Hhi'].
  - intros H2. rewrite Hr, (Hone H2). reflexivity.
Qed.

Lemma floorPow2_largest_power_below_witness :
  exists b, 0 <= b < 30 /\ Utils.floorPow2 (48000 / 256) = 2 ^ b.
Proof.
  destruct (floorPow2_largest_power_below (48000 / 256) ltac:(reflexivity))
    as (b & Hb & Hr & _).
  exists b. split; assumption.
Defined.

Lemma nearestPow2_loop_spec (n : Q) :
  forall (fuel : nat) (a : Z),
    0 <= a ->
    exists b, a <= b <= a + Z.of_nat fuel /\
      nearestPow2_loop fuel (2 ^ a) n = 2 ^ b /\
      ((n <= inject_Z (2 ^ (a + Z.of_nat fuel)))%Q ->
       (n <= inject_Z (2 ^ b))%Q) /\
      (a < b -> (inject_Z (2 ^ (b - 1)) < n)%Q) /\
      ((n <= inject_Z (2 ^ a))%Q -> b = a).
Proof.
  induction fuel as [|k IH]; intros a Ha.
  - exists a. cbn [nearestPow2_loop]. rewrite Z.add_0_r.
    repeat split; auto; lia.
  - cbn [nearestPow2_loop]. rewrite shiftl_pow2 by lia. unfold Qltb.
    destruct (Qle_bool n (inject_Z (2 ^ a))) eqn:Htest; cbn [negb].
    + apply Qle_bool_iff in Htest.
      exists a. repeat split; auto; lia.
    + apply Qle_bool_false in Htest.
      destruct (IH (a + 1) ltac:(lia)) as (b & Hb & Hr & Hhi & Hlo & _).
      exists b. split; [lia|]. split; [exact Hr|]. split.
      * intros Hn. apply Hhi.
        replace (a + 1 + Z.of_nat k) with (a + Z.of_nat (S k)) by lia.
        exact Hn.
      * split.
        -- intros _. destruct (Z.eq_dec b (a + 1)) as [->|Hne].
           ++ replace (a + 1 - 1) with a by lia. exact Htest.
           ++ apply Hlo. lia.
        -- intros Hn. exfalso. apply (Qlt_not_le _ _ Htest). exact Hn.
Qed.

(** X8. [nearestPow2] returns the smallest power of two that is at least [n]:
    for every [n] up to [2^30] the result is [2^b] with [0 <= b <= 30] and
    [n <= 2^b]; when [1 < n] the next smaller power is too small,
    [2^(b-1) < n]; and for every [n <= 1] the result is 1. *)
Theorem nearestPow2_smallest_power_above :
  forall n : Q,
    (n <= inject_Z (2 ^ 30))%Q ->
    exists b, 0 <= b <= 30 /\ nearestPow2 n = 2 ^ b /\
      (n <= inject_Z (2 ^ b))%Q /\
      ((1 < n)%Q -> 0 < b /\ (inject_Z (2 ^ (b - 1)) < n)%Q) /\
      ((n <= 1)%Q -> nearestPow2 n = 1).
Proof.
  intros n Hn.
  destruct (nearestPow2_loop_spec n 30 0 ltac:(lia))
    as (b & Hb & Hr & Hhi & Hlo & Hone).
  change (nearestPow2_loop 30 (2 ^ 0) n) with (nearestPow2 n) in Hr.
  exists b. split; [lia|]. split; [exact Hr|]. split; [apply Hhi; exact Hn|].
  split.
  - intros H1.
    assert (Hpos : 0 < b).
    { destruct (Z.eq_dec b 0) as [->|]; [|lia]. exfalso.
      apply (Qlt_not_le _ _ H1). apply (Hhi Hn). }
    split; [exact Hpos | apply Hlo; exact Hpos].
  - intros H1. rewrite Hr, (Hone H1). reflexivity.
Qed.

Lemma nearestPow2_smallest_power_above_witness :
  exists b, 0 <= b <= 30 /\ nearestPow2 1000 = 2 ^ b /\
            (1000 <= inject_Z (2 ^ b))%Q.
Proof.
  destruct (nearestPow2_smallest_power_above 1000 ltac:(discriminate))
    as (b & Hb & Hr & Hle & _).
  exists b. repeat split; try assumption; lia.
Defined.

(** X9. The hop size requested for a hi-res tile,
    [Math.max(32, Math.min(4096, floorPow2(sr / ppsCss)))], is always one
    of the powers of two 32, 64, ..., 4096.  With [x = sr / ppsCss] the
    number of samples under one CSS pixel ([x < 2^30]): when [32 <= x] a
    hop spans at most one pixel, and when [x < 8192] it spans more than
    half a pixel. *)
Theorem hop_target_is_a_clamped_power_of_two :
  forall (env : Env) (ppsCss : Q),
    let x := (inject_Z (getSampleRate env) / ppsCss)%Q in
    (x < inject_Z (2 ^ 30))%Q ->
    exists a, 5 <= a <= 12 /\ hopTargetOf env ppsCss = 2 ^ a /\
      ((32 <= x)%Q -> (inject_Z (hopTargetOf env ppsCss) <= x)%Q) /\
      ((x < 8192)%Q -> (x < inject_Z (2 * hopTargetOf env ppsCss))%Q).
Proof.
  intros env ppsCss x Hx.
  destruct (floorPow2_spec x Hx) as (b & Hb & Hr & Hin & Hone).
  unfold hopTargetOf. fold x. rewrite Hr.
  assert (H5 : 2 ^ 5 = 32) by reflexivity.
  assert (H12 : 2 ^ 12 = 4096) by reflexivity.
  assert (Hx1 : (1 <= x)%Q -> (inject_Z (2 ^ b) <= x)%Q /\
                               (x < inject_Z (2 * 2 ^ b))%Q).
  { intros H1. destruct (Hin H1) as [Hlo Hhi]. split; [exact Hlo|].
    rewrite Z.pow_add_r in Hhi by lia. rewrite Z.mul_comm. exact Hhi. }
  destruct (Z.lt_ge_cases b 5) as [Hlow|Hge5].
  - assert (Hp : 2 * 2 ^ b <= 32).
    { change 32 with (2 * 2 ^ 4). apply Z.mul_le_mono_nonneg_l; [lia|].
      apply Z.pow_le_mono_r; lia. }
    exists 5. split; [lia|].
    replace (Z.max 32 (Z.min 4096 (2 ^ b))) with 32 by lia.
    split; [reflexivity|]. split.
    + intros H32. exfalso.
      destruct Hx1 as [_ Hhi].
      { eapply Qle_trans; [|exact H32]. discriminate. }
      apply (Qlt_not_le _ _ Hhi). eapply Qle_trans; [|exact H32].
      change 32%Q with (inject_Z 32). rewrite <- Zle_Qle. lia.
    + intros _. destruct (Qlt_le_dec x 1) as [Hs|Hb1].
      * eapply Qlt_trans; [exact Hs|]. reflexivity.
      * destruct (Hx1 Hb1) as [_ Hhi]. eapply Qlt_le_trans; [exact Hhi|].
        rewrite <- Zle_Qle. lia.
  - destruct (Z.le_gt_cases b 12) as [Hle12|Hgt12].
    + assert (Hp : 32 <= 2 ^ b <= 4096).
      { rewrite <- H5, <- H12. split; apply Z.pow_le_mono_r; lia. }
      exists b. split; [lia|].
      replace (Z.max 32 (Z.min 4096 (2 ^ b))) with (2 ^ b) by lia.
      split; [reflexivity|]. split.
      * intros H32. apply Hx1. eapply Qle_trans; [|exact H32]. discriminate.
      * intros _. destruct (Qlt_le_dec x 1) as [Hs|Hb1].
        -- eapply Qlt_trans; [exact Hs|].
           change 1%Q with (inject_Z 1). rewrite <- Zlt_Qlt. lia.
        -- apply Hx1. exact Hb1.
    + assert (Hp : 4096 < 2 ^ b).
      { rewrite <- H12. apply Z.pow_lt_mono_r; lia. }
      assert (Hp' : 8192 <= 2 ^ b).
      { change 8192 with (2 ^ 13). apply Z.pow_le_mono_r; lia. }
      exists 12. split; [lia|].
      replace (Z.max 32 (Z.min 4096 (2 ^ b))) with 4096 by lia.
      split; [reflexivity|].
      assert (H1 : (1 <= x)%Q).
      { destruct (Qlt_le_dec x 1) as [Hs|Hb1]; [|exact Hb1].
        exfalso. assert (Utils.floorPow2 x = 1).
        { apply Hone. eapply Qlt_trans; [exact Hs|]. reflexivity. }
        lia. }
      destruct (Hx1 H1) as [Hlo _]. split.
      * intros _. eapply Qle_trans; [|exact Hlo]. rewrite <- Zle_Qle. lia.
      * intros H8. exfalso. apply (Qlt_not_le _ _ H8).
        eapply Qle_trans; [|exact Hlo].
        change 8192%Q with (inject_Z 8192). rewrite <- Zle_Qle. exact Hp'.
Qed.

Lemma hop_target_is_a_clamped_power_of_two_witness :
  exists a, 5 <= a <= 12 /\ hopTargetOf zoomedEnv (48000 / 256) = 2 ^ a.
Proof.
  destruct (hop_target_is_a_clamped_power_of_two zoomedEnv (48000 / 256)
              ltac:(reflexivity)) as (a & Ha & Hr & _).
  exists a. split; assumption.
Defined.

(** ** The bi-log mapping on every slider *)

Lemma Rpower_ge_1 (b p : R) : (1 <= b)%R -> (0 <= p)%R -> (1 <= Rpower b p)%R.
Proof.
  intros Hb Hp. rewrite <- (Rpower_O b) by lra. now apply Rle_Rpower.
Qed.

Lemma clamp_range (v lo hi : R) :
  (lo <= hi)%R -> (lo <= Utils.clamp v lo hi <= hi)%R.
Proof.
  intros H. unfold Utils.clamp, Rmin, Rmax.
  destruct (Rle_dec lo v); destruct (Rle_dec hi _); lra.
Qed.

Lemma clamp_monotone (v w lo hi : R) :
  (v <= w)%R -> (Utils.clamp v lo hi <= Utils.clamp w lo hi)%R.
Proof.
  intros H. unfold Utils.clamp.
  apply Rle_min_compat_l, Rle_max_compat_l, H.
Qed.

(** The two branches of [factorFromSlider], position by position. *)
Lemma factorFromSlider_lower (map : Utils.BiLogMap) (v : R) :
  (0 <= v <= IZR (Utils.steps map))%R -> (v < Utils.mid map)%R ->
  Utils.factorFromSlider v map
  = (Utils.min map * Rpower (1 / Utils.min map) (v / Utils.mid map))%R.
Proof.
  intros Hv Hlt. unfold Utils.factorFromSlider. cbv zeta.
  rewrite clamp_inside by exact Hv.
  destruct (Req_dec_T v (Utils.mid map)); [lra|].
  destruct (Rlt_dec v (Utils.mid map)); [reflexivity|lra].
Qed.

Lemma factorFromSlider_upper (map : Utils.BiLogMap) (v : R) :
  (0 <= v <= IZR (Utils.steps map))%R -> (Utils.mid map < v)%R ->
  Utils.factorFromSlider v map
  = Rpower (Utils.max map) ((v - Utils.mid map) / Utils.mid map).
Proof.
  intros Hv Hlt. unfold Utils.factorFromSlider. cbv zeta.
  rewrite clamp_inside by exact Hv.
  destruct (Req_dec_T v (Utils.mid map)); [lra|].
  destruct (Rlt_dec v (Utils.mid map)); [lra|reflexivity].
Qed.

Lemma factorFromSlider_middle (map : Utils.BiLogMap) :
  (0 <= Utils.mid map <= IZR (Utils.steps map))%R ->
  Utils.factorFromSlider (Utils.mid map) map = 1%R.
Proof.
  intros Hv. unfold Utils.factorFromSlider. cbv zeta.
  rewrite clamp_inside by exact Hv.
  destruct (Req_dec_T (Utils.mid map) (Utils.mid map)); [reflexivity|lra].
Qed.

Lemma factorFromSlider_clamps (map : Utils.BiLogMap) (v : R) :
  Utils.factorFromSlider v map
  = Utils.factorFromSlider (Utils.clamp v 0 (IZR (Utils.steps map))) map.
Proof.
  unfold Utils.factorFromSlider. cbv zeta.
  destruct (Rle_dec 0 (IZR (Utils.steps map))) as [Hs|Hs].
  - now rewrite (clamp_inside (Utils.clamp v 0 _)) by (apply clamp_range; lra).
  - assert (Hc : forall x, Utils.clamp x 0 (IZR (Utils.steps map))
                           = IZR (Utils.steps map)).
    { intros x. unfold Utils.clamp, Rmin, Rmax.
      destruct (Rle_dec 0 x); destruct (Rle_dec _ _); lra. }
    now rewrite !Hc.
Qed.

Section BiLog.
Variables (mn mx : R) (st : Z).
Hypothesis Hmn : (0 < mn <= 1)%R.
Hypothesis Hmx : (1 <= mx)%R.
Hypothesis Hst : 0 < st.

Let map := Utils.createBiLogMapping mn mx st.

Lemma bilog_mid_pos : (0 < Utils.mid map)%R.
Proof.
  unfold map, Utils.createBiLogMapping. cbn [Utils.mid].
  assert (0 < IZR st)%R by (apply IZR_lt; lia). lra.
Qed.

Lemma bilog_steps : IZR (Utils.steps map) = (2 * Utils.mid map)%R.
Proof. unfold map, Utils.createBiLogMapping. cbn [Utils.mid Utils.steps]. lra. Qed.

Lemma bilog_base : (1 <= 1 / mn)%R.
Proof.
  destruct Hmn as [Hpos Hle].
  apply Rmult_le_reg_r with mn; [exact Hpos|].
  unfold Rdiv. rewrite Rmult_assoc, Rinv_l by lra. lra.
Qed.

Lemma bilog_lower_range (v : R) :
  (0 <= v <= IZR (Utils.steps map))%R -> (v < Utils.mid map)%R ->
  (mn <= Utils.factorFromSlider v map <= 1)%R.
Proof.
  intros Hv Hlt. pose proof bilog_mid_pos as Hmid. pose proof bilog_base as Hb.
  rewrite factorFromSlider_lower by assumption.
  change (Utils.min map) with mn.
  assert (Hp : (0 <= v / Utils.mid map <= 1)%R).
  { split.
    - apply Rmult_le_pos; [lra|]. apply Rlt_le, Rinv_0_lt_compat, Hmid.
    - apply Rmult_le_reg_r with (Utils.mid map); [exact Hmid|].
      unfold Rdiv. rewrite Rmult_assoc, Rinv_l; lra. }
  assert (H1 : (1 <= Rpower (1 / mn) (v / Utils.mid map))%R)
    by (apply Rpower_ge_1; lra).
  assert (H2 : (Rpower (1 / mn) (v / Utils.mid map) <= 1 / mn)%R).
  { rewrite <- (Rpower_1 (1 / mn)) at 2 by lra. apply Rle_Rpower; lra. }
  destruct Hmn as [Hpos Hle]. split; [nra|].
  apply Rmult_le_compat_l with (r := mn) in H2; [|lra].
  replace (mn * (1 / mn))%R with 1%R in H2 by (field; lra). exact H2.
Qed.

Lemma bilog_upper_range (v : R) :
  (0 <= v <= IZR (Utils.steps map))%R -> (Utils.mid map < v)%R ->
  (1 <= Utils.factorFromSlider v map <= mx)%R.
Proof.
  intros Hv Hlt. pose proof bilog_mid_pos as Hmid.
  pose proof bilog_steps as Hsteps.
  rewrite factorFromSlider_upper by assumption.
  change (Utils.max map) with mx.
  assert (Hp : (0 <= (v - Utils.mid map) / Utils.mid map <= 1)%R).
  { split.
    - apply Rmult_le_pos; [lra|]. apply Rlt_le, Rinv_0_lt_compat, Hmid.
    - apply Rmult_le_reg_r with (Utils.mid map); [exact Hmid|].
      unfold Rdiv. rewrite Rmult_assoc, Rinv_l; lra. }
  split; [apply Rpower_ge_1; lra|].
  rewrite <- (Rpower_1 mx) at 2 by lra. apply Rle_Rpower; lra.
Qed.

Lemma bilog_inside_monotone (v w : R) :
  (0 <= v <= IZR (Utils.steps map))%R ->
  (0 <= w <= IZR (Utils.steps map))%R -> (v <= w)%R ->
  (Utils.factorFromSlider v map <= Utils.factorFromSlider w map)%R.
Proof.
  intros Hv Hw Hvw. pose proof bilog_mid_pos as Hmid.
  pose proof bilog_steps as Hsteps. pose proof bilog_base as Hb.
  assert (Hmidin : (0 <= Utils.mid map <= IZR (Utils.steps map))%R) by lra.
  destruct (Rtotal_order v (Utils.mid map)) as [Hv1|[Hv1|Hv1]];
    destruct (Rtotal_order w (Utils.mid map)) as [Hw1|[Hw1|Hw1]];
    try lra; subst;
    rewrite ?factorFromSlider_middle by exact Hmidin;
    try pose proof (bilog_lower_range v Hv Hv1);
    try pose proof (bilog_upper_range w Hw Hw1);
    try lra.
  - rewrite !factorFromSlider_lower by assumption.
    change (Utils.min map) with mn.
    apply Rmult_le_compat_l; [lra|]. apply Rle_Rpower; [exact Hb|].
    apply Rmult_le_compat_r; [|exact Hvw].
    apply Rlt_le, Rinv_0_lt_compat, Hmid.
  - rewrite !factorFromSlider_upper by assumption.
    change (Utils.max map) with mx.
    apply Rle_Rpower; [exact Hmx|].
    apply Rmult_le_compat_r; [|lra].
    apply Rlt_le, Rinv_0_lt_compat, Hmid.
Qed.

Lemma bilog_range (v : R) :
  (0 <= v <= IZR (Utils.steps map))%R ->
  (mn <= Utils.factorFromSlider v map <= mx)%R.
Proof.
  intros Hv. pose proof bilog_mid_pos as Hmid.
  pose proof bilog_steps as Hsteps.
  destruct (Rtotal_order v (Utils.mid map)) as [Hv1|[Hv1|Hv1]].
  - pose proof (bilog_lower_range v Hv Hv1). lra.
  - subst. rewrite factorFromSlider_middle by lra. lra.
  - pose proof (bilog_upper_range v Hv Hv1). lra.
Qed.

Lemma bilog_ends :
  Utils.factorFromSlider 0 map = mn /\
  Utils.factorFromSlider (IZR (Utils.steps map)) map = mx.
Proof.
  pose proof bilog_mid_pos as Hmid. pose proof bilog_steps as Hsteps.
  split.
  - rewrite factorFromSlider_lower by lra. change (Utils.min map) with mn.
    replace (0 / Utils.mid map)%R with 0%R by (field; lra).
    rewrite Rpower_O; [lra|]. pose proof bilog_base. lra.
  - rewrite factorFromSlider_upper by lra. change (Utils.max map) with mx.
    replace ((IZR (Utils.steps map) - Utils.mid map) / Utils.mid map)%R
      with 1%R by (rewrite Hsteps; field; lra).
    apply Rpower_1. lra.
Qed.

End BiLog.

(** X10. [factorFromSlider] on a mapping made by [createBiLogMapping] with
    [0 < min <= 1 <= max] and a positive number of steps: whatever the
    slider value (out-of-range values are clamped), the factor lies in
    [[min, max]]; the two ends of the track give exactly [min] and [max],
    the middle gives exactly 1; and the factor never decreases when the
    value grows. *)
Theorem factorFromSlider_range_ends_and_order :
  forall (mn mx : R) (st : Z),
    (0 < mn <= 1)%R -> (1 <= mx)%R -> 0 < st ->
    let map := Utils.createBiLogMapping mn mx st in
    (forall v, (mn <= Utils.factorFromSlider v map <= mx)%R) /\
    Utils.factorFromSlider 0 map = mn /\
    Utils.factorFromSlider (IZR st) map = mx /\
    Utils.factorFromSlider (IZR st / 2) map = 1%R /\
    (forall v w, (v <= w)%R ->
       (Utils.factorFromSlider v map <= Utils.factorFromSlider w map)%R).
Proof.
  intros mn mx st Hmn Hmx Hst map.
  assert (Hs : (0 <= IZR (Utils.steps map))%R).
  { change (Utils.steps map) with st. apply IZR_le. lia. }
  split; [|split; [|split; [|split]]].
  - intros v. rewrite factorFromSlider_clamps.
    apply bilog_range; try assumption. apply clamp_range, Hs.
  - apply (bilog_ends mn mx st); assumption.
  - apply (bilog_ends mn mx st); assumption.
  - change (IZR st / 2)%R with (Utils.mid map).
    apply factorFromSlider_middle.
    pose proof (bilog_mid_pos mn mx st Hst).
    pose proof (bilog_steps mn mx st). fold map in H, H0. lra.
  - intros v w Hvw.
    rewrite (factorFromSlider_clamps map v), (factorFromSlider_clamps map w).
    apply bilog_inside_monotone; try assumption;
      try (apply clamp_range, Hs).
    apply clamp_monotone, Hvw.
Qed.

Lemma factorFromSlider_range_ends_and_order_witness :
  Utils.factorFromSlider 0 UIControls.rateMap = 0.0625%R /\
  Utils.factorFromSlider 200 UIControls.rateMap = 16%R.
Proof.
  destruct (factorFromSlider_range_ends_and_order 0.0625 16 200)
    as (_ & H0 & H1 & _); [lra | lra | lia |].
  split; [exact H0 | exact H1].
Defined.

(** ** Thumb positions survive the round trip *)

Lemma ln_Rpower_ratio (b p : R) :
  (1 < b)%R -> (ln (Rpower b p) / ln b)%R = p.
Proof.
  intros Hb. rewrite ln_Rpower. field.
  pose proof (ln_gt_1_pos b Hb). lra.
Qed.

(** One step away from the middle the zoom slider is already far outside
    the [1e-12] tolerance of [sliderFromFactor]: the factors there are
    [8^(-1/100)] and [256^(1/100)]. *)
Lemma zoom_neighbours_of_middle :
  (Utils.factorFromSlider 99 UIControls.zoomMap <= 1 - 1e-12)%R /\
  (1 + 1e-12 <= Utils.factorFromSlider 101 UIControls.zoomMap)%R.
Proof.
  split.
  - rewrite factorFromSlider_lower
      by (rewrite ?zoom_steps, ?zoom_mid; lra).
    rewrite zoom_min, zoom_mid.
    replace (1 / / 8)%R with 8%R by (field; lra).
    assert (Hroot : (1.02 <= Rpower 8 (/ INR 100))%R)
      by (apply Rpower_root_ge; [lia | lra | lra]).
    assert (Hsplit : (Rpower 8 (99 / 100) * Rpower 8 (/ INR 100) = 8)%R).
    { rewrite <- Rpower_plus.
      replace (99 / 100 + / INR 100)%R with 1%R by (simpl; lra).
      apply Rpower_1. lra. }
    assert (Hpos : (0 < Rpower 8 (99 / 100))%R) by apply exp_pos.
    nra.
  - rewrite factorFromSlider_upper
      by (rewrite ?zoom_steps, ?zoom_mid; lra).
    rewrite zoom_max, zoom_mid.
    replace ((101 - 100) / 100)%R with (/ INR 100)%R by (simpl; lra).
    assert (Hroot : (1.02 <= Rpower 256 (/ INR 100))%R)
      by (apply Rpower_root_ge; [lia | lra | lra]).
    lra.
Qed.

(** X11. Every integer thumb position is a fixed point of the two mappings.
    For a mapping made by [createBiLogMapping] with [0 < min < 1 < max] and
    an even number [2h] of steps, on which the positions next to the middle
    already give factors outside the [1e-12] tolerance that
    [sliderFromFactor] treats as 1x: for every integer position
    [0 <= v <= 2h], [sliderFromFactor(factorFromSlider(v)) = v]. *)
Theorem sliderFromFactor_inverts_factorFromSlider :
  forall (mn mx : R) (h v : Z),
    (0 < mn < 1)%R -> (1 < mx)%R -> 0 < h ->
    let map := Utils.createBiLogMapping mn mx (2 * h) in
    (Utils.factorFromSlider (IZR (h - 1)) map <= 1 - 1e-12)%R ->
    (1 + 1e-12 <= Utils.factorFromSlider (IZR (h + 1)) map)%R ->
    0 <= v <= 2 * h ->
    Utils.sliderFromFactor (Utils.factorFromSlider (IZR v) map) map = v.
Proof.
  intros mn mx h v Hmn Hmx Hh map Hbelow Habove Hv.
  assert (Hmid : Utils.mid map = IZR h).
  { unfold map, Utils.createBiLogMapping. cbn [Utils.mid].
    rewrite mult_IZR. lra. }
  assert (Hsteps : IZR (Utils.steps map) = (2 * IZR h)%R).
  { change (Utils.steps map) with (2 * h). now rewrite mult_IZR. }
  assert (HhR : (0 < IZR h)%R) by (apply IZR_lt; lia).
  assert (Hin : forall z, 0 <= z <= 2 * h ->
                          (0 <= IZR z <= IZR (Utils.steps map))%R).
  { intros z Hz. rewrite Hsteps, <- mult_IZR. split; apply IZR_le; lia. }
  assert (Hrange := bilog_range mn mx (2 * h) ltac:(lra) ltac:(lra)
                      ltac:(lia) (IZR v) (Hin v Hv)).
  fold map in Hrange.
  assert (Hmono := bilog_inside_monotone mn mx (2 * h) ltac:(lra) ltac:(lra)
                     ltac:(lia)).
  fold map in Hmono.
  unfold Utils.sliderFromFactor. cbv zeta.
  change (Utils.min map) with mn. change (Utils.max map) with mx.
  rewrite clamp_inside by exact Hrange. rewrite Hmid.
  destruct (Z.lt_trichotomy v h) as [Hlt|[Heq|Hgt]].
  - (* below the middle *)
    assert (Hf : (Utils.factorFromSlider (IZR v) map <= 1 - 1e-12)%R).
    { eapply Rle_trans; [|exact Hbelow].
      apply Hmono; try (apply Hin; lia). apply IZR_le. lia. }
    destruct (Rlt_dec _ _) as [Hnear|_].
    { exfalso. apply Rabs_def2 in Hnear. lra. }
    destruct (Rlt_dec _ 1) as [_|Hno]; [|lra].
    rewrite factorFromSlider_lower
      by (try (apply Hin; lia); rewrite Hmid; apply IZR_lt; lia).
    change (Utils.min map) with mn. rewrite Hmid.
    replace (mn * Rpower (1 / mn) (IZR v / IZR h) / mn)%R
      with (Rpower (1 / mn) (IZR v / IZR h)) by (field; lra).
    rewrite ln_Rpower_ratio.
    + replace (IZR v / IZR h * IZR h)%R with (IZR v) by (field; lra).
      apply roundR_IZR.
    + apply Rmult_lt_reg_r with mn; [lra|].
      unfold Rdiv. rewrite Rmult_assoc, Rinv_l; lra.
  - (* at the middle *)
    subst v. rewrite <- Hmid.
    rewrite factorFromSlider_middle by (rewrite Hmid; apply Hin; lia).
    destruct (Rlt_dec _ _) as [_|Hfar].
    + rewrite Hmid. apply roundR_IZR.
    + exfalso. apply Hfar. replace (1 - 1)%R with 0%R by lra.
      rewrite Rabs_R0. lra.
  - (* above the middle *)
    assert (Hf : (1 + 1e-12 <= Utils.factorFromSlider (IZR v) map)%R).
    { eapply Rle_trans; [exact Habove|].
      apply Hmono; try (apply Hin; lia). apply IZR_le. lia. }
    destruct (Rlt_dec _ _) as [Hnear|_].
    { exfalso. apply Rabs_def2 in Hnear. lra. }
    destruct (Rlt_dec _ 1) as [Hno|_]; [lra|].
    rewrite factorFromSlider_upper
      by (try (apply Hin; lia); rewrite Hmid; apply IZR_lt; lia).
    change (Utils.max map) with mx. rewrite Hmid.
    rewrite ln_Rpower_ratio by lra.
    replace (IZR h + (IZR v - IZR h) / IZR h * IZR h)%R with (IZR v)
      by (field; lra).
    apply roundR_IZR.
Qed.

Lemma sliderFromFactor_inverts_factorFromSlider_witness :
  Utils.sliderFromFactor
    (Utils.factorFromSlider 37 UIControls.zoomMap) UIControls.zoomMap = 37.
Proof.
  apply (sliderFromFactor_inverts_factorFromSlider 0.125 256 100 37);
    [lra | lra | lia | apply zoom_neighbours_of_middle
     | apply zoom_neighbours_of_middle | lia].
Defined.

(** ** The builder runs in flight *)

Lemma grows_refl s : grows s s.
Proof. apply grows_calm; try reflexivity; lia. Qed.

Ltac calm_by_computation :=
  apply grows_calm; unfold_setters; try reflexivity; try lia.

Lemma buildHiResSpectrogram_grows env vs vd ppsCss s :
  grows s (buildHiResSpectrogram env vs vd ppsCss s).
Proof.
  unfold buildHiResSpectrogram.
  destruct (negb (env_specEnabled env)); [apply grows_refl|].
  destruct (env_audioBuffer env); [|apply grows_refl].
  destruct (_ || _); [apply grows_refl|].
  destruct (hiResPending s) eqn:Hpend; [apply grows_refl|].
  destruct (hiResMatches _ _ _ _); [apply grows_refl|].
  cbv zeta. eapply grows_hi; unfold_setters; try reflexivity;
    cbn [kind token]; try lia; try reflexivity. exact Hpend.
Qed.

Lemma maybeRequestHiRes_grows env vs vd ppsCss s :
  grows s (maybeRequestHiRes env vs vd ppsCss s).
Proof.
  unfold maybeRequestHiRes.
  destruct (negb (shouldUseHiRes s env ppsCss)); [apply grows_refl|].
  destruct (env_audioBuffer env); [|apply grows_refl].
  destruct (negb (Qltb 0 _)); [apply grows_refl|].
  destruct (hiResMatches _ _ _ _); [apply grows_refl|].
  destruct (hiResPending s); [apply grows_refl|].
  destruct (Qltb _ 120); [apply grows_refl|].
  apply buildHiResSpectrogram_grows.
Qed.

Lemma setSpectrumCanvas_grows c s : grows s (setSpectrumCanvas c s).
Proof. calm_by_computation. Qed.

Lemma paintSpectrogram_grows env spec vs vd ppsCss c s :
  grows s (stateOf (paintSpectrogram env spec vs vd ppsCss c s)).
Proof.
  unfold paintSpectrogram. cbv zeta.
  destruct (fold_left _ _ _) as [dest|]; cbn [stateOf]; calm_by_computation.
Qed.

Lemma drawSpectrogram_grows env vs vd s :
  grows s (stateOf (drawSpectrogram env vs vd s)).
Proof.
  unfold drawSpectrogram.
  destruct (spectrumCanvas s) as [c0|]; [|apply grows_refl].
  destruct (negb (env_has2dContext env)); [apply setSpectrumCanvas_grows|].
  destruct (env_container env) as [rect|]; [|apply setSpectrumCanvas_grows].
  destruct (spectrogram s) as [full|] eqn:Hfull; [|apply setSpectrumCanvas_grows].
  destruct (_ || _); [apply setSpectrumCanvas_grows|].
  destruct (currentPixelsPerSecond env) as [ppsCss|];
    [|apply setSpectrumCanvas_grows].
  cbv zeta.
  set (cleared := setSpectrumCanvas _ s).
  assert (Hreq : grows s (if shouldUseHiRes cleared env ppsCss
                          then maybeRequestHiRes env vs vd ppsCss cleared
                          else cleared)).
  { destruct (shouldUseHiRes cleared env ppsCss).
    - eapply grows_trans; [apply setSpectrumCanvas_grows|].
      apply maybeRequestHiRes_grows.
    - apply setSpectrumCanvas_grows. }
  destruct (specToDraw _ _ _ _ _) as [spec|]; [|exact Hreq].
  eapply grows_trans; [exact Hreq | apply paintSpectrogram_grows].
Qed.

(** [clearSpectrumCanvas] touches nothing but the canvas. *)
Lemma clearSpectrumCanvas_frame env s :
  spectrogramRequestId (clearSpectrumCanvas env s) = spectrogramRequestId s /\
  hiResRequestId (clearSpectrumCanvas env s) = hiResRequestId s /\
  suspended (clearSpectrumCanvas env s) = suspended s /\
  hiResPending (clearSpectrumCanvas env s) = hiResPending s.
Proof.
  unfold clearSpectrumCanvas. destruct (spectrumCanvas s); [|now repeat split].
  destruct (env_has2dContext env); now repeat split.
Qed.

Lemma clearSpectrumCanvas_grows env s : grows s (clearSpectrumCanvas env s).
Proof.
  destruct (clearSpectrumCanvas_frame env s) as (H1 & H2 & H3 & H4).
  apply grows_calm; try assumption; lia.
Qed.

Lemma buildSpectrogram_grows env ab s : grows s (buildSpectrogram env ab s).
Proof.
  unfold buildSpectrogram. cbv zeta.
  destruct (negb (env_specEnabled env)); [calm_by_computation|].
  set (s2 := clearSpectrumCanvas env _).
  destruct (clearSpectrumCanvas_frame env
              (setHiResSpec None
                 (setSpectrogram None
                    (setSpectrogramRequestId (spectrogramRequestId s + 1) s))))
    as (H1 & H2 & H3 & H4).
  fold s2 in H1, H2, H3, H4.
  eapply grows_full.
  5: { unfold_setters. rewrite H3. reflexivity. }
  all: unfold_setters; cbn [kind token]; try reflexivity; try lia;
    try congruence.
Qed.

Lemma teardownSpectrum_grows env s : grows s (teardownSpectrum env s).
Proof.
  unfold teardownSpectrum.
  eapply grows_trans; [|apply clearSpectrumCanvas_grows]. calm_by_computation.
Qed.

Lemma destroyAll_grows env s : grows s (destroyAll env s).
Proof.
  unfold destroyAll.
  eapply grows_trans; [|apply teardownSpectrum_grows]. calm_by_computation.
Qed.

Lemma onWebGPUChange_grows env b s : grows s (onWebGPUChange env b s).
Proof.
  unfold onWebGPUChange. cbv zeta.
  destruct (env_audioBuffer env).
  - eapply grows_trans; [|apply buildSpectrogram_grows]. calm_by_computation.
  - calm_by_computation.
Qed.

Lemma onEnableSpecChange_grows env b s : grows s (onEnableSpecChange env b s).
Proof.
  unfold onEnableSpecChange. cbv zeta.
  destruct (negb (env_specEnabled env)); [apply teardownSpectrum_grows|].
  destruct (env_audioBuffer env).
  - eapply grows_trans; [|apply buildSpectrogram_grows]. calm_by_computation.
  - calm_by_computation.
Qed.

Lemma resumeFull_grows env t s : grows s (resumeFull env t s).
Proof.
  unfold resumeFull. cbv zeta.
  destruct (negb _); [apply grows_refl|].
  eapply grows_trans; [|apply drawSpectrogram_grows]. calm_by_computation.
Qed.

(** What [grows] does to the tokens in flight. *)
Lemma tokensInFlight_same k s s' :
  suspended s' = suspended s -> tokensInFlight k s' = tokensInFlight k s.
Proof. intros H. unfold tokensInFlight. now rewrite H. Qed.

Lemma tokensInFlight_cons k s s' t :
  suspended s' = t :: suspended s ->
  tokensInFlight k s' =
  if kindEqb (kind t) k then token t :: tokensInFlight k s
  else tokensInFlight k s.
Proof.
  intros H. unfold tokensInFlight. rewrite H. cbn [filter].
  destruct (kindEqb (kind t) k); reflexivity.
Qed.

Lemma bounded_weaken (l : list Z) (a b : Z) :
  a <= b -> Forall (fun tok => tok <= a) l -> Forall (fun tok => tok <= b) l.
Proof.
  intros Hab. apply Forall_impl. intros tok H. lia.
Qed.

Lemma bounded_below (l : list Z) (a v : Z) :
  a < v -> Forall (fun tok => tok <= a) l -> Forall (Z.gt v) l.
Proof.
  intros Hav. apply Forall_impl. intros tok H. lia.
Qed.

Lemma grows_ordered s s' :
  grows s s' -> tokensInFlightOrdered s -> tokensInFlightOrdered s'.
Proof.
  induction 1 as [s s' Hf Hh Hs Hp | s s' t Hk Ht Hlt Hh Hs Hp
                 | s s' t Hk Ht Hlt Hf Hs Hp Hp' | s1 s2 s3 _ IH1 _ IH2];
    intros Hord; [| | |auto].
  - intros k. destruct (Hord k) as [Hsort Hbound].
    rewrite (tokensInFlight_same k s s' Hs). split; [exact Hsort|].
    eapply bounded_weaken; [|exact Hbound].
    destruct k; cbn [latestToken]; lia.
  - intros k. destruct (Hord k) as [Hsort Hbound].
    rewrite (tokensInFlight_cons k s s' t Hs), Hk.
    destruct k; cbn [kindEqb latestToken] in *.
    + split.
      * constructor; [exact Hsort|].
        eapply bounded_below; [|exact Hbound]. lia.
      * constructor; [lia|]. eapply bounded_weaken; [|exact Hbound]. lia.
    + split; [exact Hsort|]. eapply bounded_weaken; [|exact Hbound]. lia.
  - intros k. destruct (Hord k) as [Hsort Hbound].
    rewrite (tokensInFlight_cons k s s' t Hs), Hk.
    destruct k; cbn [kindEqb latestToken] in *.
    + split; [exact Hsort|]. eapply bounded_weaken; [|exact Hbound]. lia.
    + split.
      * constructor; [exact Hsort|].
        eapply bounded_below; [|exact Hbound]. lia.
      * constructor; [lia|]. eapply bounded_weaken; [|exact Hbound]. lia.
Qed.

Lemma grows_pending s s' :
  grows s s' -> pendingTracksRun s -> pendingTracksRun s'.
Proof.
  unfold pendingTracksRun.
  induction 1 as [s s' Hf Hh Hs Hp | s s' t Hk Ht Hlt Hh Hs Hp
                 | s s' t Hk Ht Hlt Hf Hs Hp Hp' | s1 s2 s3 _ IH1 _ IH2];
    intros Hinv; [| | |auto].
  - now rewrite (tokensInFlight_same _ s s' Hs), Hp.
  - rewrite (tokensInFlight_cons _ s s' t Hs), Hk, Hp. exact Hinv.
  - rewrite (tokensInFlight_cons _ s s' t Hs), Hk, Hp'. cbn [kindEqb length].
    rewrite Hinv, Hp. reflexivity.
Qed.

(** While a hi-res run is pending no other one starts. *)
Lemma grows_while_pending s s' :
  grows s s' -> hiResPending s = true ->
  hiResPending s' = true /\
  tokensInFlight HiRes s' = tokensInFlight HiRes s.
Proof.
  induction 1 as [s s' Hf Hh Hs Hp | s s' t Hk Ht Hlt Hh Hs Hp
                 | s s' t Hk Ht Hlt Hf Hs Hp Hp' | s1 s2 s3 _ IH1 _ IH2];
    intros Hpend.
  - split; [congruence|]. now apply tokensInFlight_same.
  - split; [congruence|].
    rewrite (tokensInFlight_cons _ s s' t Hs), Hk. reflexivity.
  - congruence.
  - destruct (IH1 Hpend) as [Hp2 Ht2]. destruct (IH2 Hp2) as [Hp3 Ht3].
    split; [exact Hp3 | congruence].
Qed.

(** Taking one run out of the suspended ones. *)
Lemma removeNth_Forall {A B} (P : B -> Prop) (f : A -> B) (p : A -> bool)
      (l : list A) :
  forall n, Forall P (map f (filter p l)) ->
            Forall P (map f (filter p (removeNth n l))).
Proof.
  induction l as [|a l IH]; intros n H; [destruct n; exact H|].
  destruct n as [|n]; cbn [removeNth filter] in *.
  - destruct (p a); [now inversion H | exact H].
  - destruct (p a); cbn [map] in *; [|now apply IH].
    inversion H; subst. constructor; [assumption | now apply IH].
Qed.

Lemma removeNth_sorted {A} (f : A -> Z) (p : A -> bool) (l : list A) :
  forall n, StronglySorted Z.gt (map f (filter p l)) ->
            StronglySorted Z.gt (map f (filter p (removeNth n l))).
Proof.
  induction l as [|a l IH]; intros n H; [destruct n; exact H|].
  destruct n as [|n]; cbn [removeNth filter] in *.
  - destruct (p a); [now inversion H | exact H].
  - destruct (p a); cbn [map] in *; [|now apply IH].
    inversion H; subst. constructor; [now apply IH|].
    now apply removeNth_Forall.
Qed.

Lemma removeNth_filter {A} (p : A -> bool) (l : list A) :
  forall n t, nth_error l n = Some t ->
    if p t
    then length (filter p l) = S (length (filter p (removeNth n l)))
    else filter p (removeNth n l) = filter p l.
Proof.
  induction l as [|a l IH]; intros n t H; [destruct n; discriminate|].
  destruct n as [|n]; cbn [nth_error removeNth filter] in *.
  - injection H as ->. destruct (p t); reflexivity.
  - specialize (IH n t H). destruct (p t), (p a); cbn [length];
      congruence.
Qed.

Lemma removal_ordered s n :
  tokensInFlightOrdered s ->
  tokensInFlightOrdered (setSuspended (removeNth n (suspended s)) s).
Proof.
  intros Hord k. destruct (Hord k) as [Hsort Hbound].
  unfold tokensInFlight in *. unfold_setters. split.
  - now apply removeNth_sorted.
  - replace (latestToken k _) with (latestToken k s) by (now destruct k).
    now apply removeNth_Forall.
Qed.

Lemma handle_tracks env ev s :
  tokensInFlightOrdered s /\ pendingTracksRun s ->
  tokensInFlightOrdered (handle env ev s) /\ pendingTracksRun (handle env ev s).
Proof.
  intros [Hord Hpend].
  assert (Hgrow : forall s', grows s s' ->
                    tokensInFlightOrdered s' /\ pendingTracksRun s').
  { intros s' Hg. split; [eapply grows_ordered | eapply grows_pending];
      eassumption. }
  destruct ev; cbn [handle].
  - apply Hgrow, drawSpectrogram_grows.
  - apply Hgrow, buildSpectrogram_grows.
  - apply Hgrow, teardownSpectrum_grows.
  - apply Hgrow, destroyAll_grows.
  - apply Hgrow, onWebGPUChange_grows.
  - apply Hgrow, onEnableSpecChange_grows.
  - destruct (nth_error (suspended s) n) as [t|] eqn:Hnth;
      [|split; assumption].
    set (s0 := setSuspended (removeNth n (suspended s)) s).
    assert (Hord0 : tokensInFlightOrdered s0) by now apply removal_ordered.
    pose proof (removeNth_filter (fun t => kindEqb (kind t) HiRes)
                  (suspended s) n t Hnth) as Hrem.
    cbv beta in Hrem. unfold resume.
    destruct (kind t) eqn:Hkind; cbn [kindEqb] in Hrem.
    + (* a full-track run resumes *)
      assert (Hpend0 : pendingTracksRun s0).
      { unfold pendingTracksRun, tokensInFlight, s0 in *. unfold_setters.
        now rewrite Hrem. }
      split; [eapply grows_ordered | eapply grows_pending];
        try apply resumeFull_grows; assumption.
    + (* the hi-res run resumes *)
      assert (Hwas : hiResPending s = true /\
                     tokensInFlight HiRes s0 = []).
      { unfold pendingTracksRun, tokensInFlight, s0 in *. unfold_setters.
        rewrite length_map, Hrem in Hpend.
        destruct (hiResPending s); [|discriminate]. split; [reflexivity|].
        injection Hpend as Hlen. apply length_zero_iff_nil in Hlen.
        now rewrite Hlen. }
      destruct Hwas as [Hflag Hnone].
      unfold resumeHiRes. cbv zeta.
      set (after := match outcome t with Ok _ => _ | Throw _ => _ end).
      assert (Hafter : grows s0 after).
      { unfold after. destruct (outcome t) as [spec|e]; [|apply grows_refl].
        destruct (negb _); [apply grows_refl|].
        eapply grows_trans; [|apply drawSpectrogram_grows].
        calm_by_computation. }
      destruct (grows_while_pending s0 after Hafter Hflag) as [_ Hsame].
      pose proof (grows_ordered s0 after Hafter Hord0) as Hord1.
      split.
      * intros k. destruct (Hord1 k) as [Hsort Hbound].
        rewrite (tokensInFlight_same k after) by reflexivity.
        replace (latestToken k (setHiResPending false after))
          with (latestToken k after) by (now destruct k).
        split; assumption.
      * unfold pendingTracksRun.
        rewrite (tokensInFlight_same HiRes after) by reflexivity.
        rewrite Hsame, Hnone. reflexivity.
Qed.

Lemma run_tracks trace s :
  tokensInFlightOrdered s /\ pendingTracksRun s ->
  tokensInFlightOrdered (run trace s) /\ pendingTracksRun (run trace s).
Proof.
  unfold run. revert s. induction trace as [|[env ev] trace IH]; intros s Hs;
    cbn [fold_left fst snd]; [exact Hs|].
  apply IH, handle_tracks, Hs.
Qed.

Lemma initial_tracks supported canvas :
  tokensInFlightOrdered (initial supported canvas) /\
  pendingTracksRun (initial supported canvas).
Proof.
  split; [|reflexivity]. intros k. split; constructor.
Qed.

Lemma sorted_once (l : list Z) (v : Z) :
  StronglySorted Z.gt l -> (length (filter (Z.eqb v) l) <= 1)%nat.
Proof.
  induction 1 as [|a l Hsort IH Hall]; [cbn; lia|].
  cbn [filter]. destruct (Z.eqb_spec v a) as [->|Hne]; [|exact IH].
  assert (Hnone : filter (Z.eqb a) l = []).
  { clear -Hall. induction l as [|b l IHl]; [reflexivity|].
    inversion Hall; subst. cbn [filter].
    destruct (Z.eqb_spec a b); [lia | now apply IHl]. }
  rewrite Hnone. cbn. lia.
Qed.

(** X12. At most one hi-res build is in flight.  Along every execution from
    the freshly loaded script (draws, loads, teardowns, checkbox changes
    and resumptions in any order), the number of suspended
    [buildHiResSpectrogram] runs is 1 when [hiResPending] is set and 0 when
    it is not. *)
Theorem one_hires_build_at_a_time :
  forall (trace : list (Env * Event)) (supported : bool)
         (canvas : option Canvas),
    let s := run trace (initial supported canvas) in
    length (filter (fun t => kindEqb (kind t) HiRes) (suspended s))
    = if hiResPending s then 1%nat else 0%nat.
Proof.
  intros trace supported canvas s.
  destruct (run_tracks trace _ (initial_tracks supported canvas))
    as [_ Hpend].
  unfold pendingTracksRun, tokensInFlight in Hpend.
  rewrite length_map in Hpend. exact Hpend.
Qed.

(** X13. The tokens of the runs in flight.  Along every execution from the
    freshly loaded script, the suspended runs of each kind carry tokens
    that decrease strictly from the newest to the oldest (so no two share
    a token), none is greater than the counter of its kind, and therefore
    at most one suspended run of a kind holds the token that the check
    after the [await] accepts. *)
Theorem tokens_in_flight_are_distinct :
  forall (trace : list (Env * Event)) (supported : bool)
         (canvas : option Canvas) (k : Kind),
    let s := run trace (initial supported canvas) in
    StronglySorted Z.gt (tokensInFlight k s) /\
    Forall (fun tok => tok <= latestToken k s) (tokensInFlight k s) /\
    (length (filter (Z.eqb (latestToken k s)) (tokensInFlight k s)) <= 1)%nat.
Proof.
  intros trace supported canvas k s.
  destruct (run_tracks trace _ (initial_tracks supported canvas))
    as [Hord _].
  destruct (Hord k) as [Hsort Hbound].
  split; [exact Hsort|]. split; [exact Hbound|].
  now apply sorted_once.
Qed.

(** ** The window of a hi-res request *)

Lemma hiResMatches_empty s vs vd hop :
  hiResSpec s = None -> hiResMatches s vs vd hop = false.
Proof. intros H. unfold hiResMatches. now rewrite H. Qed.

Lemma shouldUseHiRes_pps s env ppsCss :
  shouldUseHiRes s env ppsCss = true -> Qeq_bool ppsCss 0 = false.
Proof.
  unfold shouldUseHiRes. destruct (spectrogram s); [|discriminate].
  destruct (Qeq_bool ppsCss 0); [discriminate|reflexivity].
Qed.

(** The first request for a view: the run that [maybeRequestHiRes]
    suspends, with the window it asks for written out. *)
Lemma first_request env s vs vd ppsCss ab d :
  shouldUseHiRes s env ppsCss = true ->
  env_audioBuffer env = Some ab ->
  env_audioDuration env = Some d ->
  hiResSpec s = None ->
  hiResPending s = false ->
  Qltb (env_now env - lastHiResRequestedAt s) 120 = false ->
  env_specEnabled env = true ->
  (0 < vd)%Q -> (vd <= d)%Q ->
  suspended (maybeRequestHiRes env vs vd ppsCss s)
  = {| kind := HiRes; token := hiResRequestId s + 1;
       outcome := computeSpectrogram (env_device env) ab
                    (Utils.clampQ (vs - Qmin (vd * 0.25) (d * 0.25)) 0
                                  (Qmax 0 (d - vd)))
                    (Qmin (vd * 1.5) d)
                    (hopTargetOf env ppsCss) 1024 (preferWebGPU s) |}
    :: suspended s.
Proof.
  intros Huse Hab Hd Hnone Hpend Hdeb Hen Hvd Hle.
  rewrite (maybeRequestHiRes_issues env vs vd ppsCss s ab d);
    try assumption; try reflexivity.
  - apply Qltb_true. Lqa.lra.
  - intros a b h. now apply hiResMatches_empty.
  - eapply shouldUseHiRes_pps; eassumption.
  - apply Qltb_true. apply Q.min_glb_lt; Lqa.lra.
Qed.

Lemma request_window (vs vd d : Q) :
  (0 <= vs)%Q -> (0 < vd)%Q -> (vs + vd <= d)%Q ->
  let start := Utils.clampQ (vs - Qmin (vd * 0.25) (d * 0.25)) 0
                            (Qmax 0 (d - vd)) in
  let dur := Qmin (vd * 1.5) d in
  (0 <= start)%Q /\ (start <= vs)%Q /\ (vs + vd <= start + dur)%Q /\
  (dur <= d)%Q /\ (dur <= vd * 1.5)%Q.
Proof.
  intros Hvs Hvd Hin. unfold Utils.clampQ. cbv zeta.
  pose proof (Q.min_spec (vd * 0.25) (d * 0.25)) as Hpad.
  set (pad := Qmin (vd * 0.25) (d * 0.25)) in *. clearbody pad.
  pose proof (Q.max_spec 0 (d - vd)) as Hhi.
  set (hi := Qmax 0 (d - vd)) in *. clearbody hi.
  pose proof (Q.max_spec 0 (vs - pad)) as Hlo.
  set (lo := Qmax 0 (vs - pad)) in *. clearbody lo.
  pose proof (Q.min_spec hi lo) as Hstart.
  set (start := Qmin hi lo) in *. clearbody start.
  pose proof (Q.min_spec (vd * 1.5) d) as Hdur.
  set (dur := Qmin (vd * 1.5) d) in *. clearbody dur.
  destruct Hpad as [[? ?]|[? ?]], Hhi as [[? ?]|[? ?]],
    Hlo as [[? ?]|[? ?]], Hstart as [[? ?]|[? ?]], Hdur as [[? ?]|[? ?]];
    repeat split; Lqa.lra.
Qed.

(** X14. The window that [maybeRequestHiRes] asks for.  On the first request
    for a view that lies inside the track ([0 <= viewStart],
    [0 < viewDuration], [viewStart + viewDuration <= duration]), with
    hi-res in use, nothing pending and the debounce over, one hi-res run
    is suspended, under the next token, for a window [[start, start+dur]]
    that starts at or after 0, contains the whole view, and is at most
    one and a half views and at most the track long. *)
Theorem hires_request_covers_the_view :
  forall env s vs vd ppsCss ab d,
    shouldUseHiRes s env ppsCss = true ->
    env_audioBuffer env = Some ab ->
    env_audioDuration env = Some d ->
    hiResSpec s = None ->
    hiResPending s = false ->
    Qltb (env_now env - lastHiResRequestedAt s) 120 = false ->
    env_specEnabled env = true ->
    (0 <= vs)%Q -> (0 < vd)%Q -> (vs + vd <= d)%Q ->
    exists start dur,
      suspended (maybeRequestHiRes env vs vd ppsCss s)
      = {| kind := HiRes; token := hiResRequestId s + 1;
           outcome := computeSpectrogram (env_device env) ab start dur
                        (hopTargetOf env ppsCss) 1024 (preferWebGPU s) |}
        :: suspended s /\
      (0 <= start)%Q /\ (start <= vs)%Q /\ (vs + vd <= start + dur)%Q /\
      (dur <= d)%Q /\ (dur <= vd * 1.5)%Q.
Proof.
  intros env s vs vd ppsCss ab d Huse Hab Hd Hnone Hpend Hdeb Hen
         Hvs Hvd Hin.
  eexists. eexists. split.
  - apply (first_request env s vs vd ppsCss ab d); try assumption. Lqa.lra.
  - apply request_window; assumption.
Qed.

(** The state in which [fullTrack] is active, nothing is cached and
    nothing is pending. *)
Lemma hires_request_covers_the_view_witness :
  exists start dur,
    suspended (maybeRequestHiRes zoomedEnv 0.5 1 (48000 / 256)
                 (setSpectrogram (Some fullTrack)
                    (initial true (Some canvas2x2))))
    = [{| kind := HiRes; token := 1;
          outcome := computeSpectrogram true silence2s start dur
                       (hopTargetOf zoomedEnv (48000 / 256)) 1024 true |}] /\
    (start <= 0.5)%Q /\ (0.5 + 1 <= start + dur)%Q.
Proof.
  destruct (hires_request_covers_the_view zoomedEnv
              (setSpectrogram (Some fullTrack) (initial true (Some canvas2x2)))
              0.5 1 (48000 / 256) silence2s 2)
    as (start & dur & Hrun & _ & Hstart & Hend & _);
    [reflexivity | reflexivity | reflexivity | reflexivity | reflexivity
     | reflexivity | reflexivity | discriminate | reflexivity | discriminate |].
  exists start, dur. split; [exact Hrun|]. split; assumption.
Defined.

(** What a builder writes into the tile's label. *)
Lemma built_tile_label device prefer ab start duration hop fftSize tile :
  computeSpectrogram device ab start duration hop fftSize prefer = Ok tile ->
  hopSize tile = hop /\
  (viewStart tile = None \/
   viewStart tile = Some start /\ viewDuration tile = Some duration).
Proof.
  intros Hrun. apply computeSpectrogram_ok in Hrun.
  destruct Hrun as [Hcpu|Hgpu].
  - destruct (cpu_tile_fields _ _ _ _ _ _ Hcpu) as (Hv & _ & _ & _ & Hh).
    split; [exact Hh | left; exact Hv].
  - apply computeSpectrogramWebGPU_some in Hgpu.
    destruct Hgpu as (_ & _ & _ & outData & _ & ->).
    split; [reflexivity | right; split; reflexivity].
Qed.

Lemma gpu_builder_succeeds ab start duration hop :
  1024 <= segmentLenOf ab start duration ->
  exists tile,
    computeSpectrogramWebGPU true ab start duration hop 1024 = Some tile.
Proof.
  intros Hlen. unfold computeSpectrogramWebGPU. cbn [negb orb Z.eqb Pos.eqb].
  cbv zeta.
  destruct (Z.leb_spec (Z.max 1 (frameCount (segmentLenOf ab start duration)
                                    1024 hop)) 0) as [Hbad|_]; [lia|].
  destruct (Z.ltb_spec (segmentLenOf ab start duration) 1024) as [Hbad|_];
    [lia|].
  cbn [orb]. eexists. reflexivity.
Qed.

Lemma Qltb_false (a b : Q) : (b <= a)%Q -> Qltb a b = false.
Proof.
  intros Hle. unfold Qltb. apply Qle_bool_iff in Hle. now rewrite Hle.
Qed.

Lemma hiResMatches_too_long s tile tileStart tileDuration vs vd hop :
  hiResSpec s = Some tile ->
  viewStart tile = Some tileStart ->
  viewDuration tile = Some tileDuration ->
  (vd + (1 # 60) <= tileDuration)%Q ->
  hiResMatches s vs vd hop = false.
Proof.
  intros Hs Hvs Hvd Hlong. unfold hiResMatches. rewrite Hs, Hvs, Hvd.
  cbv zeta. change (1 / 60)%Q with (1 # 60)%Q.
  rewrite (Qltb_false (Qabs (tileDuration - vd))).
  - now rewrite andb_false_r.
  - eapply Qle_trans; [|apply Qle_Qabs]. Lqa.lra.
Qed.

(** X15. The tile built for a view does not match that view.  Take the first
    request of [maybeRequestHiRes] for a view of at least 1/30 s that is
    at least 1/60 s shorter than the track.  Whatever tile the suspended
    run delivers, once it is the cached tile [hiResMatches] is false for
    that view at every hop, so [drawSpectrogram] picks the full-track
    spectrogram for it; and if the tile came from the WebGPU builder, a
    further [maybeRequestHiRes] for the same view starts no new run,
    because [buildHiResSpectrogram] finds the widened window already
    cached. *)
Theorem hires_tile_misses_its_view :
  forall env s vs vd ppsCss ab d,
    shouldUseHiRes s env ppsCss = true ->
    env_audioBuffer env = Some ab ->
    env_audioDuration env = Some d ->
    hiResSpec s = None ->
    hiResPending s = false ->
    Qltb (env_now env - lastHiResRequestedAt s) 120 = false ->
    env_specEnabled env = true ->
    ((1 # 30) <= vd)%Q -> (vd + (1 # 60) <= d)%Q ->
    exists t,
      suspended (maybeRequestHiRes env vs vd ppsCss s) = t :: suspended s /\
      kind t = HiRes /\
      forall tile s2,
        outcome t = Ok tile ->
        hiResSpec s2 = Some tile ->
        (forall hop, hiResMatches s2 vs vd hop = false) /\
        specToDraw s2 env vs vd ppsCss = spectrogram s2 /\
        (viewStart tile <> None ->
         maybeRequestHiRes env vs vd ppsCss s2 = s2).
Proof.
  intros env s vs vd ppsCss ab d Huse Hab Hd Hnone Hpend Hdeb Hen Hvd Hroom.
  eexists. split; [|split].
  - apply (first_request env s vs vd ppsCss ab d); try assumption; Lqa.lra.
  - reflexivity.
  - cbn [outcome]. intros tile s2 Hrun Hs2.
    destruct (built_tile_label _ _ _ _ _ _ _ _ Hrun) as [Hhop Hlabel].
    assert (Hno : forall hop, hiResMatches s2 vs vd hop = false).
    { intros hop. destruct Hlabel as [Hcpu|[Hgs Hgd]].
      - now apply hiResMatches_unlabelled with tile.
      - eapply hiResMatches_too_long; try eassumption.
        apply Q.min_glb; Lqa.lra. }
    split; [exact Hno|]. split.
    + unfold specToDraw. cbv zeta. rewrite Hno, andb_false_r. reflexivity.
    + intros Hgpu. destruct Hlabel as [Hcpu|[Hgs Hgd]]; [contradiction|].
      unfold maybeRequestHiRes.
      destruct (negb (shouldUseHiRes s2 env ppsCss)); [reflexivity|].
      rewrite Hab, Hd.
      destruct (negb (Qltb 0 d)); [reflexivity|]. cbv zeta.
      destruct (hiResMatches s2 vs vd _); [reflexivity|].
      destruct (hiResPending s2); [reflexivity|].
      destruct (Qltb (env_now env - lastHiResRequestedAt s2) 120);
        [reflexivity|].
      apply buildHiResSpectrogram_matching.
      eapply hiResMatches_covering; try eassumption.
      * rewrite Qabs_wd with (y := 0%Q) by ring. reflexivity.
      * rewrite Qabs_wd with (y := 0%Q) by ring. reflexivity.
Qed.

Lemma hires_tile_misses_its_view_witness :
  exists t tile,
    suspended (maybeRequestHiRes zoomedEnv 0.5 1 (48000 / 256)
                 (setSpectrogram (Some fullTrack)
                    (initial true (Some canvas2x2)))) = [t] /\
    outcome t = Ok tile /\
    hiResMatches (setHiResSpec (Some tile) tiledState) 0.5 1 256 = false.
Proof.
  destruct (hires_tile_misses_its_view zoomedEnv
              (setSpectrogram (Some fullTrack) (initial true (Some canvas2x2)))
              0.5 1 (48000 / 256) silence2s 2)
    as (t & Hrun & Hkind & Hall);
    [reflexivity | reflexivity | reflexivity | reflexivity | reflexivity
     | reflexivity | reflexivity | discriminate | discriminate |].
  assert (Hfirst := first_request zoomedEnv
                      (setSpectrogram (Some fullTrack)
                         (initial true (Some canvas2x2)))
                      0.5 1 (48000 / 256) silence2s 2).
  pose proof Hrun as Ht.
  rewrite Hfirst in Ht by (try reflexivity; discriminate).
  apply (f_equal (hd t)) in Ht. cbn [hd] in Ht.
  destruct (gpu_builder_succeeds silence2s
              (Utils.clampQ (0.5 - Qmin (1 * 0.25) (2 * 0.25)) 0
                            (Qmax 0 (2 - 1)))
              (Qmin (1 * 1.5) 2)
              (hopTargetOf zoomedEnv (48000 / 256)))
    as [tile Htile]; [vm_compute; discriminate|].
  assert (Hout : outcome t = Ok tile).
  { rewrite <- Ht. cbn [outcome]. unfold computeSpectrogram.
    change (preferWebGPU _) with true. change (env_device zoomedEnv) with true.
    now rewrite Htile. }
  exists t, tile. split; [exact Hrun|]. split; [exact Hout|].
  apply (Hall tile (setHiResSpec (Some tile) tiledState) Hout).
  reflexivity.
Defined.

(** ** The shader and the CPU transform compute the same spectrum *)

Lemma fold_left_ext_in {S X} (f g : S -> X -> S) (l : list X) :
  (forall st x, In x l -> f st x = g st x) ->
  forall st, fold_left f l st = fold_left g l st.
Proof.
  induction l as [|x l IH]; intros Hfg st; [reflexivity|].
  cbn [fold_left]. rewrite Hfg by now left.
  apply IH. intros st' y Hy. apply Hfg. now right.
Qed.

Lemma fold_left_over_map {S X Y} (f : S -> Y -> S) (g : X -> Y) (l : list X) :
  forall st, fold_left f (map g l) st = fold_left (fun s x => f s (g x)) l st.
Proof. induction l as [|x l IH]; intros st; [reflexivity | apply IH]. Qed.

Lemma fold_left_over_flat_map {S X Y} (f : S -> Y -> S) (g : X -> list Y)
      (l : list X) :
  forall st, fold_left f (flat_map g l) st
             = fold_left (fun s x => fold_left f (g x) s) l st.
Proof.
  induction l as [|x l IH]; intros st; [reflexivity|].
  cbn [flat_map fold_left]. rewrite fold_left_app. apply IH.
Qed.

Lemma fold_left_idle {S X} (f : S -> X -> S) (l : list X) :
  (forall st x, In x l -> f st x = st) ->
  forall st, fold_left f l st = st.
Proof.
  induction l as [|x l IH]; intros Hf st; [reflexivity|].
  cbn [fold_left]. rewrite Hf by now left.
  apply IH. intros st' y Hy. apply Hf. now right.
Qed.

Lemma seq_shifted (len : nat) :
  forall s k, map Z.of_nat (seq (k + s) len)
              = map (fun x => Z.of_nat k + Z.of_nat x) (seq s len).
Proof.
  induction len as [|len IH]; intros s k; [reflexivity|].
  cbn [seq map]. f_equal; [lia|].
  rewrite <- IH. now rewrite Nat.add_succ_r.
Qed.

Lemma zrange_app (a b : Z) :
  0 <= a -> 0 <= b ->
  zrange (a + b) = zrange a ++ map (fun j => a + j) (zrange b).
Proof.
  intros Ha Hb. unfold zrange.
  rewrite Z2Nat.inj_add, seq_app, map_app by lia. f_equal.
  rewrite map_map, Nat.add_comm, seq_shifted.
  apply map_ext. intros k. lia.
Qed.

(** The slots of a frame, block by block. *)
Lemma zrange_blocks (m count : Z) :
  0 <= m -> 0 <= count ->
  zrange (count * m)
  = flat_map (fun i => map (fun j => i + j) (zrange m))
             (map (fun b => b * m) (zrange count)).
Proof.
  intros Hm Hc. rewrite <- (Z2Nat.id count) by lia.
  induction (Z.to_nat count) as [|c IH]; [reflexivity|].
  rewrite zrange_succ, map_app, flat_map_app, <- IH. cbn [map flat_map].
  rewrite app_nil_r.
  replace (Z.of_nat (S c) * m) with (Z.of_nat c * m + m) by lia.
  apply zrange_app; lia.
Qed.

Lemma createFFT_fields (size : Z) (f : FFT) :
  createFFT size = Ok f ->
  fft_size f = size /\
  cosTable f = map (fun i => cos (-2 * PI * IZR i / IZR size)%R)
                   (zrange (size / 2)) /\
  sinTable f = map (fun i => sin (-2 * PI * IZR i / IZR size)%R)
                   (zrange (size / 2)).
Proof.
  unfold createFFT. destruct (negb _); [discriminate|].
  intros Hf. injection Hf as <-. repeat split.
Qed.

Section Radix2.
Variable f : FFT.
Hypothesis Hf : createFFT 1024 = Ok f.

Lemma fft1024_fields :
  fft_size f = 1024 /\
  cosTable f = map (fun i => cos (-2 * PI * IZR i / IZR 1024)%R) (zrange 512) /\
  sinTable f = map (fun i => sin (-2 * PI * IZR i / IZR 1024)%R) (zrange 512).
Proof. exact (createFFT_fields 1024 f Hf). Qed.

Lemma permute_agrees st :
  fold_left shaderPermute (zrange FFT_SIZE) st
  = fold_left (permuteStep f) (zrange (fft_size f)) st.
Proof.
  destruct fft1024_fields as [-> _]. change FFT_SIZE with 1024.
  apply fold_left_ext_in. intros s i Hi. apply in_zrange in Hi.
  unfold shaderPermute, permuteStep. cbv zeta.
  rewrite (createFFT_rev_at 10 f i Hf) by exact Hi.
  change LOGN with (Z.of_nat 10). now rewrite bitrev_reverseBits.
Qed.

Section Stage.
Variable a : Z.
Hypothesis Ha : 1 <= a <= 10.

Let m := 2 ^ a.
Let half := 2 ^ (a - 1).
Let q := 2 ^ (10 - a).

Lemma stage_sizes :
  0 < half /\ 0 < q /\ m = 2 * half /\ m * q = 1024 /\
  Z.shiftr m 1 = half /\ fft_size f / m = q /\ m - 1 = Z.ones a.
Proof.
  assert (Hh : 0 < half) by (apply Z.pow_pos_nonneg; lia).
  assert (Hq : 0 < q) by (apply Z.pow_pos_nonneg; lia).
  assert (Hm : m = 2 * half).
  { unfold m, half. replace a with (1 + (a - 1)) at 1 by lia.
    rewrite Z.pow_add_r by lia. reflexivity. }
  assert (Hmq : m * q = 1024).
  { unfold m, q. rewrite <- Z.pow_add_r by lia.
    replace (a + (10 - a)) with 10 by lia. reflexivity. }
  repeat split; try assumption.
  - rewrite Z.shiftr_div_pow2 by lia. change (2 ^ 1) with 2.
    rewrite Hm, Z.mul_comm. apply Z.div_mul. lia.
  - destruct fft1024_fields as [-> _]. rewrite <- Hmq, Z.mul_comm.
    apply Z.div_mul. lia.
  - rewrite Z.ones_equiv. unfold m. lia.
Qed.

Lemma twiddle_agrees (j : Z) :
  0 <= j < half ->
  getR (cosTable f) (j * q) = cos (- (PI2 / IZR m) * IZR j) /\
  getR (sinTable f) (j * q) = sin (- (PI2 / IZR m) * IZR j).
Proof.
  intros Hj. destruct stage_sizes as (Hh & Hq & Hm & Hmq & _).
  destruct fft1024_fields as (_ & -> & ->).
  assert (Hk : 0 <= j * q < 512) by nia.
  rewrite !getR_map_zrange by exact Hk.
  assert (Harg : (-2 * PI * IZR (j * q) / IZR 1024
                  = - (PI2 / IZR m) * IZR j)%R).
  { rewrite <- Hmq, !mult_IZR. unfold PI2.
    assert (IZR m <> 0)%R by (apply not_0_IZR; lia).
    assert (IZR q <> 0)%R by (apply not_0_IZR; lia).
    field. split; assumption. }
  rewrite Harg. split; reflexivity.
Qed.

Lemma land_block (b j : Z) : 0 <= j < m -> Z.land (b * m + j) (m - 1) = j.
Proof.
  intros Hj. destruct stage_sizes as (_ & _ & _ & _ & _ & _ & ->).
  rewrite Z.land_ones by lia. fold m.
  rewrite Z.add_comm, Z_mod_plus_full. apply Z.mod_small. exact Hj.
Qed.

Lemma butterfly_agrees (b j : Z) st :
  0 <= j < half ->
  shaderButterfly m st (b * m + j) = butterfly f m (b * m) st j.
Proof.
  intros Hj. destruct stage_sizes as (Hh & Hq & Hm & Hmq & Hsh & Hstep & _).
  destruct (twiddle_agrees j Hj) as [Hc Hs].
  unfold shaderButterfly, butterfly. cbv zeta.
  rewrite land_block by lia. rewrite Hsh, Hstep.
  destruct (Z.ltb_spec j half) as [_|Hbad]; [|lia].
  replace (b * m + j - j + j) with (b * m + j) by lia.
  rewrite Hc, Hs. reflexivity.
Qed.

Lemma butterfly_skipped (b j : Z) st :
  half <= j < m -> shaderButterfly m st (b * m + j) = st.
Proof.
  intros Hj. destruct stage_sizes as (_ & _ & _ & _ & Hsh & _).
  unfold shaderButterfly. cbv zeta. rewrite land_block by lia. rewrite Hsh.
  destruct (Z.ltb_spec j half) as [Hbad|_]; [lia | reflexivity].
Qed.

Lemma block_agrees (b : Z) st :
  fold_left (shaderButterfly m) (map (fun j => b * m + j) (zrange m)) st
  = fold_left (butterfly f m (b * m)) (zrange (Z.shiftr m 1)) st.
Proof.
  destruct stage_sizes as (Hh & _ & Hm & _ & Hsh & _).
  rewrite Hsh, fold_left_over_map.
  assert (Hz : zrange m = zrange half ++ map (fun j => half + j) (zrange half)).
  { replace m with (half + half) by lia. apply zrange_app; lia. }
  rewrite Hz, fold_left_app.
  rewrite (fold_left_ext_in _ (butterfly f m (b * m)) (zrange half)).
  - apply fold_left_idle. intros s j Hj.
    apply in_map_iff in Hj. destruct Hj as (j0 & <- & Hj0).
    apply in_zrange in Hj0. apply butterfly_skipped. lia.
  - intros s j Hj. apply in_zrange in Hj. now apply butterfly_agrees.
Qed.

Lemma stage_agrees st :
  fold_left (shaderButterfly m) (zrange FFT_SIZE) st = stage f st m.
Proof.
  destruct stage_sizes as (Hh & Hq & Hm & Hmq & _).
  unfold stage, blockStarts. destruct fft1024_fields as [-> _].
  replace ((1024 + m - 1) / m) with q.
  2: { rewrite <- Hmq. replace (m * q + m - 1) with (m - 1 + q * m) by lia.
       rewrite Z_div_plus by lia. rewrite Z.div_small; lia. }
  change FFT_SIZE with 1024. rewrite <- Hmq, (Z.mul_comm m q).
  rewrite zrange_blocks by lia.
  rewrite fold_left_over_flat_map, !fold_left_over_map.
  apply fold_left_ext_in. intros s b _. apply block_agrees.
Qed.

End Stage.

Lemma stages_1024 :
  stageLens 32 2 1024 = map (fun a => 2 ^ a) [1; 2; 3; 4; 5; 6; 7; 8; 9; 10].
Proof. reflexivity. Qed.

(** The shader's frame transform is [transform] of the CPU path. *)
Lemma shader_transform_agrees (re : list R) :
  fold_left (fun st m => fold_left (shaderButterfly m) (zrange FFT_SIZE) st)
            (stageLens 32 2 FFT_SIZE)
            (fold_left shaderPermute (zrange FFT_SIZE)
                       (re, map (fun _ => 0%R) (zrange FFT_SIZE)))
  = transform f re (map (fun _ => 0%R) (zrange 1024)).
Proof.
  unfold transform. cbv zeta. rewrite permute_agrees.
  destruct fft1024_fields as [Hsize _]. rewrite Hsize.
  change FFT_SIZE with 1024. rewrite stages_1024.
  apply fold_left_ext_in. intros st m Hm.
  apply in_map_iff in Hm. destruct Hm as (a & <- & Ha).
  apply stage_agrees. cbn [In] in Ha. lia.
Qed.

End Radix2.

(** Reading a slot of the flat frame buffer. *)
Lemma nth_concat_chunks {A} (d : A) (L : nat) (l : list (list A)) :
  Forall (fun c => length c = L) l ->
  forall k i, (i < L)%nat ->
    nth (k * L + i) (concat l) d = nth i (nth k l []) d.
Proof.
  induction 1 as [|c l Hc Hall IH]; intros k i Hi.
  - cbn [concat]. replace (nth k [] []) with (@nil A) by (now destruct k).
    destruct (k * L + i)%nat, i; reflexivity.
  - cbn [concat]. destruct k as [|k].
    + cbn [Nat.mul Nat.add nth]. apply app_nth1. lia.
    + rewrite app_nth2 by (rewrite Hc; lia). cbn [nth].
      rewrite <- (IH k i Hi). f_equal. rewrite Hc. lia.
Qed.

Lemma getR_frameData (g : Z -> list R) (total frame i : Z) :
  (forall fr, length (g fr) = 1024%nat) ->
  0 <= frame < total -> 0 <= i < 1024 ->
  getR (concat (map g (zrange total))) (frame * FFT_SIZE + i) = getR (g frame) i.
Proof.
  intros Hlen Hframe Hi. unfold getR. change FFT_SIZE with 1024.
  destruct (Z.ltb_spec (frame * 1024 + i) 0); [lia|].
  destruct (Z.ltb_spec i 0); [lia|].
  replace (Z.to_nat (frame * 1024 + i))
    with (Z.to_nat frame * 1024 + Z.to_nat i)%nat by lia.
  rewrite (nth_concat_chunks 0%R 1024).
  - now rewrite nth_map_zrange.
  - apply Forall_forall. intros c Hc. apply in_map_iff in Hc.
    destruct Hc as (fr & <- & _). apply Hlen.
  - lia.
Qed.

(** Both builders hand the transform the same windowed frame. *)
Lemma frame_input_agrees ab hann startSample endSample hop total frame :
  0 < hop -> 1 <= numberOfChannels ab ->
  0 <= endSample - startSample -> 0 <= frame < total ->
  map (fun i =>
         getR (concat (map (gpuFrameInput ab hann startSample endSample
                                          1024 hop) (zrange total)))
              (frame * FFT_SIZE + i)) (zrange FFT_SIZE)
  = map (fun i =>
           let idx := frame * hop + i in
           ((if idx <? Z.of_nat (length (mixdown ab startSample
                                           (endSample - startSample)))
             then getR (mixdown ab startSample (endSample - startSample)) idx
             else 0) * getR hann i)%R)
        (zrange 1024).
Proof.
  intros Hhop Hch Hseg Hframe. change (zrange FFT_SIZE) with (zrange 1024).
  apply map_ext_in. intros i Hi. apply in_zrange in Hi. cbv zeta.
  rewrite getR_frameData; try assumption.
  2: { intros fr. unfold gpuFrameInput.
       now rewrite length_map, zrange_length. }
  unfold gpuFrameInput. rewrite getR_map_zrange by exact Hi. cbv zeta.
  f_equal. unfold mixdown. rewrite length_map, zrange_length, Z2Nat.id by lia.
  assert (Hoff : 0 <= frame * hop + i) by nia.
  destruct (Z.ltb_spec (startSample + frame * hop + i) endSample),
           (Z.ltb_spec (frame * hop + i) (endSample - startSample));
    try lia; [|reflexivity].
  rewrite getR_map_zrange by lia.
  rewrite Z.max_r by lia. rewrite Z.add_assoc.
  unfold Rdiv. ring.
Qed.

Lemma shaderMain_is_cpuFrame f ab hann startSample endSample hop total frame :
  createFFT 1024 = Ok f ->
  0 < hop -> 1 <= numberOfChannels ab ->
  0 <= endSample - startSample -> 0 <= frame < total ->
  shaderMain (concat (map (gpuFrameInput ab hann startSample endSample
                                         1024 hop) (zrange total))) frame
  = cpuFrame f hann (mixdown ab startSample (endSample - startSample))
             1024 hop 512 frame.
Proof.
  intros Hf Hhop Hch Hseg Hframe. unfold shaderMain, cpuFrame. cbv zeta.
  rewrite (frame_input_agrees ab hann startSample endSample hop total frame)
    by assumption.
  rewrite (shader_transform_agrees f Hf). reflexivity.
Qed.

(** X16. The two builders agree.  In exact arithmetic, for FFT size 1024, a
    positive hop and at least one channel: whenever the CPU builder and the
    WebGPU builder both return a spectrogram for the same request, the two
    hold the same cells, the same number of frames and bins, and the same
    hop, sample rate, durations and slice; they differ only in the
    [viewStart]/[viewDuration] label that the WebGPU builder adds. *)
Theorem builders_compute_the_same_spectrogram :
  forall ab start duration hop cpu gpu,
    0 < hop -> 1 <= numberOfChannels ab ->
    computeSpectrogramCPU ab start duration hop 1024 = Ok cpu ->
    computeSpectrogramWebGPU true ab start duration hop 1024 = Some gpu ->
    gpu = {| data := data cpu; frames := frames cpu; bins := bins cpu;
             hopSize := hopSize cpu; sampleRate := sampleRate cpu;
             duration := SpectrogramModule.duration cpu;
             totalDuration := totalDuration cpu;
             sliceStart := sliceStart cpu;
             sliceDuration := sliceDuration cpu;
             viewStart := Some start; viewDuration := Some duration |}.
Proof.
  intros ab start duration hop cpu gpu Hhop Hch Hcpu Hgpu.
  apply computeSpectrogramCPU_ok in Hcpu.
  destruct Hcpu as (f & Hf & Hlen & Hfr & ->).
  unfold computeSpectrogramWebGPU in Hgpu.
  cbn [negb orb Z.eqb Pos.eqb] in Hgpu. cbv zeta in Hgpu.
  rewrite Z.max_r in Hgpu by lia.
  destruct (_ || _); [discriminate|].
  injection Hgpu as <-. cbn [data frames bins hopSize sampleRate
    SpectrogramModule.duration totalDuration sliceStart sliceDuration].
  rewrite (map_ext_in
             (shaderMain
                (concat
                   (map (gpuFrameInput ab (buildHann 1024)
                           (startSampleOf ab start)
                           (endSampleOf ab start duration) 1024 hop)
                        (zrange (frameCount (segmentLenOf ab start duration)
                                   1024 hop)))))
             (cpuFrame f (buildHann 1024)
                (mixdown ab (startSampleOf ab start)
                   (segmentLenOf ab start duration))
                1024 hop (1024 / 2))); [reflexivity|].
  intros frame Hframe. apply in_zrange in Hframe.
  unfold segmentLenOf in *.
  assert (Hseg : Z.max 0 (endSampleOf ab start duration
                          - startSampleOf ab start)
                 = endSampleOf ab start duration - startSampleOf ab start)
    by lia.
  rewrite Hseg in *.
  change (1024 / 2) with 512.
  apply shaderMain_is_cpuFrame; try assumption; lia.
Qed.

Lemma builders_compute_the_same_spectrogram_witness :
  exists cpu gpu,
    computeSpectrogramCPU silence2s 0 2 960 1024 = Ok cpu /\
    computeSpectrogramWebGPU true silence2s 0 2 960 1024 = Some gpu /\
    data gpu = data cpu /\ frames gpu = frames cpu.
Proof.
  destruct (computeSpectrogramCPU_succeeds silence2s 0 2 960 1024)
    as [cpu Hcpu]; [vm_compute; discriminate | vm_compute; reflexivity
                    | reflexivity |].
  destruct (gpu_builder_succeeds silence2s 0 2 960) as [gpu Hgpu];
    [vm_compute; discriminate|].
  exists cpu, gpu. split; [exact Hcpu|]. split; [exact Hgpu|].
  rewrite (builders_compute_the_same_spectrogram silence2s 0 2 960 cpu gpu);
    [split; reflexivity | lia | vm_compute; discriminate | exact Hcpu
     | exact Hgpu].
Defined.

(** ** Sanitising labels and comments *)

Lemma Subseq_refl {A} (l : list A) : Subseq l l.
Proof. induction l; [constructor | now apply Subseq_keep]. Qed.

Lemma Subseq_nil_l {A} (l : list A) : Subseq [] l.
Proof. induction l; [constructor | now apply Subseq_skip]. Qed.

Lemma Subseq_trans {A} (a b c : list A) :
  Subseq a b -> Subseq b c -> Subseq a c.
Proof.
  intros Hab Hbc. revert a Hab.
  induction Hbc as [|x b c Hbc IH|x b c Hbc IH]; intros a Hab.
  - exact Hab.
  - apply Subseq_skip, IH, Hab.
  - inversion Hab; subst.
    + apply Subseq_skip, IH. assumption.
    + apply Subseq_keep, IH. assumption.
Qed.

Lemma Subseq_app {A} (a b c d : list A) :
  Subseq a b -> Subseq c d -> Subseq (a ++ c) (b ++ d).
Proof.
  induction 1 as [|x a b H IH|x a b H IH]; intros Hcd; cbn [app].
  - exact Hcd.
  - apply Subseq_skip, IH, Hcd.
  - apply Subseq_keep, IH, Hcd.
Qed.

Lemma Subseq_rev {A} (a b : list A) :
  Subseq a b -> Subseq (List.rev a) (List.rev b).
Proof.
  induction 1 as [|x a b H IH|x a b H IH]; cbn [List.rev].
  - constructor.
  - rewrite <- (app_nil_r (List.rev a)).
    apply Subseq_app; [exact IH | apply Subseq_nil_l].
  - apply Subseq_app; [exact IH | apply Subseq_refl].
Qed.

Lemma Subseq_filter {A} (p : A -> bool) (l : list A) : Subseq (filter p l) l.
Proof.
  induction l as [|x l IH]; cbn [filter]; [constructor|].
  destruct (p x); [apply Subseq_keep | apply Subseq_skip]; exact IH.
Qed.

Lemma Subseq_firstn {A} (n : nat) (l : list A) : Subseq (firstn n l) l.
Proof.
  revert n. induction l as [|x l IH]; intros [|n]; cbn [firstn].
  - constructor.
  - constructor.
  - apply Subseq_nil_l.
  - apply Subseq_keep, IH.
Qed.

Lemma Subseq_Forall {A} (P : A -> Prop) (a b : list A) :
  Subseq a b -> Forall P b -> Forall P a.
Proof.
  induction 1; intros Hb; inversion Hb; subst; auto.
Qed.

Lemma Subseq_trimStart (s : Sanitize.JsString) :
  Subseq (Sanitize.trimStart s) s.
Proof.
  induction s as [|c s IH]; cbn [Sanitize.trimStart]; [constructor|].
  destruct (Sanitize.isWhiteSpace c);
    [apply Subseq_skip, IH | apply Subseq_refl].
Qed.

Lemma Subseq_trim (s : Sanitize.JsString) : Subseq (Sanitize.trim s) s.
Proof.
  unfold Sanitize.trim.
  rewrite <- (rev_involutive s) at 2. apply Subseq_rev.
  eapply Subseq_trans; [apply Subseq_trimStart|].
  apply Subseq_rev, Subseq_trimStart.
Qed.

Lemma Subseq_stripScheme (s : Sanitize.JsString) :
  forall skip, Subseq (Sanitize.stripScheme skip s) s.
Proof.
  induction s as [|c s IH]; intros skip; cbn [Sanitize.stripScheme];
    [constructor|].
  destruct skip as [|k]; [|apply Subseq_skip, IH].
  destruct (Sanitize.startsWithCI Sanitize.scheme (c :: s));
    [apply Subseq_skip | apply Subseq_keep]; apply IH.
Qed.

Lemma stripDangerous_clean (s : Sanitize.JsString) :
  Forall (fun c => Sanitize.isDangerous c = false) (Sanitize.stripDangerous s).
Proof.
  unfold Sanitize.stripDangerous. apply Forall_forall. intros c Hc.
  apply filter_In in Hc. destruct Hc as [_ Hc].
  now destruct (Sanitize.isDangerous c).
Qed.

Lemma sanitized (n : nat) (input : Sanitize.JsString) :
  let out := firstn n (Sanitize.stripScheme 0
                         (Sanitize.stripDangerous (Sanitize.trim input))) in
  Subseq out input /\ (length out <= n)%nat /\
  Forall (fun c => Sanitize.isDangerous c = false) out.
Proof.
  cbv zeta. split; [|split].
  - eapply Subseq_trans; [apply Subseq_firstn|].
    eapply Subseq_trans; [apply Subseq_stripScheme|].
    eapply Subseq_trans; [apply Subseq_filter | apply Subseq_trim].
  - apply firstn_le_length.
  - eapply Subseq_Forall; [|apply stripDangerous_clean].
    eapply Subseq_trans; [apply Subseq_firstn | apply Subseq_stripScheme].
Qed.

(** X17. [sanitizeLabelName] and [sanitizeComment] only delete.  For every
    input string the result is obtained from the input by deleting code
    units (nothing is added, replaced or reordered), it is at most 100
    (label) or 500 (comment) code units long, and it contains none of
    [<], [>], apostrophe, double quote and [&]; the sanitised label is the first 100 code
    units of the sanitised comment of the same input. *)
Theorem sanitizers_only_delete :
  forall input : Sanitize.JsString,
    let l := Sanitize.sanitizeLabelName input in
    let c := Sanitize.sanitizeComment input in
    (Subseq l input /\ (length l <= 100)%nat /\
     Forall (fun ch => ~ In ch Sanitize.dangerous) l) /\
    (Subseq c input /\ (length c <= 500)%nat /\
     Forall (fun ch => ~ In ch Sanitize.dangerous) c) /\
    l = firstn 100 c.
Proof.
  intros input l c.
  assert (Hclean : forall out,
             Forall (fun ch => Sanitize.isDangerous ch = false) out ->
             Forall (fun ch => ~ In ch Sanitize.dangerous) out).
  { intros out. apply Forall_impl. intros ch Hch Hin.
    unfold Sanitize.isDangerous in Hch.
    assert (existsb (Z.eqb ch) Sanitize.dangerous = true); [|congruence].
    apply existsb_exists. exists ch. split; [exact Hin | apply Z.eqb_refl]. }
  destruct (sanitized 100 input) as (H1 & H2 & H3).
  destruct (sanitized 500 input) as (H4 & H5 & H6).
  split; [|split].
  - split; [exact H1|]. split; [exact H2 | apply Hclean, H3].
  - split; [exact H4|]. split; [exact H5 | apply Hclean, H6].
  - unfold l, c, Sanitize.sanitizeLabelName, Sanitize.sanitizeComment.
    rewrite firstn_firstn. reflexivity.
Qed.

Lemma stripDangerous_fixed (s : Sanitize.JsString) :
  Forall (fun c => ~ In c Sanitize.dangerous) s -> Sanitize.stripDangerous s = s.
Proof.
  unfold Sanitize.stripDangerous.
  induction 1 as [|c s Hc Hs IH]; [reflexivity|]. cbn [filter].
  replace (Sanitize.isDangerous c) with false; [cbn [negb]; now rewrite IH|].
  symmetry. unfold Sanitize.isDangerous.
  destruct (existsb (Z.eqb c) Sanitize.dangerous) eqn:He; [|reflexivity].
  apply existsb_exists in He. destruct He as (d & Hd & Heq).
  apply Z.eqb_eq in Heq. subst d. contradiction.
Qed.

Lemma stripScheme_fixed (s : Sanitize.JsString) :
  (forall k, Sanitize.startsWithCI Sanitize.scheme (skipn k s) = false) ->
  Sanitize.stripScheme 0 s = s.
Proof.
  induction s as [|c s IH]; intros Hno; [reflexivity|].
  cbn [Sanitize.stripScheme].
  rewrite (Hno 0%nat : Sanitize.startsWithCI Sanitize.scheme (c :: s) = false).
  f_equal. apply IH. intros k. exact (Hno (S k)).
Qed.

(** X18. Clean text passes unchanged.  An input of at most 100 code units
    that has no white space at either end ([trim] leaves it alone), none
    of [<], [>], apostrophe, double quote and [&], and no occurrence of [javascript:] in any
    letter case is returned as it is by both sanitisers. *)
Theorem sanitizers_keep_clean_text :
  forall input : Sanitize.JsString,
    (length input <= 100)%nat ->
    Sanitize.trim input = input ->
    Forall (fun ch => ~ In ch Sanitize.dangerous) input ->
    (forall k, Sanitize.startsWithCI Sanitize.scheme (skipn k input) = false) ->
    Sanitize.sanitizeLabelName input = input /\
    Sanitize.sanitizeComment input = input.
Proof.
  intros input Hlen Htrim Hclean Hno.
  unfold Sanitize.sanitizeLabelName, Sanitize.sanitizeComment.
  rewrite Htrim, (stripDangerous_fixed input Hclean),
    (stripScheme_fixed input Hno).
  split; apply firstn_all2; lia.
Qed.

Lemma sanitizers_keep_clean_text_witness :
  Sanitize.sanitizeLabelName introLabel = introLabel.
Proof.
  apply (sanitizers_keep_clean_text introLabel).
  - vm_compute. lia.
  - reflexivity.
  - repeat constructor; vm_compute; intuition congruence.
  - intros [|[|[|[|[|[|k]]]]]]; reflexivity.
Defined.

(** ** The keyframe manager and its history *)

Lemma pop_snoc {A} (l : list A) (x : A) :
  HistoryManager.pop (l ++ [x]) = (Some x, l).
Proof.
  unfold HistoryManager.pop. rewrite rev_app_distr. cbn [List.rev app].
  now rewrite rev_involutive.
Qed.

Lemma pop_nonempty {A} (l : list A) :
  (0 < length l)%nat ->
  exists x rest, l = rest ++ [x] /\ HistoryManager.pop l = (Some x, rest).
Proof.
  intros Hlen. destruct (exists_last (l := l)) as (rest & x & ->).
  - intros ->. cbn in Hlen. lia.
  - exists x, rest. split; [reflexivity | apply pop_snoc].
Qed.

Lemma pushState_stacks {A} (x : A) (h : HistoryManager.History A) :
  (length (HistoryManager.undoStack h) <= 100)%nat ->
  exists rest,
    HistoryManager.undoStack (HistoryManager.pushState x h) = rest ++ [x] /\
    (length rest < 100)%nat /\
    HistoryManager.redoStack (HistoryManager.pushState x h) = [].
Proof.
  intros Hlen. unfold HistoryManager.pushState, HistoryManager.MAX_HISTORY_SIZE.
  cbv zeta. cbn [HistoryManager.undoStack HistoryManager.redoStack].
  rewrite length_app. cbn [length].
  destruct (Nat.ltb_spec 100 (length (HistoryManager.undoStack h) + 1)).
  - destruct (HistoryManager.undoStack h) as [|y u]; [cbn in *; lia|].
    cbn [app tl length] in *. exists u. repeat split. lia.
  - exists (HistoryManager.undoStack h). repeat split. lia.
Qed.

Ltac km_simpl :=
  unfold KeyframeManager.updateAllLabels,
    KeyframeManager.updateLastEditedLabelFromKeyframes,
    KeyframeManager.setKeyframes, KeyframeManager.setAllLabels,
    KeyframeManager.setKfSeq, KeyframeManager.setLastEditedLabel,
    KeyframeManager.setSkipHistory, KeyframeManager.setHistory in *;
  cbn [KeyframeManager.keyframes KeyframeManager.allLabels
       KeyframeManager.kfSeq KeyframeManager.lastEditedLabel
       KeyframeManager.skipHistory KeyframeManager.history fst snd] in *.

(** [saveToHistory] while the history is being recorded. *)
Lemma saveToHistory_recorded (s : KeyframeManager.State) :
  KeyframeManager.skipHistory s = false ->
  historyBounded s ->
  exists rest,
    KeyframeManager.saveToHistory s
    = KeyframeManager.setHistory
        {| HistoryManager.undoStack := rest ++ [KeyframeManager.keyframes s];
           HistoryManager.redoStack := [] |} s /\
    (length rest < 100)%nat.
Proof.
  intros Hskip Hb. unfold KeyframeManager.saveToHistory. rewrite Hskip.
  destruct (pushState_stacks (KeyframeManager.keyframes s)
              (KeyframeManager.history s)) as (rest & Hu & Hlen & Hr).
  { unfold historyBounded, HistoryManager.MAX_HISTORY_SIZE in Hb. lia. }
  exists rest. split; [|exact Hlen].
  destruct (HistoryManager.pushState _ _) as [u r].
  cbn [HistoryManager.undoStack HistoryManager.redoStack] in Hu, Hr.
  now subst.
Qed.

(** The running maximum of the [seq] fields. *)
Lemma running_max (step : Q -> KeyframeManager.Keyframe -> Q)
      (kfs : list KeyframeManager.Keyframe) :
  (forall acc kf, (acc <= step acc kf)%Q /\
                  (KeyframeManager.seq kf <= step acc kf)%Q) ->
  forall acc,
    (acc <= fold_left step kfs acc)%Q /\
    Forall (fun kf => (KeyframeManager.seq kf <= fold_left step kfs acc)%Q) kfs.
Proof.
  intros Hstep. induction kfs as [|k kfs IH]; intros acc; cbn [fold_left].
  - split; [apply Qle_refl | constructor].
  - destruct (IH (step acc k)) as [Hacc Hall].
    destruct (Hstep acc k) as [H1 H2]. split.
    + eapply Qle_trans; eassumption.
    + constructor; [eapply Qle_trans; eassumption | exact Hall].
Qed.

Lemma fresh_above_max (kfs : list KeyframeManager.Keyframe) (m : Q) :
  (0 <= m)%Q ->
  Forall (fun kf => (KeyframeManager.seq kf <= m)%Q) kfs ->
  (0 < m + 1)%Q /\
  Forall (fun kf => (KeyframeManager.seq kf < m + 1)%Q) kfs.
Proof.
  intros Hm Hall. split; [Lqa.lra|].
  eapply Forall_impl; [|exact Hall]. intros kf Hkf. cbv beta in *. Lqa.lra.
Qed.

Lemma restore_fresh (state : list KeyframeManager.Keyframe) :
  let maxSeq :=
    fold_left (fun maxSeq kf =>
                 if Qltb maxSeq (KeyframeManager.seq kf)
                 then KeyframeManager.seq kf else maxSeq) state 0%Q in
  (0 < maxSeq + 1)%Q /\
  Forall (fun kf => (KeyframeManager.seq kf < maxSeq + 1)%Q) state.
Proof.
  cbv zeta.
  destruct (running_max
              (fun maxSeq kf => if Qltb maxSeq (KeyframeManager.seq kf)
                                then KeyframeManager.seq kf else maxSeq)
              state) with (acc := 0%Q) as [H0 Hall].
  - intros acc kf. unfold Qltb.
    destruct (Qle_bool (KeyframeManager.seq kf) acc) eqn:Hle; cbn [negb].
    + apply Qle_bool_iff in Hle. split; [apply Qle_refl | exact Hle].
    + split; [|apply Qle_refl].
      apply Qlt_le_weak, Qnot_le_lt. intros Hc.
      apply Qle_bool_iff in Hc. congruence.
  - apply fresh_above_max; assumption.
Qed.

Lemma import_fresh (parsed : list KeyframeManager.Keyframe) :
  (0 < KeyframeManager.maxSeqOf parsed + 1)%Q /\
  Forall (fun kf => (KeyframeManager.seq kf
                     < KeyframeManager.maxSeqOf parsed + 1)%Q) parsed.
Proof.
  unfold KeyframeManager.maxSeqOf.
  destruct (running_max (fun maxSeq kf => Qmax maxSeq (KeyframeManager.seq kf))
              parsed) with (acc := 0%Q) as [H0 Hall].
  - intros acc kf. split; [apply Q.le_max_l | apply Q.le_max_r].
  - apply fresh_above_max; assumption.
Qed.

Lemma removeFirst_Forall (P : KeyframeManager.Keyframe -> Prop) id kfs :
  Forall P kfs -> Forall P (snd (KeyframeManager.removeFirst id kfs)).
Proof.
  induction 1 as [|k kfs Hk Hall IH]; cbn [KeyframeManager.removeFirst];
    [constructor|].
  destruct (KeyframeManager.hasId id k); [exact Hall|].
  destruct (KeyframeManager.removeFirst id kfs) as [removed rest].
  cbn [snd] in *. now constructor.
Qed.

Lemma updateFirst_seq (q : Q) id u kfs :
  Forall (fun kf => (KeyframeManager.seq kf < q)%Q) kfs ->
  Forall (fun kf => (KeyframeManager.seq kf < q)%Q)
         (KeyframeManager.updateFirst id u kfs).
Proof.
  induction 1 as [|k kfs Hk Hall IH]; cbn [KeyframeManager.updateFirst];
    [constructor|].
  destruct (KeyframeManager.hasId id k); constructor; assumption.
Qed.

(** What [performUndo] and [performRedo] leave behind after a restore. *)
Lemma restored (state : list KeyframeManager.Keyframe)
      (s : KeyframeManager.State) :
  let s' := KeyframeManager.setSkipHistory false
              (KeyframeManager.restoreKeyframesFromState state
                 (KeyframeManager.setSkipHistory true s)) in
  KeyframeManager.keyframes s' = state /\
  KeyframeManager.history s' = KeyframeManager.history s /\
  idsFresh s' /\ settled s'.
Proof.
  cbv zeta. unfold KeyframeManager.restoreKeyframesFromState. cbv zeta.
  unfold idsFresh, settled. km_simpl.
  split; [reflexivity|]. split; [reflexivity|].
  split; [apply restore_fresh | split; reflexivity].
Qed.

Lemma performUndo_step s x rest :
  HistoryManager.undoStack (KeyframeManager.history s) = rest ++ [x] ->
  exists s',
    KeyframeManager.performUndo s = (true, s') /\
    KeyframeManager.keyframes s' = x /\
    KeyframeManager.history s'
    = {| HistoryManager.undoStack := rest;
         HistoryManager.redoStack :=
           HistoryManager.redoStack (KeyframeManager.history s)
           ++ [KeyframeManager.keyframes s] |} /\
    idsFresh s' /\ settled s'.
Proof.
  intros Hu. unfold KeyframeManager.performUndo, HistoryManager.undo,
    HistoryManager.canUndo.
  rewrite Hu, length_app. cbn [length].
  replace (0 <? length rest + 1)%nat with true
    by (symmetry; apply Nat.ltb_lt; lia).
  cbn [negb]. rewrite pop_snoc. eexists. split; [reflexivity|].
  apply (restored x).
Qed.

Lemma performRedo_step s x rest :
  HistoryManager.redoStack (KeyframeManager.history s) = rest ++ [x] ->
  exists s',
    KeyframeManager.performRedo s = (true, s') /\
    KeyframeManager.keyframes s' = x /\
    KeyframeManager.history s'
    = {| HistoryManager.undoStack :=
           HistoryManager.undoStack (KeyframeManager.history s)
           ++ [KeyframeManager.keyframes s];
         HistoryManager.redoStack := rest |} /\
    idsFresh s' /\ settled s'.
Proof.
  intros Hr. unfold KeyframeManager.performRedo, HistoryManager.redo,
    HistoryManager.canRedo.
  rewrite Hr, length_app. cbn [length].
  replace (0 <? length rest + 1)%nat with true
    by (symmetry; apply Nat.ltb_lt; lia).
  cbn [negb]. rewrite pop_snoc. eexists. split; [reflexivity|].
  apply (restored x).
Qed.

Lemma addKeyframe_managed t l c p s :
  managed s -> managed (snd (KeyframeManager.addKeyframe t l c p s)).
Proof.
  intros (Hb & [Hpos Hfresh] & [Hskip Hlab]).
  destruct (saveToHistory_recorded s Hskip Hb) as (rest & Hsave & Hlen).
  unfold KeyframeManager.addKeyframe. cbv zeta. rewrite Hsave.
  unfold managed, historyBounded, idsFresh, settled,
    HistoryManager.MAX_HISTORY_SIZE.
  destruct (KeyframeManager.isEmpty _); km_simpl;
    cbn [HistoryManager.undoStack HistoryManager.redoStack length];
    rewrite ?length_app; cbn [length];
    (split; [lia|]); (split; [|split; [assumption | reflexivity]]);
    (split; [Lqa.lra|]); apply Forall_app;
    (split; [eapply Forall_impl; [|exact Hfresh]; intros kf Hkf;
             cbv beta in *; Lqa.lra
            | constructor; [cbn [KeyframeManager.seq]; Lqa.lra | constructor]]).
Qed.

Lemma removeKeyframe_managed id s :
  managed s -> managed (snd (KeyframeManager.removeKeyframe id s)).
Proof.
  intros Hm. pose proof Hm as (Hb & [Hpos Hfresh] & [Hskip Hlab]).
  unfold KeyframeManager.removeKeyframe.
  destruct (negb _); [exact Hm|].
  destruct (saveToHistory_recorded s Hskip Hb) as (rest & Hsave & Hlen).
  rewrite Hsave. km_simpl.
  pose proof (removeFirst_Forall _ id _ Hfresh) as Hrest.
  destruct (KeyframeManager.removeFirst id (KeyframeManager.keyframes s))
    as [removed kept].
  unfold managed, historyBounded, idsFresh, settled,
    HistoryManager.MAX_HISTORY_SIZE. km_simpl.
  cbn [HistoryManager.undoStack HistoryManager.redoStack length].
  rewrite length_app. cbn [length].
  split; [lia|]. split; [split; assumption | split; [assumption|reflexivity]].
Qed.

Lemma updateKeyframe_managed id u b s :
  managed s -> managed (KeyframeManager.updateKeyframe id u b s).
Proof.
  intros Hm. pose proof Hm as (Hb & [Hpos Hfresh] & [Hskip Hlab]).
  unfold KeyframeManager.updateKeyframe.
  destruct (negb _); [exact Hm|]. cbv zeta.
  destruct (saveToHistory_recorded s Hskip Hb) as (rest & Hsave & Hlen).
  pose proof (updateFirst_seq _ id u _ Hfresh) as Hupd.
  unfold managed, historyBounded, idsFresh, settled,
    HistoryManager.MAX_HISTORY_SIZE in *.
  destruct b; rewrite ?Hsave;
    destruct (KeyframeManager.u_label u) as [lbl|];
    try destruct (KeyframeManager.isEmpty _); km_simpl;
    cbn [HistoryManager.undoStack HistoryManager.redoStack length];
    rewrite ?length_app; cbn [length];
    (split; [lia|]);
    (split; [split; assumption | split; [assumption|reflexivity]]).
Qed.

Lemma clearKeyframes_managed s :
  managed s -> managed (KeyframeManager.clearKeyframes s).
Proof.
  intros (Hb & [Hpos Hfresh] & [Hskip Hlab]).
  unfold KeyframeManager.clearKeyframes, HistoryManager.clearHistory,
    managed, historyBounded, idsFresh, settled,
    HistoryManager.MAX_HISTORY_SIZE.
  km_simpl. cbn. split; [lia|].
  split; [split; [assumption|constructor] | split; [assumption|reflexivity]].
Qed.

Lemma importKeyframes_managed d b s s' :
  managed s -> KeyframeManager.importKeyframes d b s = inl s' -> managed s'.
Proof.
  intros (Hb & [Hpos Hfresh] & [Hskip Hlab]).
  unfold KeyframeManager.importKeyframes.
  destruct (KeyframeManager.validateKeyframesData d); [discriminate|].
  cbv zeta. intros H. injection H as <-.
  destruct (saveToHistory_recorded s Hskip Hb) as (rest & Hsave & Hlen).
  unfold managed, historyBounded, idsFresh, settled,
    HistoryManager.MAX_HISTORY_SIZE in *.
  destruct b; rewrite ?Hsave; km_simpl;
    cbn [HistoryManager.undoStack HistoryManager.redoStack length];
    rewrite ?length_app; cbn [length];
    (split; [lia|]);
    (split; [apply import_fresh | split; [assumption|reflexivity]]).
Qed.

Lemma performUndo_managed s :
  managed s -> managed (snd (KeyframeManager.performUndo s)).
Proof.
  intros Hm. pose proof Hm as (Hb & Hfresh & Hset).
  unfold KeyframeManager.performUndo, HistoryManager.undo.
  destruct (HistoryManager.canUndo _) eqn:Hcan; cbn [negb].
  - apply Nat.ltb_lt in Hcan.
    destruct (pop_nonempty _ Hcan) as (x & rest & Hu & Hpop). rewrite Hpop.
    destruct (restored x
                (KeyframeManager.setHistory
                   {| HistoryManager.undoStack := rest;
                      HistoryManager.redoStack :=
                        HistoryManager.redoStack (KeyframeManager.history s)
                        ++ [KeyframeManager.keyframes s] |} s))
      as (Hk & Hh & Hf & Hs).
    cbn [snd]. split; [|split; assumption].
    unfold historyBounded in *. rewrite Hh. km_simpl.
    cbn [HistoryManager.undoStack HistoryManager.redoStack].
    rewrite Hu in Hb. rewrite !length_app in *. cbn [length] in *. lia.
  - cbn [snd]. destruct s as [k a q l sk [u r]]. exact Hm.
Qed.

Lemma performRedo_managed s :
  managed s -> managed (snd (KeyframeManager.performRedo s)).
Proof.
  intros Hm. pose proof Hm as (Hb & Hfresh & Hset).
  unfold KeyframeManager.performRedo, HistoryManager.redo.
  destruct (HistoryManager.canRedo _) eqn:Hcan; cbn [negb].
  - apply Nat.ltb_lt in Hcan.
    destruct (pop_nonempty _ Hcan) as (x & rest & Hu & Hpop). rewrite Hpop.
    destruct (restored x
                (KeyframeManager.setHistory
                   {| HistoryManager.undoStack :=
                        HistoryManager.undoStack (KeyframeManager.history s)
                        ++ [KeyframeManager.keyframes s];
                      HistoryManager.redoStack := rest |} s))
      as (Hk & Hh & Hf & Hs).
    cbn [snd]. split; [|split; assumption].
    unfold historyBounded in *. rewrite Hh. km_simpl.
    cbn [HistoryManager.undoStack HistoryManager.redoStack].
    rewrite Hu in Hb. rewrite !length_app in *. cbn [length] in *. lia.
  - cbn [snd]. destruct s as [k a q l sk [u r]]. exact Hm.
Qed.

Lemma call_managed c s : managed s -> managed (KeyframeManager.call c s).
Proof.
  intros Hm. destruct c as [t l cm p|id|id u b| |d b| |];
    cbn [KeyframeManager.call].
  - now apply addKeyframe_managed.
  - now apply removeKeyframe_managed.
  - now apply updateKeyframe_managed.
  - now apply clearKeyframes_managed.
  - destruct (KeyframeManager.importKeyframes d b s)
      as [s'|e] eqn:Himp; [|exact Hm].
    eapply importKeyframes_managed; eassumption.
  - now apply performUndo_managed.
  - now apply performRedo_managed.
Qed.

Lemma session_managed calls s :
  managed s -> managed (KeyframeManager.session calls s).
Proof.
  unfold KeyframeManager.session. revert s.
  induction calls as [|c calls IH]; intros s Hm; cbn [fold_left];
    [exact Hm|].
  apply IH, call_managed, Hm.
Qed.

Lemma initial_managed : managed KeyframeManager.initial.
Proof.
  unfold managed, historyBounded, idsFresh, settled. cbn.
  repeat split; try constructor; try lia.
Qed.

(** X19. The history never outgrows its limit.  After any sequence of calls
    (add, remove, update, clear, import, undo, redo) from the initial
    state, the undo stack and the redo stack together hold at most
    [MAX_HISTORY_SIZE] = 100 snapshots, and the history is being recorded
    again ([skipHistory] is false). *)
Theorem history_stays_bounded :
  forall calls : list KeyframeManager.Call,
    let s := KeyframeManager.session calls KeyframeManager.initial in
    (length (HistoryManager.undoStack (KeyframeManager.history s))
     + length (HistoryManager.redoStack (KeyframeManager.history s))
     <= 100)%nat /\
    KeyframeManager.skipHistory s = false.
Proof.
  intros calls s.
  destruct (session_managed calls _ initial_managed) as (Hb & _ & [Hskip _]).
  split; [exact Hb | exact Hskip].
Qed.

(** ** Ids within the exact range *)

Lemma wholeUpTo_le (b b' : Z) (q : Q) :
  b <= b' -> wholeUpTo b q -> wholeUpTo b' q.
Proof. intros Hb (z & Hq & Hz). exists z. split; [exact Hq | lia]. Qed.

Lemma wholeUpTo_eq (b : Z) (q q' : Q) :
  (q == q')%Q -> wholeUpTo b q -> wholeUpTo b q'.
Proof.
  intros Heq (z & Hq & Hz). exists z. split; [|exact Hz].
  now rewrite <- Heq.
Qed.

Lemma wholeUpTo_succ (b : Z) (q : Q) :
  wholeUpTo b q -> wholeUpTo (b + 1) (q + 1).
Proof.
  intros (z & Hq & Hz). exists (z + 1). split; [|lia].
  rewrite Hq, inject_Z_plus. reflexivity.
Qed.

Lemma wholeUpTo_lt (b : Z) (q : Q) : wholeUpTo b q -> (0 < q)%Q.
Proof.
  intros (z & Hq & Hz). rewrite Hq. change 0%Q with (inject_Z 0).
  rewrite <- Zlt_Qlt. lia.
Qed.

Lemma seqsWithin_le (b b' : Z) kfs :
  b <= b' -> seqsWithin b kfs -> seqsWithin b' kfs.
Proof.
  intros Hb Hall. eapply Forall_impl; [|exact Hall].
  intros kf. now apply wholeUpTo_le.
Qed.

Lemma snapshots_le (b b' : Z) (stack : list (list KeyframeManager.Keyframe)) :
  b <= b' -> Forall (seqsWithin b) stack -> Forall (seqsWithin b') stack.
Proof.
  intros Hb Hall. eapply Forall_impl; [|exact Hall].
  intros kfs. now apply seqsWithin_le.
Qed.

Lemma idsWithin_le (b b' : Z) s : b <= b' -> idsWithin b s -> idsWithin b' s.
Proof.
  intros Hb (Hk & Hs & Hu & Hr). split; [|split; [|split]].
  - apply (wholeUpTo_le (b + 1)); [lia | exact Hk].
  - now apply (seqsWithin_le b).
  - now apply (snapshots_le b).
  - now apply (snapshots_le b).
Qed.

Lemma saveToHistory_within (b : Z) s :
  idsWithin b s ->
  idsWithin b (KeyframeManager.saveToHistory s) /\
  KeyframeManager.kfSeq (KeyframeManager.saveToHistory s)
  = KeyframeManager.kfSeq s /\
  KeyframeManager.keyframes (KeyframeManager.saveToHistory s)
  = KeyframeManager.keyframes s.
Proof.
  intros (Hk & Hs & Hu & Hr). unfold KeyframeManager.saveToHistory.
  destruct (KeyframeManager.skipHistory s).
  - repeat split; assumption.
  - split; [|split; reflexivity].
    unfold idsWithin, HistoryManager.pushState. km_simpl. cbv zeta.
    cbn [HistoryManager.undoStack HistoryManager.redoStack].
    split; [exact Hk|]. split; [exact Hs|]. split; [|constructor].
    assert (Hpushed : Forall (seqsWithin b)
                        (HistoryManager.undoStack (KeyframeManager.history s)
                         ++ [KeyframeManager.keyframes s])).
    { apply Forall_app. split; [exact Hu|]. constructor; [exact Hs|constructor]. }
    destruct (_ <? _)%nat; [|exact Hpushed].
    destruct (HistoryManager.undoStack (KeyframeManager.history s) ++ _)
      as [|x rest]; [constructor|].
    cbn [tl]. now inversion Hpushed.
Qed.

Lemma addKeyframe_within (b : Z) t l c p s :
  idsWithin b s ->
  idsWithin (b + 1) (snd (KeyframeManager.addKeyframe t l c p s)).
Proof.
  intros Hin. destruct (saveToHistory_within b s Hin) as ((Hk & Hs & Hu & Hr) & _).
  unfold KeyframeManager.addKeyframe. cbv zeta.
  set (s1 := KeyframeManager.saveToHistory s) in *.
  unfold idsWithin.
  destruct (KeyframeManager.isEmpty _); km_simpl;
    (split; [now apply wholeUpTo_succ|]);
    (split; [|split; now apply (snapshots_le b); [lia|]]);
    (apply Forall_app; split;
     [apply (seqsWithin_le b); [lia | exact Hs]
     | constructor; [exact Hk | constructor]]).
Qed.

Lemma removeKeyframe_within (b : Z) id s :
  idsWithin b s -> idsWithin b (snd (KeyframeManager.removeKeyframe id s)).
Proof.
  intros Hin. unfold KeyframeManager.removeKeyframe.
  destruct (negb _); [exact Hin|].
  destruct (saveToHistory_within b s Hin) as ((Hk & Hs & Hu & Hr) & _).
  set (s1 := KeyframeManager.saveToHistory s) in *.
  pose proof (removeFirst_Forall _ id _ Hs) as Hrest.
  destruct (KeyframeManager.removeFirst id (KeyframeManager.keyframes s1))
    as [removed kept].
  unfold idsWithin. km_simpl. repeat split; assumption.
Qed.

Lemma updateFirst_within (b : Z) id u kfs :
  seqsWithin b kfs -> seqsWithin b (KeyframeManager.updateFirst id u kfs).
Proof.
  induction 1 as [|k kfs Hk Hall IH]; cbn [KeyframeManager.updateFirst];
    [constructor|].
  destruct (KeyframeManager.hasId id k); constructor; assumption.
Qed.

Lemma updateKeyframe_within (b : Z) id u sv s :
  idsWithin b s -> idsWithin b (KeyframeManager.updateKeyframe id u sv s).
Proof.
  intros Hin. unfold KeyframeManager.updateKeyframe.
  destruct (negb _); [exact Hin|]. cbv zeta.
  assert (H1 : idsWithin b (if sv then KeyframeManager.saveToHistory s else s))
    by (destruct sv; [apply saveToHistory_within|]; exact Hin).
  destruct H1 as (Hk & Hs & Hu & Hr).
  set (s1 := if sv then _ else s) in *.
  pose proof (updateFirst_within b id u _ Hs) as Hupd.
  unfold idsWithin.
  destruct (KeyframeManager.u_label u) as [lbl|];
    try destruct (KeyframeManager.isEmpty _); km_simpl;
    repeat split; assumption.
Qed.

Lemma clearKeyframes_within (b : Z) s :
  idsWithin b s -> idsWithin b (KeyframeManager.clearKeyframes s).
Proof.
  intros (Hk & Hs & Hu & Hr).
  unfold KeyframeManager.clearKeyframes, HistoryManager.clearHistory, idsWithin.
  km_simpl. cbn [HistoryManager.empty HistoryManager.undoStack
                 HistoryManager.redoStack].
  split; [exact Hk|]. repeat split; constructor.
Qed.

(** A running maximum stays whole: every step returns the accumulator or
    the [seq] just seen. *)
Lemma running_max_within (b : Z)
      (step : Q -> KeyframeManager.Keyframe -> Q)
      (kfs : list KeyframeManager.Keyframe) :
  (forall acc kf, (step acc kf == acc)%Q \/
                  (step acc kf == KeyframeManager.seq kf)%Q) ->
  seqsWithin b kfs ->
  forall acc,
    (acc == 0)%Q \/ wholeUpTo b acc ->
    (fold_left step kfs acc == 0)%Q \/ wholeUpTo b (fold_left step kfs acc).
Proof.
  intros Hstep Hall. induction Hall as [|k kfs Hk Hall IH]; intros acc Hacc;
    cbn [fold_left]; [exact Hacc|].
  apply IH. destruct (Hstep acc k) as [Heq|Heq].
  - destruct Hacc as [H0|Hw].
    + left. now rewrite Heq.
    + right. apply (wholeUpTo_eq b acc); [now symmetry | exact Hw].
  - right. apply (wholeUpTo_eq b (KeyframeManager.seq k));
      [now symmetry | exact Hk].
Qed.

Lemma counter_above_max (b : Z) (m : Q) :
  0 <= b -> (m == 0)%Q \/ wholeUpTo b m -> wholeUpTo (b + 1) (m + 1).
Proof.
  intros Hb [H0|Hw]; [|now apply wholeUpTo_succ].
  exists 1. split; [|lia]. rewrite H0. reflexivity.
Qed.

Lemma restore_within (b : Z) state s :
  0 <= b ->
  seqsWithin b state ->
  Forall (seqsWithin b) (HistoryManager.undoStack (KeyframeManager.history s)) ->
  Forall (seqsWithin b) (HistoryManager.redoStack (KeyframeManager.history s)) ->
  idsWithin b
    (KeyframeManager.setSkipHistory false
       (KeyframeManager.restoreKeyframesFromState state
          (KeyframeManager.setSkipHistory true s))).
Proof.
  intros Hb Hstate Hu Hr.
  unfold KeyframeManager.restoreKeyframesFromState, idsWithin. cbv zeta.
  km_simpl. split; [|split; [exact Hstate | split; assumption]].
  apply counter_above_max; [exact Hb|].
  apply running_max_within; [|exact Hstate | left; reflexivity].
  intros acc kf. destruct (Qltb acc (KeyframeManager.seq kf));
    [right | left]; reflexivity.
Qed.

Lemma performUndo_within (b : Z) s :
  0 <= b -> idsWithin b s -> idsWithin b (snd (KeyframeManager.performUndo s)).
Proof.
  intros Hb Hin. pose proof Hin as (Hk & Hs & Hu & Hr).
  unfold KeyframeManager.performUndo, HistoryManager.undo.
  destruct (HistoryManager.canUndo _) eqn:Hcan; cbn [negb].
  - apply Nat.ltb_lt in Hcan.
    destruct (pop_nonempty _ Hcan) as (x & rest & Hlast & Hpop). rewrite Hpop.
    rewrite Hlast in Hu. apply Forall_app in Hu. destruct Hu as [Hrest Hx].
    cbn [snd]. apply restore_within; [exact Hb | now inversion Hx | |];
      km_simpl; cbn [HistoryManager.undoStack HistoryManager.redoStack];
      [exact Hrest|].
    apply Forall_app. split; [exact Hr|]. constructor; [exact Hs|constructor].
  - cbn [snd]. destruct s as [k a q l sk [u r]]. exact Hin.
Qed.

Lemma performRedo_within (b : Z) s :
  0 <= b -> idsWithin b s -> idsWithin b (snd (KeyframeManager.performRedo s)).
Proof.
  intros Hb Hin. pose proof Hin as (Hk & Hs & Hu & Hr).
  unfold KeyframeManager.performRedo, HistoryManager.redo.
  destruct (HistoryManager.canRedo _) eqn:Hcan; cbn [negb].
  - apply Nat.ltb_lt in Hcan.
    destruct (pop_nonempty _ Hcan) as (x & rest & Hlast & Hpop). rewrite Hpop.
    rewrite Hlast in Hr. apply Forall_app in Hr. destruct Hr as [Hrest Hx].
    cbn [snd]. apply restore_within; [exact Hb | now inversion Hx | |];
      km_simpl; cbn [HistoryManager.undoStack HistoryManager.redoStack];
      [|exact Hrest].
    apply Forall_app. split; [exact Hu|]. constructor; [exact Hs|constructor].
  - cbn [snd]. destruct s as [k a q l sk [u r]]. exact Hin.
Qed.

(** The [seq] that the import loop gives an entry. *)
Lemma parseEntry_within (limit i : Z) raw :
  0 <= i < 10000 ->
  idWithin limit (KeyframeManager.raw_id raw) = true ->
  wholeUpTo (Z.max limit 10000)
            (KeyframeManager.seq (KeyframeManager.parseEntry i raw)).
Proof.
  intros Hi Hid. unfold KeyframeManager.parseEntry. cbv zeta.
  cbn [KeyframeManager.seq]. unfold idWithin in Hid.
  assert (Hindex : wholeUpTo (Z.max limit 10000) (inject_Z (i + 1)))
    by (exists (i + 1); split; [reflexivity | lia]).
  destruct (KeyframeManager.numberOf (KeyframeManager.raw_id raw)) as [q|];
    [|exact Hindex].
  destruct (Qle_bool q 0) eqn:Hneg; [exact Hindex|].
  cbn [orb] in Hid. apply andb_true_iff in Hid. destruct Hid as [Hwhole Hle].
  apply Qeq_bool_iff in Hwhole. apply Z.leb_le in Hle.
  exists (Qfloor q). split; [exact Hwhole|]. split; [|lia].
  assert (Hpos : (0 < q)%Q).
  { apply Qnot_le_lt. intros Hc. apply Qle_bool_iff in Hc. congruence. }
  rewrite Hwhole in Hpos. change 0%Q with (inject_Z 0) in Hpos.
  now rewrite <- Zlt_Qlt in Hpos.
Qed.

Lemma parseEntries_within (limit : Z) entries :
  forall i, 0 <= i -> i + Z.of_nat (length entries) <= 10000 ->
    forallb (entryWithin limit) entries = true ->
    seqsWithin (Z.max limit 10000) (KeyframeManager.parseEntries i entries).
Proof.
  induction entries as [|e entries IH]; intros i Hi Hlen Hall;
    cbn [KeyframeManager.parseEntries]; [constructor|].
  cbn [length forallb] in Hlen, Hall.
  apply andb_true_iff in Hall. destruct Hall as [He Hall].
  assert (Hrest : seqsWithin (Z.max limit 10000)
                    (KeyframeManager.parseEntries (i + 1) entries))
    by (apply IH; [lia | lia | exact Hall]).
  destruct e as [|raw]; [exact Hrest|].
  constructor; [|exact Hrest].
  apply parseEntry_within; [lia | exact He].
Qed.

(** What a successful import leaves behind. *)
Lemma imported (data : KeyframeManager.RawData) (keep : bool) s s' :
  KeyframeManager.importKeyframes data keep s = inl s' ->
  exists entries,
    data = KeyframeManager.KeyframesArray entries /\
    Z.of_nat (length entries) <= 10000 /\
    KeyframeManager.validateEntries 0 entries = None /\
    KeyframeManager.keyframes s' = KeyframeManager.parseEntries 0 entries /\
    (KeyframeManager.kfSeq s'
     = KeyframeManager.maxSeqOf (KeyframeManager.parseEntries 0 entries) + 1)%Q /\
    KeyframeManager.history s'
    = KeyframeManager.history
        (if keep then s else KeyframeManager.saveToHistory s).
Proof.
  intros Himp. unfold KeyframeManager.importKeyframes in Himp.
  destruct (KeyframeManager.validateKeyframesData data) eqn:Hvalid;
    [discriminate|].
  cbv zeta in Himp. injection Himp as <-.
  destruct data as [| |entries]; try discriminate.
  cbn [KeyframeManager.validateKeyframesData] in Hvalid.
  destruct (Z.ltb_spec 10000 (Z.of_nat (length entries))) as [|Hcount];
    [discriminate|].
  exists entries. km_simpl. repeat split; assumption.
Qed.

(** The keyframes and the counter that an import of at most 10,000
    entries with ids in the range computes. *)
Lemma parsed_within (limit : Z) entries :
  Z.of_nat (length entries) <= 10000 ->
  forallb (entryWithin limit) entries = true ->
  seqsWithin (Z.max limit 10000) (KeyframeManager.parseEntries 0 entries) /\
  wholeUpTo (Z.max limit 10000 + 1)
            (KeyframeManager.maxSeqOf (KeyframeManager.parseEntries 0 entries)
             + 1).
Proof.
  intros Hcount Hall.
  pose proof (parseEntries_within limit entries 0 ltac:(lia) ltac:(lia) Hall)
    as Hparsed.
  split; [exact Hparsed|].
  apply counter_above_max; [lia|].
  unfold KeyframeManager.maxSeqOf.
  apply running_max_within; [|exact Hparsed | left; reflexivity].
  intros acc kf.
  destruct (Q.max_spec acc (KeyframeManager.seq kf)) as [[_ H]|[_ H]];
    [right | left]; exact H.
Qed.

Lemma importKeyframes_within (limit b : Z) data keep s s' :
  Z.max limit 10000 <= b ->
  idsWithin b s ->
  callWithin limit (KeyframeManager.CallImport data keep) = true ->
  KeyframeManager.importKeyframes data keep s = inl s' ->
  idsWithin b s'.
Proof.
  intros Hb Hin Hcall Himp.
  destruct (imported data keep s s' Himp)
    as (entries & -> & Hcount & _ & Hkfs & Hseq & Hhist).
  cbn [callWithin] in Hcall.
  destruct (parsed_within limit entries Hcount Hcall) as [Hparsed Hcounter].
  rewrite <- Hkfs in Hparsed. rewrite <- Hseq in Hcounter.
  assert (H1 : idsWithin b (if keep then s else KeyframeManager.saveToHistory s))
    by (destruct keep; [|apply saveToHistory_within]; exact Hin).
  destruct H1 as (_ & _ & Hu & Hr). rewrite <- Hhist in Hu, Hr.
  split; [|split; [|split; assumption]].
  - apply (wholeUpTo_le (Z.max limit 10000 + 1)); [lia | exact Hcounter].
  - apply (seqsWithin_le (Z.max limit 10000)); [lia | exact Hparsed].
Qed.

Lemma call_within (limit b : Z) c s :
  Z.max limit 10000 <= b ->
  idsWithin b s -> callWithin limit c = true ->
  idsWithin (b + 1) (KeyframeManager.call c s).
Proof.
  intros Hb Hin Hcall.
  destruct c as [t l cm p|id|id u sv| |d keep| |]; cbn [KeyframeManager.call].
  - now apply addKeyframe_within.
  - apply (idsWithin_le b); [lia|]. now apply removeKeyframe_within.
  - apply (idsWithin_le b); [lia|]. now apply updateKeyframe_within.
  - apply (idsWithin_le b); [lia|]. now apply clearKeyframes_within.
  - apply (idsWithin_le b); [lia|].
    destruct (KeyframeManager.importKeyframes d keep s) as [s'|e] eqn:Himp;
      [|exact Hin].
    exact (importKeyframes_within limit b d keep s s' Hb Hin Hcall Himp).
  - apply (idsWithin_le b); [lia|]. apply performUndo_within; [lia | exact Hin].
  - apply (idsWithin_le b); [lia|]. apply performRedo_within; [lia | exact Hin].
Qed.

Lemma session_within (limit : Z) calls :
  forall b s,
    Z.max limit 10000 <= b ->
    idsWithin b s -> forallb (callWithin limit) calls = true ->
    idsWithin (b + Z.of_nat (length calls)) (KeyframeManager.session calls s).
Proof.
  unfold KeyframeManager.session.
  induction calls as [|c calls IH]; intros b s Hb Hin Hall;
    cbn [fold_left length forallb] in *.
  - now replace (b + Z.of_nat 0) with b by lia.
  - apply andb_true_iff in Hall. destruct Hall as [Hc Hall].
    replace (b + Z.of_nat (S (length calls)))
      with (b + 1 + Z.of_nat (length calls)) by lia.
    apply IH; [lia | | exact Hall]. now apply (call_within limit).
Qed.

Lemma initial_within (b : Z) : 0 <= b -> idsWithin b KeyframeManager.initial.
Proof.
  intros Hb. unfold idsWithin. cbn. split; [|repeat split; constructor].
  exists 1. split; [reflexivity | lia].
Qed.

(** X20. Ids are never handed out twice among the live keyframes, as long
    as the numbers stay whole and below [2^53].  Take any sequence of calls
    from the initial state in which every id that an import file carries
    as a finite positive number is a whole number up to [limit], with
    [max limit 10000], the number of calls and 2 together at most [2^53].
    Then [kfSeq] is a positive whole number up to [2^53 - 1] and above
    the [seq] of every keyframe held, each of them a positive whole number
    too; the keyframe that the next [addKeyframe] creates carries the
    [seq] [kfSeq] (and with it the id [kf-seq]), which no keyframe already
    in the list has, and it leaves [kfSeq + 1] in the counter. *)
Theorem next_id_is_fresh :
  forall (limit : Z) (calls : list KeyframeManager.Call) t l c p,
    forallb (callWithin limit) calls = true ->
    Z.max limit 10000 + Z.of_nat (length calls) + 2 <= 2 ^ 53 ->
    let s := KeyframeManager.session calls KeyframeManager.initial in
    let added := KeyframeManager.addKeyframe t l c p s in
    wholeUpTo (2 ^ 53 - 1) (KeyframeManager.kfSeq s) /\
    Forall (fun kf =>
              wholeUpTo (2 ^ 53 - 1) (KeyframeManager.seq kf) /\
              (KeyframeManager.seq kf < KeyframeManager.kfSeq s)%Q)
           (KeyframeManager.keyframes s) /\
    KeyframeManager.seq (fst added) = KeyframeManager.kfSeq s /\
    Forall (fun kf => KeyframeManager.hasId
                        (KeyframeManager.seq (fst added)) kf = false)
           (KeyframeManager.keyframes s) /\
    KeyframeManager.keyframes (snd added)
    = KeyframeManager.keyframes s ++ [fst added] /\
    KeyframeManager.kfSeq (snd added) = (KeyframeManager.kfSeq s + 1)%Q.
Proof.
  intros limit calls t l c p Hcalls Hbudget s added.
  destruct (session_managed calls _ initial_managed)
    as (Hb & [Hpos Hfresh] & [Hskip Hlab]).
  fold s in Hb, Hpos, Hfresh, Hskip, Hlab.
  destruct (session_within limit calls (Z.max limit 10000)
              KeyframeManager.initial)
    as (Hcounter & Hseqs & _); [lia | apply initial_within; lia | exact Hcalls|].
  fold s in Hcounter, Hseqs.
  destruct (saveToHistory_recorded s Hskip Hb) as (rest & Hsave & Hlen).
  assert (Hseq : KeyframeManager.seq (fst added) = KeyframeManager.kfSeq s).
  { unfold added, KeyframeManager.addKeyframe. cbv zeta. rewrite Hsave.
    reflexivity. }
  split; [|split; [|split; [exact Hseq | split; [|split]]]].
  - eapply wholeUpTo_le; [|exact Hcounter]. lia.
  - apply Forall_forall. intros kf Hkf.
    unfold seqsWithin in Hseqs. rewrite Forall_forall in Hseqs, Hfresh.
    split; [|now apply Hfresh].
    eapply wholeUpTo_le; [|apply Hseqs, Hkf]. lia.
  - rewrite Hseq. eapply Forall_impl; [|exact Hfresh].
    intros kf Hkf. cbv beta in Hkf. unfold KeyframeManager.hasId.
    destruct (Qeq_bool _ _) eqn:Heq; [|reflexivity].
    apply Qeq_bool_iff in Heq. rewrite Heq in Hkf.
    exfalso. exact (Qlt_irrefl _ Hkf).
  - unfold added, KeyframeManager.addKeyframe. cbv zeta. rewrite Hsave.
    destruct (KeyframeManager.isEmpty _); reflexivity.
  - unfold added, KeyframeManager.addKeyframe. cbv zeta. rewrite Hsave.
    destruct (KeyframeManager.isEmpty _); reflexivity.
Qed.

Lemma next_id_is_fresh_witness :
  wholeUpTo (2 ^ 53 - 1)
    (KeyframeManager.kfSeq
       (KeyframeManager.session
          [KeyframeManager.CallImport twoEntryFile false;
           KeyframeManager.CallUndo; KeyframeManager.CallRedo]
          KeyframeManager.initial)).
Proof.
  destruct (next_id_is_fresh 7
              [KeyframeManager.CallImport twoEntryFile false;
               KeyframeManager.CallUndo; KeyframeManager.CallRedo]
              0%Q [] [] None) as [Hcounter _];
    [reflexivity | vm_compute; discriminate | exact Hcounter].
Defined.

(** X21. Undo takes an edit back.  In a state reached by any sequence of
    calls, each edit that records history — an add, the removal or the
    update (with [saveHistory]) of a keyframe that exists, a successful
    import that keeps the history — followed at once by [performUndo]
    gives back exactly the keyframes held before the edit, and
    [performUndo] reports success. *)
Theorem undo_takes_an_edit_back :
  forall (calls : list KeyframeManager.Call) (edit : KeyframeManager.Call),
    let s := KeyframeManager.session calls KeyframeManager.initial in
    match edit with
    | KeyframeManager.CallAdd _ _ _ _ => True
    | KeyframeManager.CallRemove id =>
        existsb (KeyframeManager.hasId id) (KeyframeManager.keyframes s) = true
    | KeyframeManager.CallUpdate id _ saveHistory =>
        existsb (KeyframeManager.hasId id) (KeyframeManager.keyframes s) = true
        /\ saveHistory = true
    | KeyframeManager.CallImport data clearHistoryOnImport =>
        KeyframeManager.validateKeyframesData data = None /\
        clearHistoryOnImport = false
    | _ => False
    end ->
    let undone :=
      KeyframeManager.performUndo (KeyframeManager.call edit s) in
    fst undone = true /\
    KeyframeManager.keyframes (snd undone) = KeyframeManager.keyframes s.
Proof.
  intros calls edit s Hedit undone.
  destruct (session_managed calls _ initial_managed)
    as (Hb & Hfresh & [Hskip Hlab]).
  fold s in Hb, Hfresh, Hskip, Hlab.
  destruct (saveToHistory_recorded s Hskip Hb) as (rest & Hsave & Hlen).
  assert (Hshape : exists kfs lbls q lst,
             KeyframeManager.call edit s
             = {| KeyframeManager.keyframes := kfs;
                  KeyframeManager.allLabels := lbls;
                  KeyframeManager.kfSeq := q;
                  KeyframeManager.lastEditedLabel := lst;
                  KeyframeManager.skipHistory := false;
                  KeyframeManager.history :=
                    {| HistoryManager.undoStack :=
                         rest ++ [KeyframeManager.keyframes s];
                       HistoryManager.redoStack := [] |} |}).
  { destruct edit as [t l cm p|id|id updates b| |d b| |];
      cbn [KeyframeManager.call]; try contradiction.
    - unfold KeyframeManager.addKeyframe. cbv zeta. rewrite Hsave.
      destruct (KeyframeManager.isEmpty _); km_simpl; rewrite Hskip;
        repeat eexists.
    - unfold KeyframeManager.removeKeyframe. rewrite Hedit. cbn [negb].
      rewrite Hsave. km_simpl.
      destruct (KeyframeManager.removeFirst id (KeyframeManager.keyframes s)).
      km_simpl. rewrite Hskip. repeat eexists.
    - destruct Hedit as [Hfound ->].
      unfold KeyframeManager.updateKeyframe. rewrite Hfound. cbn [negb].
      cbv zeta. rewrite Hsave.
      destruct (KeyframeManager.u_label updates);
        try destruct (KeyframeManager.isEmpty _); km_simpl; rewrite Hskip;
        repeat eexists.
    - destruct Hedit as [Hvalid ->].
      unfold KeyframeManager.importKeyframes. rewrite Hvalid. cbv zeta.
      rewrite Hsave. km_simpl. rewrite Hskip. repeat eexists. }
  destruct Hshape as (kfs & lbls & q & lst & Hcall).
  unfold undone. rewrite Hcall.
  unfold KeyframeManager.performUndo, HistoryManager.undo,
    HistoryManager.canUndo.
  cbn [KeyframeManager.history KeyframeManager.keyframes
       HistoryManager.undoStack HistoryManager.redoStack].
  rewrite length_app. cbn [length].
  replace (0 <? length rest + 1)%nat with true
    by (symmetry; apply Nat.ltb_lt; lia).
  cbn [negb]. rewrite pop_snoc. cbn [fst snd].
  split; [reflexivity|].
  apply (restored (KeyframeManager.keyframes s)).
Qed.

Lemma undo_takes_an_edit_back_witness :
  KeyframeManager.keyframes
    (snd (KeyframeManager.performUndo
            (KeyframeManager.call (KeyframeManager.CallRemove 1)
               (KeyframeManager.session
                  [KeyframeManager.CallAdd 1.5 introLabel [] None]
                  KeyframeManager.initial))))
  = KeyframeManager.keyframes
      (KeyframeManager.session
         [KeyframeManager.CallAdd 1.5 introLabel [] None]
         KeyframeManager.initial).
Proof.
  apply (undo_takes_an_edit_back
           [KeyframeManager.CallAdd 1.5 introLabel [] None]
           (KeyframeManager.CallRemove 1)).
  reflexivity.
Defined.

(** X22. Undo and redo are inverse to each other.  In any state in which an
    undo is possible, [performUndo] followed by [performRedo] gives back
    the same keyframes and the same two stacks; and likewise
    [performRedo] followed by [performUndo] where a redo is possible. *)
Theorem undo_then_redo_changes_nothing :
  forall s : KeyframeManager.State,
    (HistoryManager.canUndo (KeyframeManager.history s) = true ->
     let s' := snd (KeyframeManager.performRedo
                      (snd (KeyframeManager.performUndo s))) in
     KeyframeManager.keyframes s' = KeyframeManager.keyframes s /\
     KeyframeManager.history s' = KeyframeManager.history s) /\
    (HistoryManager.canRedo (KeyframeManager.history s) = true ->
     let s' := snd (KeyframeManager.performUndo
                      (snd (KeyframeManager.performRedo s))) in
     KeyframeManager.keyframes s' = KeyframeManager.keyframes s /\
     KeyframeManager.history s' = KeyframeManager.history s).
Proof.
  intros s. split; intros Hcan; apply Nat.ltb_lt in Hcan.
  - destruct (pop_nonempty _ Hcan) as (x & rest & Hu & _).
    destruct (performUndo_step s x rest Hu) as (s1 & Hrun1 & Hk1 & Hh1 & _).
    cbv zeta. rewrite Hrun1. cbn [snd].
    destruct (performRedo_step s1 (KeyframeManager.keyframes s)
                (HistoryManager.redoStack (KeyframeManager.history s)))
      as (s2 & Hrun2 & Hk2 & Hh2 & _); [now rewrite Hh1|].
    rewrite Hrun2. cbn [snd]. split; [exact Hk2|].
    rewrite Hh2, Hh1, Hk1. cbn [HistoryManager.undoStack]. rewrite <- Hu.
    now destruct (KeyframeManager.history s).
  - destruct (pop_nonempty _ Hcan) as (x & rest & Hr & _).
    destruct (performRedo_step s x rest Hr) as (s1 & Hrun1 & Hk1 & Hh1 & _).
    cbv zeta. rewrite Hrun1. cbn [snd].
    destruct (performUndo_step s1 (KeyframeManager.keyframes s)
                (HistoryManager.undoStack (KeyframeManager.history s)))
      as (s2 & Hrun2 & Hk2 & Hh2 & _); [now rewrite Hh1|].
    rewrite Hrun2. cbn [snd]. split; [exact Hk2|].
    rewrite Hh2, Hh1, Hk1. cbn [HistoryManager.redoStack]. rewrite <- Hr.
    now destruct (KeyframeManager.history s).
Qed.

Lemma undo_then_redo_changes_nothing_witness :
  KeyframeManager.keyframes
    (snd (KeyframeManager.performRedo
            (snd (KeyframeManager.performUndo afterOneAdd))))
  = KeyframeManager.keyframes afterOneAdd.
Proof.
  destruct (undo_then_redo_changes_nothing afterOneAdd) as [Hundo _].
  apply Hundo. reflexivity.
Defined.

(** ** The label list *)

Lemma strEqb_eq (a b : Sanitize.JsString) :
  KeyframeManager.strEqb a b = true <-> a = b.
Proof.
  revert b. induction a as [|x a IH]; intros [|y b];
    cbn [KeyframeManager.strEqb]; split; intros H;
    try reflexivity; try discriminate.
  - apply andb_true_iff in H. destruct H as [Hx Ha].
    apply Z.eqb_eq in Hx. apply IH in Ha. now subst.
  - injection H as -> ->. rewrite Z.eqb_refl. cbn [andb]. now apply IH.
Qed.

Lemma strLeb_total (a b : Sanitize.JsString) :
  KeyframeManager.strLeb a b = false -> KeyframeManager.strLeb b a = true.
Proof.
  revert b. induction a as [|x a IH]; intros [|y b];
    cbn [KeyframeManager.strLeb]; intros H; try reflexivity;
    try discriminate.
  apply orb_false_iff in H. destruct H as [Hlt Heq].
  apply Z.ltb_ge in Hlt.
  destruct (Z.ltb_spec y x) as [|Hge]; [reflexivity|]. cbn [orb].
  assert (x = y) by lia. subst y. rewrite Z.eqb_refl in *. cbn [andb] in *.
  now apply IH.
Qed.

Lemma insertSorted_In (x y : Sanitize.JsString) (l : list Sanitize.JsString) :
  In y (KeyframeManager.insertSorted x l) <-> y = x \/ In y l.
Proof.
  induction l as [|z l IH]; cbn [KeyframeManager.insertSorted].
  - cbn [In]. intuition.
  - destruct (KeyframeManager.strLeb x z); cbn [In]; [intuition|].
    rewrite IH. intuition.
Qed.

Lemma insertSorted_NoDup (x : Sanitize.JsString) l :
  ~ In x l -> NoDup l -> NoDup (KeyframeManager.insertSorted x l).
Proof.
  induction l as [|z l IH]; intros Hx Hl; cbn [KeyframeManager.insertSorted].
  - constructor; [intros [] | constructor].
  - destruct (KeyframeManager.strLeb x z); [now constructor|].
    inversion Hl; subst. constructor.
    + rewrite insertSorted_In. intros [->|Hin]; [|contradiction].
      apply Hx. now left.
    + apply IH; [|assumption]. intros Hin. apply Hx. now right.
Qed.

Lemma insertSorted_Sorted (x : Sanitize.JsString) l :
  Sorted (fun a b => KeyframeManager.strLeb a b = true) l ->
  Sorted (fun a b => KeyframeManager.strLeb a b = true)
         (KeyframeManager.insertSorted x l).
Proof.
  induction 1 as [|z l Hsorted IH Hhd]; cbn [KeyframeManager.insertSorted].
  - repeat constructor.
  - destruct (KeyframeManager.strLeb x z) eqn:Hle.
    + constructor; [now constructor | now constructor].
    + constructor; [exact IH|].
      destruct l as [|w l]; cbn [KeyframeManager.insertSorted].
      * constructor. now apply strLeb_total.
      * destruct (KeyframeManager.strLeb x w).
        -- constructor. now apply strLeb_total.
        -- inversion Hhd; subst. now constructor.
Qed.

Lemma addToSet_spec (set : list Sanitize.JsString) (x y : Sanitize.JsString) :
  (In y (KeyframeManager.addToSet set x) <-> In y set \/ y = x) /\
  (NoDup set -> NoDup (KeyframeManager.addToSet set x)).
Proof.
  unfold KeyframeManager.addToSet.
  destruct (existsb (KeyframeManager.strEqb x) set) eqn:Hex.
  - apply existsb_exists in Hex. destruct Hex as (z & Hz & Heq).
    apply strEqb_eq in Heq. subst z. split; [|auto].
    split; [now left | intros [H| ->]; assumption].
  - split.
    + rewrite in_app_iff. cbn [In]. intuition.
    + intros Hnd. apply NoDup_app; [exact Hnd | repeat constructor; intros [] |].
      intros z Hz [<-|[]].
      assert (existsb (KeyframeManager.strEqb x) set = true); [|congruence].
      apply existsb_exists. exists x. split; [exact Hz|]. now apply strEqb_eq.
Qed.

Lemma labelSet_spec (kfs : list KeyframeManager.Keyframe) :
  forall set,
    let out :=
      fold_left (fun set kf =>
                   if KeyframeManager.isEmpty (KeyframeManager.label kf)
                   then set
                   else KeyframeManager.addToSet set (KeyframeManager.label kf))
                kfs set in
    (forall y, In y out <->
               In y set \/
               (y <> [] /\ exists kf, In kf kfs /\ KeyframeManager.label kf = y))
    /\ (NoDup set -> NoDup out).
Proof.
  induction kfs as [|k kfs IH]; intros set; cbn [fold_left].
  - split; [|auto]. intros y. split; [now left|].
    intros [H|(_ & kf & [] & _)]. exact H.
  - cbv zeta in IH.
    destruct (KeyframeManager.isEmpty (KeyframeManager.label k)) eqn:Hemp.
    + destruct (IH set) as [Hin Hnd]. split; [|exact Hnd].
      intros y. rewrite Hin. split.
      * intros [H|(Hy & kf & Hkf & Hl)]; [now left|].
        right. split; [exact Hy|]. exists kf. split; [now right | exact Hl].
      * intros [H|(Hy & kf & [->|Hkf] & Hl)]; [now left | |].
        -- rewrite Hl in Hemp. destruct y; [contradiction | discriminate].
        -- right. split; [exact Hy|]. now exists kf.
    + destruct (IH (KeyframeManager.addToSet set (KeyframeManager.label k)))
        as [Hin Hnd].
      destruct (addToSet_spec set (KeyframeManager.label k)
                  (KeyframeManager.label k)) as [_ Hnd0].
      split; [|auto]. intros y. rewrite Hin.
      destruct (addToSet_spec set (KeyframeManager.label k) y) as [Hadd _].
      rewrite Hadd. split.
      * intros [[H| ->]|(Hy & kf & Hkf & Hl)].
        -- now left.
        -- right. split.
           ++ intros Hnil. rewrite Hnil in Hemp. discriminate.
           ++ exists k. split; [now left | reflexivity].
        -- right. split; [exact Hy|]. exists kf. split; [now right | exact Hl].
      * intros [H|(Hy & kf & [->|Hkf] & Hl)].
        -- left. now left.
        -- left. right. now symmetry.
        -- right. split; [exact Hy|]. now exists kf.
Qed.

Lemma sorted_list_spec (l : list Sanitize.JsString) :
  NoDup l ->
  (forall y, In y (fold_right KeyframeManager.insertSorted [] l) <-> In y l) /\
  NoDup (fold_right KeyframeManager.insertSorted [] l) /\
  Sorted (fun a b => KeyframeManager.strLeb a b = true)
         (fold_right KeyframeManager.insertSorted [] l).
Proof.
  induction 1 as [|x l Hx Hnd IH]; cbn [fold_right].
  - split; [reflexivity|]. split; constructor.
  - destruct IH as (Hin & Hnd' & Hsorted). split; [|split].
    + intros y. rewrite insertSorted_In, Hin. cbn [In]. intuition.
    + apply insertSorted_NoDup; [now rewrite Hin | exact Hnd'].
    + now apply insertSorted_Sorted.
Qed.

(** X23. The label list is the sorted set of the labels in use.  After any
    sequence of calls from the initial state, [allLabels] holds exactly
    the non-empty labels of the current keyframes, each once, in
    ascending order of their code units. *)
Theorem allLabels_is_sorted_set_of_labels :
  forall calls : list KeyframeManager.Call,
    let s := KeyframeManager.session calls KeyframeManager.initial in
    (forall y, In y (KeyframeManager.allLabels s) <->
               y <> [] /\
               exists kf, In kf (KeyframeManager.keyframes s) /\
                          KeyframeManager.label kf = y) /\
    NoDup (KeyframeManager.allLabels s) /\
    Sorted (fun a b => KeyframeManager.strLeb a b = true)
           (KeyframeManager.allLabels s).
Proof.
  intros calls s.
  destruct (session_managed calls _ initial_managed) as (_ & _ & [_ Hlab]).
  fold s in Hlab. rewrite Hlab. unfold KeyframeManager.labelsOf. cbv zeta.
  destruct (labelSet_spec (KeyframeManager.keyframes s) []) as [Hin Hnd].
  cbv zeta in Hin, Hnd.
  destruct (sorted_list_spec _ (Hnd (NoDup_nil _))) as (Hin2 & Hnd2 & Hsorted).
  split; [|split; assumption].
  intros y. rewrite Hin2, Hin. cbn [In]. intuition.
Qed.

(** ** Importing keyframes *)

Lemma validated_entries (entries : list KeyframeManager.RawEntry) :
  forall i, 0 <= i ->
    KeyframeManager.validateEntries i entries = None ->
    length (KeyframeManager.parseEntries i entries) = length entries /\
    Forall (fun kf => (0 <= KeyframeManager.time kf)%Q /\
                      (KeyframeManager.time kf <= 86400)%Q /\
                      (0 < KeyframeManager.seq kf)%Q /\
                      KeyframeManager.pointId kf = None)
           (KeyframeManager.parseEntries i entries).
Proof.
  induction entries as [|e entries IH]; intros i Hi Hvalid;
    cbn [KeyframeManager.validateEntries KeyframeManager.parseEntries] in *.
  - split; [reflexivity | constructor].
  - destruct e as [|raw]; [discriminate|].
    destruct (KeyframeManager.numberOf (KeyframeManager.raw_time raw))
      as [t|] eqn:Ht; [|discriminate].
    destruct (Qltb t 0) eqn:Hneg; [discriminate|].
    destruct (Qltb 86400 t) eqn:Hlong; [discriminate|].
    destruct (IH (i + 1) ltac:(lia) Hvalid) as [Hlen Hall].
    cbn [length]. split; [now rewrite Hlen|].
    constructor; [|exact Hall].
    unfold KeyframeManager.parseEntry. cbv zeta.
    cbn [KeyframeManager.time KeyframeManager.seq KeyframeManager.pointId].
    rewrite Ht. unfold Qltb in Hneg, Hlong.
    apply negb_false_iff, Qle_bool_iff in Hneg, Hlong.
    split; [exact Hneg|]. split; [exact Hlong|]. split; [|reflexivity].
    assert (Hnext : (0 < inject_Z (i + 1))%Q)
      by (change 0%Q with (inject_Z 0); rewrite <- Zlt_Qlt; lia).
    destruct (KeyframeManager.numberOf (KeyframeManager.raw_id raw))
      as [q|]; [|exact Hnext].
    destruct (Qle_bool q 0) eqn:Hq; [exact Hnext|].
    apply Qnot_le_lt. intros Hc. apply Qle_bool_iff in Hc. congruence.
Qed.

(** X24. What an import lets in.  Whenever [importKeyframes] returns instead
    of throwing, the data held a keyframes array of at most 10,000
    entries, and the keyframes are replaced by one keyframe per entry,
    each with a time between 0 and 86,400 seconds, a positive [seq] and no
    [pointId].  If moreover every id that the file carries as a finite
    positive number is a whole number below [2^53], every [seq] is such a
    number and lies below the new [kfSeq], a whole number up to [2^53]. *)
Theorem import_lets_in_only_valid_keyframes :
  forall data clearHistoryOnImport s s',
    KeyframeManager.importKeyframes data clearHistoryOnImport s = inl s' ->
    exists entries,
      data = KeyframeManager.KeyframesArray entries /\
      length (KeyframeManager.keyframes s') = length entries /\
      Z.of_nat (length entries) <= 10000 /\
      Forall (fun kf => (0 <= KeyframeManager.time kf)%Q /\
                        (KeyframeManager.time kf <= 86400)%Q /\
                        (0 < KeyframeManager.seq kf)%Q /\
                        KeyframeManager.pointId kf = None)
             (KeyframeManager.keyframes s') /\
      (forallb (entryWithin (2 ^ 53 - 1)) entries = true ->
       wholeUpTo (2 ^ 53) (KeyframeManager.kfSeq s') /\
       Forall (fun kf =>
                 wholeUpTo (2 ^ 53 - 1) (KeyframeManager.seq kf) /\
                 (KeyframeManager.seq kf < KeyframeManager.kfSeq s')%Q)
              (KeyframeManager.keyframes s')).
Proof.
  intros data keep s s' Himp.
  destruct (imported data keep s s' Himp)
    as (entries & -> & Hcount & Hvalid & Hkfs & Hseq & _).
  destruct (validated_entries entries 0 ltac:(lia) Hvalid) as [Hlen Hall].
  exists entries. rewrite Hkfs, Hseq.
  split; [reflexivity|]. split; [exact Hlen|]. split; [exact Hcount|].
  split; [exact Hall|].
  intros Hids.
  destruct (parsed_within (2 ^ 53 - 1) entries Hcount Hids)
    as [Hparsed Hcounter].
  destruct (import_fresh (KeyframeManager.parseEntries 0 entries))
    as [_ Hfresh].
  split.
  - eapply wholeUpTo_le; [|exact Hcounter]. lia.
  - apply Forall_forall. intros kf Hkf.
    unfold seqsWithin in Hparsed. rewrite Forall_forall in Hparsed, Hfresh.
    split; [|now apply Hfresh].
    eapply wholeUpTo_le; [|apply Hparsed, Hkf]. lia.
Qed.

Lemma import_lets_in_only_valid_keyframes_witness :
  exists s',
    KeyframeManager.importKeyframes twoEntryFile false KeyframeManager.initial
    = inl s' /\
    length (KeyframeManager.keyframes s') = 2%nat /\
    wholeUpTo (2 ^ 53) (KeyframeManager.kfSeq s').
Proof.
  eexists. split; [reflexivity|].
  destruct (import_lets_in_only_valid_keyframes twoEntryFile false
              KeyframeManager.initial _ eq_refl)
    as (entries & Hdata & Hlen & _ & _ & Hids).
  injection Hdata as <-. split; [exact Hlen|].
  now destruct (Hids eq_refl) as [Hcounter _].
Defined.

(** ** What the renderer leaves on the canvas *)

Lemma byteAt_setZ (d : list Z) (i k v : Z) :
  0 <= k ->
  byteAt (setZ d i v) k
  = if (k =? i) && (i <? Z.of_nat (length d)) then v else byteAt d k.
Proof.
  intros Hk. unfold byteAt, setZ.
  destruct (Z.ltb_spec i 0) as [Hneg|Hpos].
  - destruct (Z.eqb_spec k i); [lia | reflexivity].
  - rewrite nth_setNth.
    destruct (Nat.eqb_spec (Z.to_nat k) (Z.to_nat i)),
             (Nat.ltb_spec (Z.to_nat i) (length d)),
             (Z.eqb_spec k i), (Z.ltb_spec i (Z.of_nat (length d)));
      cbn [andb]; try reflexivity; lia.
Qed.

Lemma Forall_setNth {A} (P : A -> Prop) (a : list A) (n : nat) (v : A) :
  Forall P a -> P v -> Forall P (setNth a n v).
Proof.
  intros Ha Hv. revert n. induction Ha as [|x a Hx Ha IH]; intros [|n];
    cbn [setNth]; constructor; auto.
Qed.

Lemma Forall_setZ (P : Z -> Prop) (a : list Z) (i v : Z) :
  Forall P a -> P v -> Forall P (setZ a i v).
Proof.
  intros Ha Hv. unfold setZ. destruct (i <? 0); [exact Ha|].
  now apply Forall_setNth.
Qed.

Lemma HEAT_LUT_bytes :
  forall lut, In lut HEAT_LUT ->
    isByte (fst (fst lut)) /\ isByte (snd (fst lut)) /\ isByte (snd lut).
Proof.
  assert (Hall : forallb lutEntryOk HEAT_LUT = true) by (vm_compute; reflexivity).
  rewrite forallb_forall in Hall. intros lut Hin.
  specialize (Hall lut Hin). unfold lutEntryOk in Hall. unfold isByte.
  repeat (apply andb_true_iff in Hall; destruct Hall as [Hall ?]).
  lia.
Qed.

Lemma fold_left_zrange_steps {St} (P : Z -> St -> Prop) (f : St -> Z -> St)
      (n : Z) (a : St) :
  P 0 a ->
  (forall i st, 0 <= i < n -> P i st -> P (i + 1) (f st i)) ->
  P (Z.max 0 n) (fold_left f (zrange n) a).
Proof.
  intros H0 Hstep.
  assert (Hall : forall m : nat,
             Z.of_nat m <= Z.max 0 n ->
             P (Z.of_nat m) (fold_left f (zrange (Z.of_nat m)) a)).
  { induction m as [|m IH]; intros Hm; [exact H0|].
    rewrite zrange_succ, fold_left_app. cbn [fold_left].
    replace (Z.of_nat (S m)) with (Z.of_nat m + 1) by lia.
    apply Hstep; [lia|]. apply IH. lia. }
  specialize (Hall (Z.to_nat n) ltac:(lia)).
  replace (Z.of_nat (Z.to_nat n)) with (Z.max 0 n) in Hall by lia.
  replace (zrange (Z.max 0 n)) with (zrange n) in Hall; [exact Hall|].
  unfold zrange. f_equal. f_equal. lia.
Qed.

Section Painting.
Variables (spec : Spectrogram) (w h : Z).

Lemma paintPixel_step frameBase binScale X Y dest :
  0 <= X < w -> 0 <= Y < h ->
  paintedUpTo w h X Y dest ->
  paintedUpTo w h X (Y + 1) (paintPixel spec w frameBase binScale X dest Y).
Proof.
  intros HX HY (d & -> & Hlen & Hbytes & Halpha).
  unfold paintPixel. cbv zeta.
  match goal with
  | |- context [nth_error HEAT_LUT (Z.to_nat (lutIndex ?v))] =>
      destruct (lut_entry_defined v) as [lut Hlut]
  end.
  rewrite Hlut.
  destruct (HEAT_LUT_bytes lut (nth_error_In _ _ Hlut)) as (Hr & Hg & Hb).
  set (p := (Y * w + X) * 4).
  eexists. split; [reflexivity|]. split; [|split].
  - now rewrite !setZ_length.
  - repeat apply Forall_setZ; try assumption. unfold isByte. lia.
  - intros x y Hx Hy.
    assert (Hin : p + 3 < Z.of_nat (length d)) by (rewrite Hlen; unfold p; nia).
    assert (Hp : 0 <= p) by (unfold p; nia).
    rewrite !byteAt_setZ by nia. rewrite !setZ_length.
    specialize (Halpha x y Hx Hy).
    destruct (Z.eq_dec x X) as [->|Hxne].
    + destruct (Z.eq_dec y Y) as [->|Hyne].
      * fold p. rewrite Z.eqb_refl.
        destruct (Z.ltb_spec (p + 3) (Z.of_nat (length d))); [|lia].
        cbn [andb].
        destruct (Z.ltb_spec X X); [lia|]. rewrite Z.eqb_refl.
        destruct (Z.ltb_spec Y (Y + 1)); [reflexivity | lia].
      * assert (Hother : (y * w + X) * 4 + 3 <> p + 3 /\
                         (y * w + X) * 4 + 3 <> p + 2 /\
                         (y * w + X) * 4 + 3 <> p + 1 /\
                         (y * w + X) * 4 + 3 <> p) by (unfold p; nia).
        destruct Hother as (H3 & H2 & H1 & H0).
        apply Z.eqb_neq in H3, H2, H1, H0. rewrite H3, H2, H1, H0.
        cbn [andb]. rewrite Halpha.
        destruct (Z.ltb_spec X X); [lia|]. rewrite Z.eqb_refl. cbn [orb andb].
        destruct (Z.ltb_spec y Y), (Z.ltb_spec y (Y + 1)); try reflexivity; lia.
    + assert (Hother : (y * w + x) * 4 + 3 <> p + 3 /\
                       (y * w + x) * 4 + 3 <> p + 2 /\
                       (y * w + x) * 4 + 3 <> p + 1 /\
                       (y * w + x) * 4 + 3 <> p).
      { unfold p. repeat split; intros Heq.
        - assert (Hrow : (y - Y) * w = X - x) by lia.
          destruct (Z.lt_trichotomy y Y) as [Hlt|[Heq0|Hgt]]; [| |].
          + assert ((y - Y) * w <= -1 * w)
              by (apply Z.mul_le_mono_nonneg_r; lia). lia.
          + subst y. lia.
          + assert (1 * w <= (y - Y) * w)
              by (apply Z.mul_le_mono_nonneg_r; lia). lia.
        - lia.
        - lia.
        - lia. }
      destruct Hother as (H3 & H2 & H1 & H0).
      apply Z.eqb_neq in H3, H2, H1, H0. rewrite H3, H2, H1, H0.
      cbn [andb]. rewrite Halpha.
      apply Z.eqb_neq in Hxne. rewrite Hxne. reflexivity.
Qed.

Lemma paintColumn_step vs ppsDev binScale X dest :
  0 <= X < w ->
  paintedUpTo w h X 0 dest ->
  paintedUpTo w h (X + 1) 0 (paintColumn spec vs ppsDev w h binScale dest X).
Proof.
  intros HX Hstart. unfold paintColumn. cbv zeta.
  match goal with
  | |- context [fold_left ?f (zrange h) dest] =>
      pose proof (fold_left_zrange_steps (paintedUpTo w h X) f h dest Hstart)
        as Hend
  end.
  destruct Hend as (d & Hd & Hlen & Hbytes & Halpha).
  { intros i st Hi. now apply paintPixel_step. }
  exists d. split; [exact Hd|]. split; [exact Hlen|]. split; [exact Hbytes|].
  intros x y Hx Hy. rewrite (Halpha x y Hx Hy).
  destruct (Z.ltb_spec x X), (Z.eqb_spec x X), (Z.ltb_spec x (X + 1)),
    (Z.eqb_spec x (X + 1)), (Z.ltb_spec y (Z.max 0 h)), (Z.ltb_spec y 0);
    cbn [orb andb]; try reflexivity; lia.
Qed.

Lemma blank_canvas : paintedUpTo w h 0 0 (Some (blankPixels w h)).
Proof.
  exists (blankPixels w h). split; [reflexivity|]. unfold blankPixels.
  split; [apply repeat_length|]. split.
  - apply Forall_forall. intros b Hb. apply repeat_spec in Hb. subst.
    unfold isByte. lia.
  - intros x y Hx Hy. unfold byteAt.
    destruct (Z.ltb_spec x 0), (Z.eqb_spec x 0), (Z.ltb_spec y 0);
      cbn [orb andb]; try lia;
      (rewrite nth_repeat_lt || rewrite nth_repeat); try reflexivity; nia.
Qed.

End Painting.

(** X25. The bitmap that [drawSpectrogram] puts on the canvas.  Painting a
    spectrogram always returns; the canvas keeps its width and height and
    its bitmap keeps the size [4 * width * height]; every entry is a byte
    between 0 and 255; and the alpha byte of the pixel [(x, y)] is 255 in
    the columns [x < drawWidth] that the loops visit and 0 (transparent)
    in the others, where [drawWidth] is the smaller of the canvas width
    and the rounded width of the view in device pixels. *)
Theorem painting_fills_the_view_columns :
  forall env spec vs vd ppsCss c s,
  exists s' dest,
    paintSpectrogram env spec vs vd ppsCss c s = Returned s' /\
    spectrumCanvas s'
    = Some {| cv_width := cv_width c; cv_height := cv_height c;
              cv_pixels := dest |} /\
    length dest = Z.to_nat (4 * cv_width c * cv_height c) /\
    Forall (fun b => 0 <= b <= 255) dest /\
    let drawWidth :=
      Z.min (cv_width c)
            (roundQ (specViewDuration s' * (ppsCss * dprOf env))) in
    forall x y, 0 <= x < cv_width c -> 0 <= y < cv_height c ->
      nth (Z.to_nat ((y * cv_width c + x) * 4 + 3)) dest 0
      = if x <? drawWidth then 255 else 0.
Proof.
  intros env spec vs vd ppsCss c s. unfold paintSpectrogram. cbv zeta.
  set (w := cv_width c). set (h := cv_height c).
  match goal with
  | |- context [fold_left ?f (zrange ?n) (Some (blankPixels w h))] =>
      set (drawWidth := n);
      pose proof (fold_left_zrange_steps
                    (fun X => paintedUpTo w h X 0) f drawWidth
                    (Some (blankPixels w h)) (blank_canvas w h)) as Hend
  end.
  destruct Hend as (d & Hd & Hlen & Hbytes & Halpha).
  { intros X st HX. apply paintColumn_step. unfold drawWidth in HX. lia. }
  rewrite Hd. eexists. exists d. split; [reflexivity|].
  unfold_setters. split; [reflexivity|]. split; [exact Hlen|].
  split; [exact Hbytes|].
  intros x y Hx Hy. fold drawWidth.
  change (nth (Z.to_nat ((y * w + x) * 4 + 3)) d 0)
    with (byteAt d ((y * w + x) * 4 + 3)).
  rewrite (Halpha x y Hx Hy).
  destruct (Z.ltb_spec x (Z.max 0 drawWidth)), (Z.ltb_spec x drawWidth),
    (Z.eqb_spec x (Z.max 0 drawWidth)), (Z.ltb_spec y 0);
    cbn [orb andb]; try reflexivity; lia.
Qed.

Lemma view_clamp (vs vd total : Q) :
  (0 <= total)%Q ->
  let vd0 := if Qltb 0 vd then vd else total in
  let d := Qmin vd0 total in
  let st := Utils.clampQ vs 0 (Qmax 0 (total - d)) in
  (0 <= st)%Q /\ (0 <= d)%Q /\ (st + d <= total)%Q /\
  ((0 <= vs)%Q -> (0 < vd)%Q -> (vs + vd <= total)%Q ->
   (st == vs)%Q /\ (d == vd)%Q).
Proof.
  intros Htotal. cbv zeta. unfold Utils.clampQ, Qltb.
  assert (Hvd0 : exists vd0,
             (if negb (Qle_bool vd 0) then vd else total) = vd0 /\
             (0 <= vd0)%Q /\ ((0 < vd)%Q -> vd0 = vd)).
  { destruct (Qle_bool vd 0) eqn:Hvd; cbn [negb].
    - apply Qle_bool_iff in Hvd. exists total. split; [reflexivity|].
      split; [exact Htotal|]. intros Hpos. exfalso.
      exact (Qlt_not_le _ _ Hpos Hvd).
    - exists vd. split; [reflexivity|]. split; [|reflexivity].
      apply Qlt_le_weak, Qnot_le_lt. intros Hc.
      apply Qle_bool_iff in Hc. congruence. }
  destruct Hvd0 as (vd0 & -> & Hvd0 & Hsame).
  pose proof (Q.min_spec vd0 total) as Hd.
  set (d := Qmin vd0 total) in *. clearbody d.
  pose proof (Q.max_spec 0 (total - d)) as Hhi.
  set (hi := Qmax 0 (total - d)) in *. clearbody hi.
  pose proof (Q.max_spec 0 vs) as Hlo.
  set (lo := Qmax 0 vs) in *. clearbody lo.
  pose proof (Q.min_spec hi lo) as Hst.
  set (st := Qmin hi lo) in *. clearbody st.
  split; [|split; [|split]].
  4: { intros H0 Hpos Hin. rewrite (Hsame Hpos) in Hd.
       destruct Hd as [[? ?]|[? ?]], Hhi as [[? ?]|[? ?]],
         Hlo as [[? ?]|[? ?]], Hst as [[? ?]|[? ?]]; split; Lqa.lra. }
  all: destruct Hd as [[? ?]|[? ?]], Hhi as [[? ?]|[? ?]],
         Hlo as [[? ?]|[? ?]], Hst as [[? ?]|[? ?]]; Lqa.lra.
Qed.

(** X26. The view that the renderer records.  For a spectrogram whose
    [totalDuration] is not negative, [specViewStart] and
    [specViewDuration] as [drawSpectrogram] leaves them describe a window
    inside the track: both are at least 0 and their sum is at most
    [totalDuration]; a requested window that already lies inside the
    track (with a positive duration) is recorded unchanged. *)
Theorem recorded_view_lies_inside_the_track :
  forall env spec vs vd ppsCss c s,
    (0 <= totalDuration spec)%Q ->
    let s' := stateOf (paintSpectrogram env spec vs vd ppsCss c s) in
    (0 <= specViewStart s')%Q /\ (0 <= specViewDuration s')%Q /\
    (specViewStart s' + specViewDuration s' <= totalDuration spec)%Q /\
    ((0 <= vs)%Q -> (0 < vd)%Q -> (vs + vd <= totalDuration spec)%Q ->
     (specViewStart s' == vs)%Q /\ (specViewDuration s' == vd)%Q).
Proof.
  intros env spec vs vd ppsCss c s Htotal.
  pose proof (view_clamp vs vd (totalDuration spec) Htotal) as Hclamp.
  unfold paintSpectrogram. cbv zeta in *.
  match goal with
  | |- context [fold_left ?f ?l ?a] => destruct (fold_left f l a)
  end; cbn [stateOf]; unfold_setters; exact Hclamp.
Qed.

Lemma recorded_view_lies_inside_the_track_witness :
  (specViewStart
     (stateOf (paintSpectrogram zoomedEnv fullTrack 0.5 1 (48000 / 256)
                 canvas2x2 tiledState)) == 0.5)%Q.
Proof.
  destruct (recorded_view_lies_inside_the_track zoomedEnv fullTrack 0.5 1
              (48000 / 256) canvas2x2 tiledState)
    as (_ & _ & _ & Hsame); [discriminate|].
  apply Hsame; [discriminate | reflexivity | discriminate].
Defined.

(** ** The closest zoom level *)

Lemma findClosestZoomIndex_search (target : R) (zoomLevels : list Z) :
  closestAmong target zoomLevels (Z.of_nat (length zoomLevels))
    (fold_left
       (fun best i =>
          let diff :=
            Rabs (IZR (nth (Z.to_nat i) zoomLevels 0) - target) in
          match snd best with
          | None => (i, Some diff)
          | Some bestDiff =>
              if Rlt_dec diff bestDiff then (i, Some diff) else best
          end)
       (zrange (Z.of_nat (length zoomLevels)))
       (0, None)).
Proof.
  rewrite <- (Z.max_r 0 (Z.of_nat (length zoomLevels))) at 1 by lia.
  apply (fold_left_zrange_steps (closestAmong target zoomLevels)).
  - left. split; reflexivity.
  - intros k best Hk Hbest. cbv zeta.
    fold (levelDistance target zoomLevels k).
    destruct Hbest as [[-> ->]|(Hrange & Hsnd & Hmin)].
    + cbn [snd]. right. cbn [fst snd]. split; [lia|]. split; [reflexivity|].
      intros j Hj. assert (j = 0) by lia. subst j. split; [lra | lia].
    + rewrite Hsnd.
      destruct (Rlt_dec (levelDistance target zoomLevels k)
                        (levelDistance target zoomLevels (fst best)))
        as [Hcloser|Hnot].
      * right. cbn [fst snd]. split; [lia|]. split; [reflexivity|].
        intros j Hj. destruct (Z.eq_dec j k) as [->|Hne].
        -- split; [lra | lia].
        -- destruct (Hmin j ltac:(lia)) as [Hle _]. split; [lra|].
           intros _. lra.
      * right. split; [lia|]. split; [exact Hsnd|].
        intros j Hj. destruct (Z.eq_dec j k) as [->|Hne].
        -- split; [lra | lia].
        -- apply Hmin. lia.
Qed.

(** X27. [findClosestZoomIndex] returns the first closest level.  For a
    non-empty list of zoom levels the index returned is inside the list,
    no level is nearer to the target than the one at that index, and
    every level before it is strictly farther; [currentSamplesPerPixel]
    then returns exactly that level. *)
Theorem closest_zoom_level_is_found :
  forall (target : R) (zoomLevels : list Z),
    zoomLevels <> [] ->
    let idx := ZoomConfig.findClosestZoomIndex target zoomLevels in
    0 <= idx < Z.of_nat (length zoomLevels) /\
    (forall j, 0 <= j < Z.of_nat (length zoomLevels) ->
       (Rabs (IZR (nth (Z.to_nat idx) zoomLevels 0%Z) - target)
        <= Rabs (IZR (nth (Z.to_nat j) zoomLevels 0%Z) - target))%R /\
       (j < idx ->
        (Rabs (IZR (nth (Z.to_nat idx) zoomLevels 0%Z) - target)
         < Rabs (IZR (nth (Z.to_nat j) zoomLevels 0%Z) - target))%R)) /\
    (forall raw,
       target = ZoomConfig.factorToSamplesPerPixel 2048
                  (App.currentSliderFactor raw UIControls.zoomMap) ->
       ZoomConfig.currentSamplesPerPixel raw zoomLevels
       = IZR (nth (Z.to_nat idx) zoomLevels 0%Z)).
Proof.
  intros target zoomLevels Hne idx.
  pose proof (findClosestZoomIndex_search target zoomLevels) as Hsearch.
  unfold idx, ZoomConfig.findClosestZoomIndex.
  destruct Hsearch as [[Hlen _]|(Hrange & _ & Hmin)].
  { destruct zoomLevels; [contradiction | cbn in Hlen; lia]. }
  split; [exact Hrange|]. split; [exact Hmin|].
  intros raw ->. unfold ZoomConfig.currentSamplesPerPixel. cbv zeta.
  unfold ZoomConfig.findClosestZoomIndex.
  match goal with
  | |- context [nth_error zoomLevels ?n] =>
      destruct (nth_error zoomLevels n) as [level|] eqn:Hnth
  end.
  - now rewrite (nth_error_nth _ _ 0 Hnth).
  - apply nth_error_None in Hnth. cbv zeta in Hrange. lia.
Qed.

Lemma closest_zoom_level_is_found_witness :
  ZoomConfig.findClosestZoomIndex 300 [8; 256; 2048] = 1.
Proof.
  destruct (closest_zoom_level_is_found 300 [8; 256; 2048])
    as ([Hlo Hhi] & Hmin & _); [discriminate|].
  set (idx := ZoomConfig.findClosestZoomIndex 300 [8; 256; 2048]) in *.
  cbn [length] in Hhi.
  assert (Hcases : idx = 0 \/ idx = 1 \/ idx = 2) by lia.
  destruct Hcases as [H|[H|H]]; [| exact H |].
  - destruct (Hmin 1 ltac:(cbn; lia)) as [Hle _]. rewrite H in Hle.
    cbn [Z.to_nat nth] in Hle. exfalso.
    change (Pos.to_nat 1) with 1%nat in Hle. cbn [nth] in Hle.
    rewrite !Rabs_left1 in Hle by lra. lra.
  - destruct (Hmin 1 ltac:(cbn; lia)) as [Hle _]. rewrite H in Hle.
    change (Z.to_nat 2) with 2%nat in Hle.
    change (Z.to_nat 1) with 1%nat in Hle. cbn [nth] in Hle. exfalso.
    rewrite Rabs_right in Hle by lra. rewrite Rabs_left1 in Hle by lra. lra.
Defined.

(** ** Cancelling the builds in flight *)

Lemma resume_stale env t s :
  token t < latestToken (kind t) s ->
  spectrogram (resume env t s) = spectrogram s /\
  hiResSpec (resume env t s) = hiResSpec s /\
  installed (resume env t s) = installed s /\
  spectrumCanvas (resume env t s) = spectrumCanvas s /\
  spectrogramRequestId (resume env t s) = spectrogramRequestId s /\
  hiResRequestId (resume env t s) = hiResRequestId s.
Proof.
  intros Hstale. unfold resume.
  destruct (kind t); cbn [latestToken] in Hstale.
  - unfold resumeFull. cbv zeta.
    destruct (Z.eqb_spec (token t) (spectrogramRequestId s)); [lia|].
    cbn [negb]. repeat split.
  - unfold resumeHiRes. cbv zeta.
    destruct (outcome t) as [spec|e]; [|repeat split].
    destruct (Z.eqb_spec (token t) (hiResRequestId s)); [lia|].
    cbn [negb]. repeat split.
Qed.

Lemma runs_in_flight_bounded trace supported canvas t :
  In t (suspended (run trace (initial supported canvas))) ->
  token t <= latestToken (kind t) (run trace (initial supported canvas)).
Proof.
  intros Hin.
  destruct (run_tracks trace _ (initial_tracks supported canvas))
    as [Hord _].
  destruct (Hord (kind t)) as [_ Hbound].
  rewrite Forall_forall in Hbound. apply Hbound.
  unfold tokensInFlight. apply in_map. apply filter_In. split; [exact Hin|].
  now destruct (kind t).
Qed.

(** X28. Tearing down cancels the builds in flight.  In a state reached by
    any execution from the freshly loaded script: after [destroyAll],
    whichever suspended build resumes next (full-track or hi-res, with
    whatever result), the resumption installs nothing: [spectrogram],
    [hiResSpec], the record of installs, the canvas and both counters are
    as [destroyAll] left them; and after [teardownSpectrum] the same holds
    for every suspended full-track build. *)
Theorem teardown_cancels_builds_in_flight :
  forall trace supported canvas env env' n t,
    let s := run trace (initial supported canvas) in
    (nth_error (suspended (destroyAll env s)) n = Some t ->
     let s1 := destroyAll env s in
     let s2 := handle env' (EvResume n) s1 in
     spectrogram s2 = spectrogram s1 /\ hiResSpec s2 = hiResSpec s1 /\
     installed s2 = installed s1 /\ spectrumCanvas s2 = spectrumCanvas s1 /\
     spectrogramRequestId s2 = spectrogramRequestId s1 /\
     hiResRequestId s2 = hiResRequestId s1) /\
    (nth_error (suspended (teardownSpectrum env s)) n = Some t ->
     kind t = FullTrack ->
     let s1 := teardownSpectrum env s in
     let s2 := handle env' (EvResume n) s1 in
     spectrogram s2 = spectrogram s1 /\ hiResSpec s2 = hiResSpec s1 /\
     installed s2 = installed s1 /\ spectrumCanvas s2 = spectrumCanvas s1 /\
     spectrogramRequestId s2 = spectrogramRequestId s1 /\
     hiResRequestId s2 = hiResRequestId s1).
Proof.
  intros trace supported canvas env env' n t s.
  assert (Hframe : forall st,
             suspended (teardownSpectrum env st) = suspended st /\
             spectrogramRequestId (teardownSpectrum env st)
             = spectrogramRequestId st + 1 /\
             hiResRequestId (teardownSpectrum env st) = hiResRequestId st).
  { intros st. unfold teardownSpectrum.
    destruct (clearSpectrumCanvas_frame env
                (setSpectrogram None
                   (setSpectrogramRequestId (spectrogramRequestId st + 1) st)))
      as (H1 & H2 & H3 & _).
    rewrite H1, H2, H3. repeat split. }
  split.
  - intros Hnth. cbv zeta. cbn [handle]. rewrite Hnth.
    set (s1 := destroyAll env s) in *.
    assert (Hin : In t (suspended s)).
    { apply nth_error_In in Hnth. unfold s1, destroyAll in Hnth.
      destruct (Hframe (setHiResRequestId (hiResRequestId s + 1)
                          (setHiResSpec None s))) as (Hs & _).
      rewrite Hs in Hnth. exact Hnth. }
    pose proof (runs_in_flight_bounded trace supported canvas t Hin) as Hle.
    fold s in Hle.
    destruct (resume_stale env' t
                (setSuspended (removeNth n (suspended s1)) s1))
      as (H1 & H2 & H3 & H4 & H5 & H6).
    + unfold s1, destroyAll.
      destruct (Hframe (setHiResRequestId (hiResRequestId s + 1)
                          (setHiResSpec None s))) as (_ & Hf & Hh).
      destruct (kind t); cbn [latestToken] in *; unfold_setters;
        rewrite ?Hf, ?Hh; unfold_setters; lia.
    + rewrite H1, H2, H3, H4, H5, H6. repeat split.
  - intros Hnth Hkind. cbv zeta. cbn [handle]. rewrite Hnth.
    set (s1 := teardownSpectrum env s) in *.
    assert (Hin : In t (suspended s)).
    { apply nth_error_In in Hnth. destruct (Hframe s) as (Hs & _).
      unfold s1 in Hnth. rewrite Hs in Hnth. exact Hnth. }
    pose proof (runs_in_flight_bounded trace supported canvas t Hin) as Hle.
    fold s in Hle.
    destruct (resume_stale env' t
                (setSuspended (removeNth n (suspended s1)) s1))
      as (H1 & H2 & H3 & H4 & H5 & H6).
    + unfold s1. destruct (Hframe s) as (_ & Hf & Hh).
      rewrite Hkind in *. cbn [latestToken] in *. unfold_setters.
      rewrite Hf. lia.
    + rewrite H1, H2, H3, H4, H5, H6. repeat split.
Qed.

Lemma teardown_cancels_builds_in_flight_witness :
  spectrogram
    (handle zoomedEnv (EvResume 0)
       (destroyAll zoomedEnv
          (run [(zoomedEnv, EvLoad silence2s)]
               (initial true (Some canvas2x2)))))
  = None.
Proof.
  edestruct (teardown_cancels_builds_in_flight
               [(zoomedEnv, EvLoad silence2s)] true (Some canvas2x2)
               zoomedEnv zoomedEnv 0%nat) as [Hcancel _].
  cbv zeta in Hcancel. destruct (Hcancel eq_refl) as (Hspec & _).
  rewrite Hspec. reflexivity.
Defined.
